(** * Order-driven flexible job-shop scheduling: the hybrid GA-VNS engine

    A shallow embedding of [flexible_scheduling/hybrid_ga_vns_scheduler.py]
    and of the [MachineState] class of [flexible_scheduling/fjsp_scheduler.py].

    Conventions of the embedding:
    - Python [int]s are [Z]; list indices are [Z] as well and go through
      [py_index], which wraps negative indices and raises [IndexError].
    - [dict]s that are only read by key are [gmap]s; [self.machines], whose
      key order is used ([list(self.machines.keys())[i]]), is the list of
      its keys in insertion order.
    - A call that may raise returns a [result]; code that mutates an object
      before raising returns the mutated objects next to the [result].
    - Every call of [random] is replaced by an explicit argument holding
      the drawn value; theorems quantify over all draws the library can
      return.
    - [float]s that only hold ratios and thresholds are exact rationals
      ([Q]); no theorem depends on their rounding. *)

From Stdlib Require Import ZArith QArith Qround Lia Permutation Ascii String.
From stdpp Require Import base option list gmap strings pretty sorting.

Open Scope Z_scope.

(** ** Python runtime: exceptions, indexing, [str.split] *)

Inductive exn : Type :=
| IndexError
| KeyError
| ZeroDivisionError
| ValueError
| OverflowError.

Inductive result (A : Type) : Type :=
| Ok (a : A)
| Raise (e : exn).

Arguments Ok {A} a.
Arguments Raise {A} e.

#[global] Instance result_ret : MRet result := fun _ a => Ok a.
#[global] Instance result_bind : MBind result := fun _ _ f r =>
  match r with
  | Ok a => f a
  | Raise e => Raise e
  end.

Definition of_option {A : Type} (e : exn) (o : option A) : result A :=
  match o with
  | Some a => Ok a
  | None => Raise e
  end.

Definition is_ok {A : Type} (r : result A) : bool :=
  match r with
  | Ok _ => true
  | Raise _ => false
  end.

(** [l[i]]: a negative index counts from the end. *)
Definition py_index {A : Type} (l : list A) (i : Z) : result A :=
  let n := Z.of_nat (length l) in
  if bool_decide (0 <= i) then of_option IndexError (l !! Z.to_nat i)
  else if bool_decide (- n <= i) then of_option IndexError (l !! Z.to_nat (n + i))
  else Raise IndexError.

(** [s.split(sep)] for a non-empty separator: [skip] counts the characters
    of a separator that has just been matched and is still to be dropped. *)
Fixpoint split_aux (sep : string) (skip : nat) (cur s : string) : list string :=
  match s with
  | EmptyString => [cur]
  | String c s' =>
      match skip with
      | S k => split_aux sep k cur s'
      | O =>
          if String.prefix sep s
          then cur :: split_aux sep (String.length sep - 1) "" s'
          else split_aux sep 0 (cur +:+ String c "") s'
      end
  end.

Definition split (sep s : string) : list string := split_aux sep 0 "" s.

(** ** Data model ([fjsp_scheduler.py], [Individual]) *)

Record Task : Type := mkTask {
  order_id : string;
  job_name : string;
  operation_idx : nat;
  task_id : string
}.

Record ScheduledTask : Type := mkScheduledTask {
  task : Task;
  machine_id : string;
  start_time : Z;
  end_time : Z;
  processing_time : Z
}.

Record MachineState : Type := mkMachineState {
  ms_machine_id : string;
  available_time : Z;
  scheduled_tasks : list ScheduledTask
}.

(** [MachineState(machine_id)] *)
Definition new_machine_state (m : string) : MachineState :=
  mkMachineState m 0 [].

(** [MachineState.schedule_task]: returns the machine after the call and the
    record it appended. *)
Definition schedule_task (ms : MachineState) (t : Task) (ptime : Z)
    (start : option Z) : MachineState * ScheduledTask :=
  let start_time :=
    match start with
    | None => available_time ms
    | Some s0 => Z.max s0 (available_time ms)
    end in
  let end_time := start_time + ptime in
  let st := mkScheduledTask t (ms_machine_id ms) start_time end_time ptime in
  (mkMachineState (ms_machine_id ms) end_time (scheduled_tasks ms ++ [st]), st).

(** An entry of [self.all_operations]. *)
Record OpInfo : Type := mkOpInfo {
  op_task : Task;
  op_machines : list string;
  op_processing_times : gmap string Z;
  operation_id : nat
}.

(** [float('inf')] or an [int]. *)
Inductive Fitness : Type :=
| Fin (z : Z)
| Inf.

Definition fit_ltb (a b : Fitness) : bool :=
  match a, b with
  | Fin x, Fin y => bool_decide (x < y)
  | Fin _, Inf => true
  | Inf, _ => false
  end.

Definition fit_leb (a b : Fitness) : bool :=
  match a, b with
  | Fin x, Fin y => bool_decide (x <= y)
  | _, Inf => true
  | Inf, Fin _ => false
  end.

Record Individual : Type := mkIndividual {
  machine_assignment : list Z;
  operation_sequence : list Z;
  fitness : Fitness;
  actual_makespan : Fitness;
  schedule : list ScheduledTask
}.

(** [Individual(machine_assignment=..., operation_sequence=...)] *)
Definition new_individual (ma seq : list Z) : Individual :=
  mkIndividual ma seq Inf Inf [].

Record Weights : Type := mkWeights {
  w_makespan : Q;
  w_load_balance : Q;
  w_flow_time : Q
}.

(** An entry of [Job.operations]. *)
Record Operation : Type := mkOperation {
  operation : string;
  op_def_machines : list string;
  processing_times : gmap string Z
}.

Record Job : Type := mkJob {
  name : string;
  operations : list Operation
}.

Record Order : Type := mkOrder {
  o_job_name : string;
  quantity : Z;
  user : string;
  o_order_id : string
}.

(** The fields of [HybridGAVNSScheduler] that the modelled methods use. *)
Record Scheduler : Type := mkScheduler {
  jobs : gmap string Job;
  orders : list Order;
  machines : list string;
  all_operations : list OpInfo;
  operation_to_machines : gmap nat (list Z);
  population_size : nat;
  generations : nat;
  use_archive_solutions : bool;
  solution_archive : list Individual;
  archive_size : nat;
  diversity_threshold : Q;
  sequence_priority_weights : Weights;
  use_tabu_search : bool;
  tabu_list : list string;
  tabu_tenure : nat;
  max_neighborhoods : nat
}.

Definition set_solution_archive (s : Scheduler) (a : list Individual) : Scheduler :=
  mkScheduler (jobs s) (orders s) (machines s) (all_operations s)
    (operation_to_machines s) (population_size s) (generations s)
    (use_archive_solutions s) a (archive_size s) (diversity_threshold s)
    (sequence_priority_weights s) (use_tabu_search s) (tabu_list s)
    (tabu_tenure s) (max_neighborhoods s).



Definition set_environment (s : Scheduler) (js : gmap string Job) (ms : list string)
    : Scheduler :=
  mkScheduler js (orders s) ms (all_operations s)
    (operation_to_machines s) (population_size s) (generations s)
    (use_archive_solutions s) (solution_archive s) (archive_size s)
    (diversity_threshold s) (sequence_priority_weights s) (use_tabu_search s)
    (tabu_list s) (tabu_tenure s) (max_neighborhoods s).

Definition set_orders (s : Scheduler) (os : list Order) : Scheduler :=
  mkScheduler (jobs s) os (machines s) (all_operations s)
    (operation_to_machines s) (population_size s) (generations s)
    (use_archive_solutions s) (solution_archive s) (archive_size s)
    (diversity_threshold s) (sequence_priority_weights s) (use_tabu_search s)
    (tabu_list s) (tabu_tenure s) (max_neighborhoods s).

Definition set_problem_data (s : Scheduler) (ops : list OpInfo)
    (o2m : gmap nat (list Z)) : Scheduler :=
  mkScheduler (jobs s) (orders s) (machines s) ops o2m
    (population_size s) (generations s)
    (use_archive_solutions s) (solution_archive s) (archive_size s)
    (diversity_threshold s) (sequence_priority_weights s) (use_tabu_search s)
    (tabu_list s) (tabu_tenure s) (max_neighborhoods s).

(** [HybridGAVNSScheduler.__init__] *)
Definition init_scheduler : Scheduler :=
  mkScheduler ∅ [] [] [] ∅ 35 50 true [] 30 (15 # 100)
    (mkWeights (95 # 100) (3 # 100) (2 # 100)) true [] 15 4.

(** ** The decoder: [evaluate_individual] *)

(** [task.order_id + str(task.task_id.split('_unit')[1].split('_')[0])] *)
Definition unit_key (t : Task) : result string :=
  piece ← py_index (split "_unit" (task_id t)) 1;
  unit ← py_index (split "_" piece) 0;
  Ok (order_id t +:+ unit).

(** [job_unit_completion = defaultdict(lambda: defaultdict(int))]: reading a
    missing entry stores the default it returns. *)
Definition juc_read (juc : gmap string (gmap nat Z)) (k : string) (i : nat)
    : Z * gmap string (gmap nat Z) :=
  let inner := default ∅ (juc !! k) in
  let v := default 0 (inner !! i) in
  (v, <[k := <[i := v]> inner]> juc).

Definition juc_write (juc : gmap string (gmap nat Z)) (k : string) (i : nat)
    (v : Z) : gmap string (gmap nat Z) :=
  <[k := <[i := v]> (default ∅ (juc !! k))]> juc.

(** The local variables of the decoding loop. *)
Record DecodeState : Type := mkDecodeState {
  machine_states : gmap string MachineState;
  scheduled : list ScheduledTask;
  job_unit_completion : gmap string (gmap nat Z)
}.

(** [machine_states[machine_id] = MachineState(machine_id)] for every key. *)
Definition reset_machine_states (ms : list string) : gmap string MachineState :=
  foldl (fun acc m => <[m := new_machine_state m]> acc) ∅ ms.

Definition decode_init (s : Scheduler) : DecodeState :=
  mkDecodeState (reset_machine_states (machines s)) [] ∅.

(** What one gene selects: the operation, the machine it is assigned to and
    [op_info['processing_times'].get(machine_id, 10)]. *)
Definition gene_lookup (s : Scheduler) (ind : Individual) (op_id : Z)
    : result (OpInfo * string * Z) :=
  op_info ← py_index (all_operations s) op_id;
  machine_idx ← py_index (machine_assignment ind) op_id;
  machine_id ← py_index (machines s) machine_idx;
  Ok (op_info, machine_id, default 10 (op_processing_times op_info !! machine_id)).

(** The body of [for op_id in individual.operation_sequence]. *)
Definition decode_step (s : Scheduler) (ind : Individual) (st : DecodeState)
    (op_id : Z) : result DecodeState :=
  '(op_info, machine_id, processing_time) ← gene_lookup s ind op_id;
  let task := op_task op_info in
  ms ← of_option KeyError (machine_states st !! machine_id);
  let start_time := available_time ms in
  '(start_time, juc) ←
    (if bool_decide (0 < operation_idx task)%nat then
       unit_key ← unit_key task;
       let '(prev_completion, juc) :=
         juc_read (job_unit_completion st) unit_key (operation_idx task - 1) in
       Ok (Z.max start_time prev_completion, juc)
     else Ok (start_time, job_unit_completion st));
  let '(ms', scheduled_task) := schedule_task ms task processing_time (Some start_time) in
  unit_key ← unit_key task;
  Ok (mkDecodeState
        (<[machine_id := ms']> (machine_states st))
        (scheduled st ++ [scheduled_task])
        (juc_write juc unit_key (operation_idx task) (end_time scheduled_task))).

Fixpoint decode_loop (s : Scheduler) (ind : Individual) (st : DecodeState)
    (seq : list Z) : result DecodeState :=
  match seq with
  | [] => Ok st
  | op_id :: rest =>
      st' ← decode_step s ind st op_id;
      decode_loop s ind st' rest
  end.

(** [max(task.end_time for task in scheduled_tasks) if scheduled_tasks else 0] *)
Definition makespan_of (l : list ScheduledTask) : Z :=
  match l with
  | [] => 0
  | t :: rest => foldl (fun acc u => Z.max acc (end_time u)) (end_time t) rest
  end.

(** The schedule the loop builds, before any field of the individual is set. *)
Definition decode (s : Scheduler) (ind : Individual) : result (list ScheduledTask) :=
  st ← decode_loop s ind (decode_init s) (operation_sequence ind);
  Ok (scheduled st).

(** ** The solution archive: [calculate_similarity], [_update_solution_archive] *)

(** [sum(1 for i in range(len(l1)) if l1[i] == l2[i])]; [l2[i]] raises
    when [l2] is the shorter list. *)
Fixpoint count_equal_strict (l1 l2 : list Z) : result nat :=
  match l1, l2 with
  | [], _ => Ok 0%nat
  | _ :: _, [] => Raise IndexError
  | x :: l1', y :: l2' =>
      n ← count_equal_strict l1' l2';
      Ok (if bool_decide (x = y) then S n else n)
  end.

(** The same count under the guard [if i < len(l2)]. *)
Fixpoint count_equal_guarded (l1 l2 : list Z) : nat :=
  match l1, l2 with
  | x :: l1', y :: l2' =>
      if bool_decide (x = y) then S (count_equal_guarded l1' l2')
      else count_equal_guarded l1' l2'
  | _, _ => 0%nat
  end.

(** [a / b] on numbers that Python holds as [float]. *)
Definition py_div (a : Q) (b : nat) : result Q :=
  match b with
  | O => Raise ZeroDivisionError
  | S _ => Ok (a / inject_Z (Z.of_nat b))%Q
  end.

Definition calculate_similarity (ind1 ind2 : Individual) : result Q :=
  cnt ← count_equal_strict (machine_assignment ind1) (machine_assignment ind2);
  machine_similarity ← py_div (inject_Z (Z.of_nat cnt)) (length (machine_assignment ind1));
  let cnt' := count_equal_guarded (operation_sequence ind1) (operation_sequence ind2) in
  sequence_similarity ← py_div (inject_Z (Z.of_nat cnt')) (length (operation_sequence ind1));
  Ok ((machine_similarity + sequence_similarity) / 2)%Q.

(** The [for archived_ind in self.solution_archive] loop with its [break]. *)
Fixpoint is_diverse (threshold : Q) (ind : Individual) (archive : list Individual)
    : result bool :=
  match archive with
  | [] => Ok true
  | archived_ind :: rest =>
      similarity ← calculate_similarity ind archived_ind;
      if negb (Qle_bool similarity (1 - threshold)%Q) then Ok false
      else is_diverse threshold ind rest
  end.

(** [list.sort(key=lambda x: x.fitness)]: a stable sort. *)
Fixpoint insert_by_fitness (x : Individual) (l : list Individual) : list Individual :=
  match l with
  | [] => [x]
  | y :: l' =>
      if fit_leb (fitness x) (fitness y) then x :: y :: l'
      else y :: insert_by_fitness x l'
  end.

Definition sort_by_fitness (l : list Individual) : list Individual :=
  foldr insert_by_fitness [] l.

Definition _update_solution_archive (s : Scheduler) (individual : Individual)
    : result Scheduler :=
  diverse ← is_diverse (diversity_threshold s) individual (solution_archive s);
  if diverse : bool then
    let archive := solution_archive s ++ [individual] in
    if bool_decide (archive_size s < length archive)%nat
    then Ok (set_solution_archive s (take (archive_size s) (sort_by_fitness archive)))
    else Ok (set_solution_archive s archive)
  else Ok s.

(** [evaluate_individual]: the scheduler and the individual as the call
    leaves them, and the value it returns or the exception it raises. The
    individual gets [fitness] and [actual_makespan] before the archive is
    touched and [schedule] after it. *)
Definition evaluate_individual (s : Scheduler) (individual : Individual)
    : Scheduler * Individual * result Fitness :=
  match decode s individual with
  | Raise e => (s, individual, Raise e)
  | Ok scheduled_tasks =>
      let makespan := Fin (makespan_of scheduled_tasks) in
      let ind1 :=
        mkIndividual (machine_assignment individual) (operation_sequence individual)
          makespan makespan (schedule individual) in
      match (if use_archive_solutions s then _update_solution_archive s ind1 else Ok s) with
      | Raise e => (s, ind1, Raise e)
      | Ok s' =>
          (s',
           mkIndividual (machine_assignment ind1) (operation_sequence ind1)
             (fitness ind1) (actual_makespan ind1) scheduled_tasks,
           Ok (fitness ind1))
      end
  end.

(** ** The decoder as the specification words it

    Machine cursors and per-unit completion markers start at 0. Each task
    of the sequence, in order, starts at the maximum of its machine's
    cursor and the completion recorded so far for the previous operation
    of its unit (0 when none is recorded; a first operation has no previous
    operation) and ends [duration] later; the cursor moves to the end and
    the end is recorded as the unit's completion at this operation. *)

Record SpecState : Type := mkSpecState {
  cursor : gmap string Z;
  completion : gmap (string * nat) Z;
  spec_tasks : list ScheduledTask
}.

Definition spec_init : SpecState := mkSpecState ∅ ∅ [].

Definition spec_predecessor_completion (st : SpecState) (unit : string) (i : nat) : option Z :=
  match i with
  | O => None
  | S j => Some (default 0 (completion st !! (unit, j)))
  end.

Definition spec_start (cur : Z) (pred : option Z) : Z :=
  match pred with
  | None => cur
  | Some c => Z.max cur c
  end.

Definition spec_step (s : Scheduler) (ind : Individual) (st : SpecState)
    (op_id : Z) : result SpecState :=
  '(op_info, machine, duration) ← gene_lookup s ind op_id;
  unit ← unit_key (op_task op_info);
  let i := operation_idx (op_task op_info) in
  let start := spec_start (default 0 (cursor st !! machine))
                 (spec_predecessor_completion st unit i) in
  let end_ := start + duration in
  Ok (mkSpecState (<[machine := end_]> (cursor st))
        (<[(unit, i) := end_]> (completion st))
        (spec_tasks st ++ [mkScheduledTask (op_task op_info) machine start end_ duration])).

Fixpoint spec_loop (s : Scheduler) (ind : Individual) (st : SpecState)
    (seq : list Z) : result SpecState :=
  match seq with
  | [] => Ok st
  | op_id :: rest =>
      st' ← spec_step s ind st op_id;
      spec_loop s ind st' rest
  end.

Definition spec_decode (s : Scheduler) (ind : Individual) : result (list ScheduledTask) :=
  st ← spec_loop s ind spec_init (operation_sequence ind);
  Ok (spec_tasks st).

(** The maximum end time of a schedule, 0 for the empty one. *)
Definition spec_makespan (l : list ScheduledTask) : Z :=
  match end_time <$> l with
  | [] => 0
  | e :: es => foldr Z.max e es
  end.

(** ** Genetic operators on the operation sequence *)

(** [l[a:b]] and [l[a:b] = v] for indices [0 <= a], [0 <= b]. *)
Definition py_slice {A : Type} (l : list A) (a b : nat) : list A :=
  take (b - a) (drop a l).

Definition py_slice_assign {A : Type} (l : list A) (a b : nat) (v : list A) : list A :=
  take a l ++ v ++ drop (a `max` b) l.

(** [l[i] = v] *)
Definition py_setitem {A : Type} (l : list A) (i : nat) (v : A) : result (list A) :=
  if bool_decide (i < length l)%nat then Ok (<[i := v]> l) else Raise IndexError.

(** The [for i in range(size)] loop of [fill_remaining] and
    [fill_remaining_pbx] over the positions that exist in [child_seq];
    [remaining] is [remaining[j:]]. *)
Fixpoint fill_loop (child_seq remaining : list Z) : result (list Z) :=
  match child_seq with
  | [] => Ok []
  | c :: child' =>
      if bool_decide (c = -1) then
        match remaining with
        | [] => Raise IndexError
        | r :: remaining' => rest ← fill_loop child' remaining'; Ok (r :: rest)
        end
      else rest ← fill_loop child' remaining; Ok (c :: rest)
  end.

(** Runs the loop over [range(size)]: reading [child_seq[i]] past the end
    of [child_seq] raises. *)
Definition fill_positions (size : nat) (child_seq remaining : list Z) : result (list Z) :=
  filled ← fill_loop (take size child_seq) remaining;
  if bool_decide (length child_seq < size)%nat then Raise IndexError
  else Ok (filled ++ drop size child_seq).

(** [fill_remaining] of [order_crossover]:
    [remaining = [x for x in other_parent_seq if x not in child_seq]]. *)
Definition fill_remaining (size : nat) (child_seq other_parent_seq : list Z)
    : result (list Z) :=
  fill_positions size child_seq
    (filter (fun x => x ∉ child_seq) other_parent_seq).

(** The per-position exchange of machine assignments; [coins] holds the
    outcome of [random.random() < 0.5] for the positions still to visit. *)
Fixpoint cross_machines (coins : list bool) (i : nat) (ma1 ma2 : list Z)
    : result (list Z * list Z) :=
  match coins with
  | [] => Ok ([], [])
  | c :: coins' =>
      a ← of_option IndexError (ma1 !! i);
      b ← of_option IndexError (ma2 !! i);
      '(c1, c2) ← cross_machines coins' (S i) ma1 ma2;
      Ok (if c : bool then (a :: c1, b :: c2) else (b :: c1, a :: c2))
  end.

(** [order_crossover]; [(start, end_)] is
    [sorted(random.sample(range(size), 2))] and [coin i] is the outcome of
    [random.random() < 0.5] at position [i]. *)
Definition order_crossover (parent1 parent2 : Individual) (start end_ : nat)
    (coin : nat → bool) : result (Individual * Individual) :=
  let size := length (operation_sequence parent1) in
  if bool_decide (size < 2)%nat then Raise ValueError else
  let child1_seq := py_slice_assign (replicate size (-1)) start end_
                      (py_slice (operation_sequence parent1) start end_) in
  let child2_seq := py_slice_assign (replicate size (-1)) start end_
                      (py_slice (operation_sequence parent2) start end_) in
  child1_seq ← fill_remaining size child1_seq (operation_sequence parent2);
  child2_seq ← fill_remaining size child2_seq (operation_sequence parent1);
  '(child1_machines, child2_machines) ←
    cross_machines (coin <$> seq 0 size) 0
      (machine_assignment parent1) (machine_assignment parent2);
  Ok (new_individual child1_machines child1_seq,
      new_individual child2_machines child2_seq).

(** The sequence loop of [uniform_crossover]. The state is
    [(child1_seq, used1, child2_seq, used2)]. *)
Definition uniform_take (seq : list Z) (used : gset Z) (x : Z) : list Z * gset Z :=
  if bool_decide (x ∈ used) then (seq, used) else (seq ++ [x], {[x]} ∪ used).

Fixpoint uniform_loop (coins : list bool) (i : nat) (p1 p2 : list Z)
    (c1 : list Z * gset Z) (c2 : list Z * gset Z)
    : result ((list Z * gset Z) * (list Z * gset Z)) :=
  match coins with
  | [] => Ok (c1, c2)
  | c :: coins' =>
      a ← of_option IndexError (p1 !! i);
      b ← of_option IndexError (p2 !! i);
      if c : bool
      then uniform_loop coins' (S i) p1 p2 (uniform_take c1.1 c1.2 a) (uniform_take c2.1 c2.2 b)
      else uniform_loop coins' (S i) p1 p2 (uniform_take c1.1 c1.2 b) (uniform_take c2.1 c2.2 a)
  end.

(** [sorted(set(range(size)) - used)] *)
Definition missing_ops (size : nat) (used : gset Z) : list Z :=
  filter (fun x => x ∉ used) (seqZ 0 (Z.of_nat size)).

(** [uniform_crossover]; [mcoin i] and [scoin i] are the outcomes of
    [random.random() < 0.5] at position [i] of the machine loop and of the
    sequence loop. *)
Definition uniform_crossover (parent1 parent2 : Individual)
    (mcoin scoin : nat → bool) : result (Individual * Individual) :=
  let size := length (operation_sequence parent1) in
  '(child1_machines, child2_machines) ←
    cross_machines (mcoin <$> seq 0 (length (machine_assignment parent1))) 0
      (machine_assignment parent1) (machine_assignment parent2);
  '((child1_seq, used1), (child2_seq, used2)) ←
    uniform_loop (scoin <$> seq 0 size) 0
      (operation_sequence parent1) (operation_sequence parent2) ([], ∅) ([], ∅);
  Ok (new_individual child1_machines (child1_seq ++ missing_ops size used1),
      new_individual child2_machines (child2_seq ++ missing_ops size used2)).

(** [for pos in positions: child[pos] = source[pos]] *)
Fixpoint copy_positions (positions : list nat) (child source : list Z) : result (list Z) :=
  match positions with
  | [] => Ok child
  | pos :: rest =>
      v ← of_option IndexError (source !! pos);
      child' ← py_setitem child pos v;
      copy_positions rest child' source
  end.

(** [{parent.operation_sequence[pos] for pos in positions}] *)
Fixpoint selected_ops (positions : list nat) (source : list Z) : result (gset Z) :=
  match positions with
  | [] => Ok ∅
  | pos :: rest =>
      v ← of_option IndexError (source !! pos);
      sel ← selected_ops rest source;
      Ok ({[v]} ∪ sel)
  end.

(** [fill_remaining_pbx] *)
Definition fill_remaining_pbx (size : nat) (child_seq other_parent_seq : list Z)
    (selected : gset Z) : result (list Z) :=
  fill_positions size child_seq (filter (fun op => op ∉ selected) other_parent_seq).

(** [position_based_crossover]; [positions] is
    [random.sample(range(size), size // 3)]. *)
Definition position_based_crossover (parent1 parent2 : Individual)
    (positions : list nat) : result (Individual * Individual) :=
  let size := length (operation_sequence parent1) in
  child1_machines ← copy_positions positions (machine_assignment parent1) (machine_assignment parent2);
  child2_machines ← copy_positions positions (machine_assignment parent2) (machine_assignment parent1);
  child1_seq ← copy_positions positions (replicate size (-1)) (operation_sequence parent1);
  child2_seq ← copy_positions positions (replicate size (-1)) (operation_sequence parent2);
  selected_ops1 ← selected_ops positions (operation_sequence parent1);
  selected_ops2 ← selected_ops positions (operation_sequence parent2);
  child1_seq ← fill_remaining_pbx size child1_seq (operation_sequence parent2) selected_ops1;
  child2_seq ← fill_remaining_pbx size child2_seq (operation_sequence parent1) selected_ops2;
  Ok (new_individual child1_machines child1_seq,
      new_individual child2_machines child2_seq).

(** What [random.sample(range(size), k)] can return. *)
Definition is_sample (size k : nat) (positions : list nat) : Prop :=
  length positions = k ∧ NoDup positions ∧ Forall (fun p => (p < size)%nat) positions.

(** *** [mutate_individual] *)

(** The draws of the machine part: one entry per gene, [Some m] when the
    gene is redrawn and [random.choice] returned machine index [m]. *)
Fixpoint mutate_machines (draws : list (option Z)) (ma : list Z) : list Z :=
  match ma, draws with
  | m :: ma', Some m' :: draws' => m' :: mutate_machines draws' ma'
  | m :: ma', None :: draws' => m :: mutate_machines draws' ma'
  | _, _ => ma
  end.

(** The draws of the sequence part: nothing when
    [random.random() >= adaptive_rate], otherwise the chosen strategy with
    the positions drawn for it. *)
Inductive SeqMutation : Type :=
| NoSeqMutation
| MutSwap (i j : nat)
| MutInsert (i j : nat)
| MutReverse (start end_ : nat).

(** [seq[i], seq[j] = seq[j], seq[i]] *)
Definition swap_positions (seq : list Z) (i j : nat) : result (list Z) :=
  x ← of_option IndexError (seq !! i);
  y ← of_option IndexError (seq !! j);
  Ok (<[j := x]> (<[i := y]> seq)).

(** [op = seq.pop(i); seq.insert(j, op)] *)
Definition pop_insert (seq : list Z) (i j : nat) : result (list Z) :=
  op ← of_option IndexError (seq !! i);
  let seq' := delete i seq in
  Ok (take j seq' ++ op :: drop j seq').

(** [seq[start:end+1] = seq[start:end+1][::-1]] *)
Definition reverse_segment (seq : list Z) (start end_ : nat) : list Z :=
  py_slice_assign seq start (S end_) (reverse (py_slice seq start (S end_))).

Definition mutate_sequence (m : SeqMutation) (seq : list Z) : result (list Z) :=
  match m with
  | NoSeqMutation => Ok seq
  | MutSwap i j => swap_positions seq i j
  | MutInsert i j => pop_insert seq i j
  | MutReverse start end_ => Ok (reverse_segment seq start end_)
  end.

(** The positions each strategy can draw for a sequence of length [size]. *)
Definition seq_mutation_drawn (size : nat) (m : SeqMutation) : Prop :=
  match m with
  | NoSeqMutation => True
  | MutSwap i j => (i < size)%nat ∧ (j < size)%nat
  | MutInsert i j => (i < size)%nat ∧ (j < size)%nat
  | MutReverse start end_ =>
      (start < size)%nat ∧ (start <= end_)%nat ∧ (end_ <= (start + 5) `min` (size - 1))%nat
  end.

(** [mutate_individual] changes the individual in place and leaves its
    [fitness], [actual_makespan] and [schedule] as they were. *)
Definition mutate_individual (individual : Individual)
    (draws : list (option Z)) (m : SeqMutation) : result Individual :=
  seq ← mutate_sequence m (operation_sequence individual);
  Ok (mkIndividual (mutate_machines draws (machine_assignment individual)) seq
        (fitness individual) (actual_makespan individual) (schedule individual)).

(** [operation_sequence] is a permutation of [0..N-1]. *)
Definition is_permutation_of_range (n : nat) (seq : list Z) : Prop :=
  seq ≡ₚ seqZ 0 (Z.of_nat n).

(** ** Variable neighbourhood search *)










(** ** The generational loop of [genetic_algorithm] *)










(** ** Building the problem model *)

(** [s.endswith(suffix)] *)
Definition endswith (s suffix : string) : bool :=
  let n := String.length s in
  let k := String.length suffix in
  bool_decide (k <= n)%nat && String.eqb (String.substring (n - k) k s) suffix.

(** [s.replace(old, new)] for a non-empty [old] *)
Definition replace (s old new : string) : string :=
  String.concat new (split old s).

(** [s.lower()] on ASCII text *)
Definition lower_ascii (c : ascii) : ascii :=
  let n := nat_of_ascii c in
  if bool_decide (65 <= n)%nat && bool_decide (n <= 90)%nat
  then ascii_of_nat (n + 32) else c.

Fixpoint lower (s : string) : string :=
  match s with
  | EmptyString => EmptyString
  | String c s' => String (lower_ascii c) (lower s')
  end.

Definition job_operation_mapping : gmap string string :=
  list_to_map
    [("pants", "Job1"); ("pant", "Job1"); ("shirt", "Job2"); ("curtain", "Job3");
     ("towel", "Job4"); ("t-shirt", "Job5"); ("t-shirts", "Job5")].

(** One entry of an order file, after [order_data.get('product', '')] and
    [int(order_data.get('quantity', 0))]. *)
Record OrderData : Type := mkOrderData {
  product : string;
  od_quantity : Z
}.

(** A file of the orders folder: its name and its decoded JSON list. *)
Record OrderFile : Type := mkOrderFile {
  filename : string;
  orders_data : list OrderData
}.

(** The body of [for order_data in orders_data]: an entry whose product is
    not a key of [job_operation_mapping] adds nothing. *)
Definition load_order (username timestamp : string) (order_data : OrderData)
    : list Order :=
  let product := lower (product order_data) in
  match job_operation_mapping !! product with
  | Some job_name =>
      [mkOrder job_name (od_quantity order_data) username
         (username +:+ "_" +:+ timestamp +:+ "_" +:+ product)]
  | None => []
  end.

Definition load_order_file (f : OrderFile) : result (list Order) :=
  if endswith (filename f) ".json" then
    username ← py_index (split "_" (filename f)) 0;
    let timestamp := replace (replace (filename f) ".json" "") (username +:+ "_") "" in
    Ok (concat (load_order username timestamp <$> orders_data f))
  else Ok [].

(** [load_user_orders]; [files] is what [os.listdir] and [json.load]
    deliver, or the exception they raise. *)
Definition load_user_orders (files : result (list OrderFile)) : result (list Order) :=
  fs ← files;
  per_file ← mapM load_order_file fs;
  Ok (concat per_file).

(** The operation list shared by the five entries of [job_definitions]. *)
Definition standard_operations : list (string * list string) :=
  [("Fabric Inspection", ["M1"; "M2"; "M3"; "M4"]);
   ("Cutting", ["M5"; "M6"]);
   ("Sewing", ["M7"; "M8"]);
   ("Dyeing", ["M9"; "M10"; "M11"]);
   ("Printing", ["M12"; "M13"; "M14"; "M15"]);
   ("Quality Control", ["M16"; "M17"; "M18"])].

Definition job_definitions : list (string * (string * list (string * list string))) :=
  [("Job1", ("Pants", standard_operations));
   ("Job2", ("Shirt", standard_operations));
   ("Job3", ("Curtain", standard_operations));
   ("Job4", ("Towel", standard_operations));
   ("Job5", ("T-shirt", standard_operations))].

(** [for m in range(num_machines)]: reads [(machine, time)] pairs and
    breaks when fewer than two numbers are left. *)
Fixpoint read_machine_times (n : nat) (parts : list Z) (idx : nat)
    (operation_times : gmap string Z) : nat * gmap string Z :=
  match n with
  | O => (idx, operation_times)
  | S n' =>
      match parts !! idx, parts !! S idx with
      | Some m, Some t =>
          read_machine_times n' parts (idx + 2) (<["M" +:+ pretty m := t]> operation_times)
      | _, _ => (idx, operation_times)
      end
  end.

(** [for op in range(num_operations)] *)
Fixpoint read_operations (n : nat) (op : nat) (parts : list Z) (idx : nat)
    (job_times : gmap nat (gmap string Z)) : gmap nat (gmap string Z) :=
  match n with
  | O => job_times
  | S n' =>
      match parts !! idx with
      | None => job_times
      | Some num_machines =>
          let '(idx', operation_times) :=
            read_machine_times (Z.to_nat num_machines) parts (S idx) ∅ in
          read_operations n' (S op) parts idx' (<[op := operation_times]> job_times)
      end
  end.

(** [for i in range(num_jobs)]; a line is the list of its integers, or the
    [ValueError] of [int] on a token that is no integer. *)
Fixpoint read_jobs (n : nat) (i : nat) (lines : list (result (list Z)))
    (pt : gmap string (gmap nat (gmap string Z)))
    : result (gmap string (gmap nat (gmap string Z))) :=
  match n with
  | O => Ok pt
  | S n' =>
      match lines !! S i with
      | None => read_jobs n' (S i) lines pt
      | Some line =>
          parts ← line;
          let job_id := "Job" +:+ pretty (S i) in
          if bool_decide (job_id ∈ job_definitions.*1) then
            num_operations ← py_index parts 0;
            read_jobs n' (S i) lines
              (<[job_id := read_operations (Z.to_nat num_operations) 0 parts 1 ∅]> pt)
          else read_jobs n' (S i) lines pt
      end
  end.

(** The [try] block of [load_machine_environment]. *)
Definition read_processing_times (file : result (list (result (list Z))))
    : result (gmap string (gmap nat (gmap string Z))) :=
  lines ← file;
  line0 ← py_index lines 0;
  first_line ← line0;
  num_jobs ← py_index first_line 0;
  total_machines ← py_index first_line 1;
  read_jobs (Z.to_nat num_jobs) 0 lines ∅.

(** The [except] block: the built-in durations, for every job. *)
Definition default_operation_times : gmap nat (gmap string Z) :=
  list_to_map
    [(0%nat, list_to_map [("M1", 12); ("M2", 15); ("M3", 13); ("M4", 11)]);
     (1%nat, list_to_map [("M5", 18); ("M6", 22)]);
     (2%nat, list_to_map [("M7", 20); ("M8", 25)]);
     (3%nat, list_to_map [("M9", 35); ("M10", 30); ("M11", 40)]);
     (4%nat, list_to_map [("M12", 20); ("M13", 18); ("M14", 15); ("M15", 22)]);
     (5%nat, list_to_map [("M16", 15); ("M17", 12); ("M18", 10)])].

Definition default_processing_times : gmap string (gmap nat (gmap string Z)) :=
  list_to_map ((fun jd => (jd.1, default_operation_times)) <$> job_definitions).

(** [Job(name=..., operations=...)] with
    [processing_times.get(job_id, {}).get(i, {})] for operation [i]. *)
Definition make_job (pt : gmap string (gmap nat (gmap string Z)))
    (jd : string * (string * list (string * list string))) : string * Job :=
  let '(job_id, (job_name, ops)) := jd in
  (job_id,
   mkJob job_name
     (imap (fun i od =>
              mkOperation od.1 od.2 (default ∅ (default ∅ (pt !! job_id) !! i)))
           ops)).

(** The identifiers [all_machine_ids] collects. *)
Definition all_machine_ids : list string :=
  concat (snd <$> standard_operations).

(** [load_machine_environment]. [file] is the capability file; any
    exception while reading it selects the built-in durations.
    [machine_order] is the order in which the set [all_machine_ids] is
    iterated, which becomes the key order of [self.machines]. *)
Definition load_machine_environment (s : Scheduler)
    (file : result (list (result (list Z)))) (machine_order : list string)
    : Scheduler :=
  let pt :=
    match read_processing_times file with
    | Ok pt => pt
    | Raise _ => default_processing_times
    end in
  set_environment s (list_to_map (make_job pt <$> job_definitions)) machine_order.

(** [list(self.machines.keys()).index(machine)] *)
Fixpoint list_index (x : string) (l : list string) : result Z :=
  match l with
  | [] => Raise ValueError
  | y :: l' => if bool_decide (x = y) then Ok 0 else i ← list_index x l'; Ok (i + 1)
  end.

(** The indices stored in [operation_to_machines[operation_id]]: the
    operation's machines that have a processing time. *)
Fixpoint eligible_indices (ms : list string) (times : gmap string Z)
    (op_ms : list string) : result (list Z) :=
  match op_ms with
  | [] => Ok []
  | m :: rest =>
      match times !! m with
      | Some _ =>
          i ← list_index m ms;
          tl ← eligible_indices ms times rest;
          Ok (i :: tl)
      | None => eligible_indices ms times rest
      end
  end.

(** A left fold in the exception monad. *)
Fixpoint foldM {A B : Type} (f : B → A → result B) (b : B) (l : list A) : result B :=
  match l with
  | [] => Ok b
  | a :: l' => b' ← f b a; foldM f b' l'
  end.

(** The body of [for op_idx in range(len(job.operations))]; the state is
    [(all_operations, operation_to_machines)] and [operation_id] is the
    length of [all_operations]. *)
Definition prepare_operation (ms : list string) (o : Order) (job : Job) (unit : nat)
    (st : list OpInfo * gmap nat (list Z)) (op_idx : nat)
    : result (list OpInfo * gmap nat (list Z)) :=
  let '(ops, o2m) := st in
  let operation_id := length ops in
  op ← of_option IndexError (operations job !! op_idx);
  let task_id := o_order_id o +:+ "_unit" +:+ pretty unit +:+ "_op" +:+ pretty op_idx in
  let task := mkTask (o_order_id o) (o_job_name o) op_idx task_id in
  idxs ← eligible_indices ms (processing_times op) (op_def_machines op);
  Ok (ops ++ [mkOpInfo task (op_def_machines op) (processing_times op) operation_id],
      <[operation_id := idxs]> o2m).

Definition prepare_order (ms : list string) (js : gmap string Job)
    (st : list OpInfo * gmap nat (list Z)) (o : Order)
    : result (list OpInfo * gmap nat (list Z)) :=
  job ← of_option KeyError (js !! o_job_name o);
  foldM (fun st unit =>
           foldM (prepare_operation ms o job unit) st (seq 0 (length (operations job))))
        st (seq 0 (Z.to_nat (quantity o))).

(** [prepare_problem_data]: [all_operations] starts empty,
    [operation_to_machines] keeps what it held. *)
Definition prepare_problem_data (s : Scheduler) : result Scheduler :=
  '(ops, o2m) ← foldM (prepare_order (machines s) (jobs s))
                  ([], operation_to_machines s) (orders s);
  Ok (set_problem_data s ops o2m).

(** ** [get_schedule_data] and [run_scheduling] *)







(** [try: body except Exception as e: handler(e)] *)
Definition try_except {A : Type} (body : result A) (handler : exn → result A) : result A :=
  match body with
  | Ok a => Ok a
  | Raise e => handler e
  end.



(** The three loading calls that open [run_scheduling]. *)
Definition build_problem_model (s : Scheduler)
    (file : result (list (result (list Z)))) (machine_order : list string)
    (files : result (list OrderFile)) : result Scheduler :=
  let s := load_machine_environment s file machine_order in
  os ← load_user_orders files;
  prepare_problem_data (set_orders s os).



(** ** Predicates and sample inputs used by the statements *)

(** Every duration of the capability table is non-negative. *)
Definition nonneg_times (s : Scheduler) : Prop :=
  Forall (fun op => map_Forall (fun _ t => 0 <= t) (op_processing_times op))
         (all_operations s).

(** Every task identifier has the shape [prepare_problem_data] gives it, so
    that the unit key can be read off. *)
Definition tasks_well_formed (s : Scheduler) : Prop :=
  Forall (fun op => is_ok (unit_key (op_task op)) = true) (all_operations s).

(** A structurally valid chromosome: one machine gene per task, each the
    index of a machine, and a sequence that is a permutation of the task
    indices. *)
Definition valid_chromosome (s : Scheduler) (ind : Individual) : Prop :=
  length (machine_assignment ind) = length (all_operations s) ∧
  Forall (fun m => 0 <= m < Z.of_nat (length (machines s))) (machine_assignment ind) ∧
  is_permutation_of_range (length (all_operations s)) (operation_sequence ind).

(** Tasks on one machine never overlap in time. *)
Definition non_overlapping (sched : list ScheduledTask) : Prop :=
  ∀ i j a b, i ≠ j → sched !! i = Some a → sched !! j = Some b →
    machine_id a = machine_id b →
    end_time a <= start_time b ∨ end_time b <= start_time a.

(** The same, with the order in which the tasks were decoded. *)
Definition ordered_exclusive (sched : list ScheduledTask) : Prop :=
  ∀ i j a b, (i < j)%nat → sched !! i = Some a → sched !! j = Some b →
    machine_id a = machine_id b → end_time a <= start_time b.

(** The decoded genes: what a task of the schedule owes to the gene it
    was decoded from. *)
Definition decoded_from (s : Scheduler) (ind : Individual) (op_id : Z)
    (t : ScheduledTask) : Prop :=
  ∃ op m p,
    gene_lookup s ind op_id = Ok (op, m, p) ∧
    task t = op_task op ∧ machine_id t = m ∧ processing_time t = p ∧
    end_time t = start_time t + p.


(** The three parts of what [evaluate_individual] leaves behind. *)
Definition eval_scheduler (o : Scheduler * Individual * result Fitness) : Scheduler := o.1.1.
Definition eval_individual (o : Scheduler * Individual * result Fitness) : Individual := o.1.2.
Definition eval_result (o : Scheduler * Individual * result Fitness) : result Fitness := o.2.


(** The correspondence between the loop variables of the code and the
    state of the specification's decoder. *)
Definition sim (s : Scheduler) (st : DecodeState) (sp : SpecState) : Prop :=
  scheduled st = spec_tasks sp ∧
  (∀ m, m ∈ machines s →
     ∃ ms, machine_states st !! m = Some ms ∧ ms_machine_id ms = m ∧
           available_time ms = default 0 (cursor sp !! m)) ∧
  (∀ k i, default 0 (default ∅ (job_unit_completion st !! k) !! i)
          = default 0 (completion sp !! (k, i))).

(** Outcomes that agree: related results, or the same exception. *)
Definition agree {A B : Type} (R : A → B → Prop) (x : result A) (y : result B) : Prop :=
  match x, y with
  | Ok a, Ok b => R a b
  | Raise e, Raise e' => e = e'
  | _, _ => False
  end.

(** One order of one pair of pants, decoded with the built-in durations. *)
Definition sample_files : result (list OrderFile) :=
  Ok [mkOrderFile "alice_20240101.json" [mkOrderData "Pants" 1]].

Definition sample_scheduler : result Scheduler :=
  build_problem_model init_scheduler (Raise ValueError) all_machine_ids sample_files.

Definition sample : Scheduler :=
  match sample_scheduler with
  | Ok s => s
  | Raise _ => init_scheduler
  end.

(** The fastest machine for each of the six operations, in job order. *)
Definition sample_individual : Individual :=
  new_individual [3; 4; 6; 9; 13; 17] [0; 1; 2; 3; 4; 5].

(** The same assignment with the first two operations exchanged in the
    sequence, as a swap mutation leaves it. *)
Definition swapped_individual : Individual :=
  new_individual [3; 4; 6; 9; 13; 17] [1; 0; 2; 3; 4; 5].

(** The schedule the sample decodes to. *)
Definition sample_schedule : list ScheduledTask :=
  match decode sample sample_individual with
  | Ok l => l
  | Raise _ => []
  end.

(** The first operation put on machine index 4 (M5), for which its table
    has no duration. *)
Definition unlisted_individual : Individual :=
  new_individual [4; 4; 6; 9; 13; 17] [0; 1; 2; 3; 4; 5].

Definition sample_first_operation : OpInfo :=
  match all_operations sample with
  | op :: _ => op
  | [] => mkOpInfo (mkTask "" "" 0 "") [] ∅ 0
  end.

(** The schedule the swapped sample decodes to. *)
Definition swapped_schedule : list ScheduledTask :=
  match decode sample swapped_individual with
  | Ok l => l
  | Raise _ => []
  end.





(** The positions of a child sequence still holding the placeholder -1,
    and the genes already placed. *)
Definition holes (l : list Z) : nat := length (filter (fun x => x = -1) l).
Definition filled (l : list Z) : list Z := filter (fun x => x ≠ -1) l.

(** Draws for the sample generations: every refinement and every child is
    the evaluated sample individual. *)
Definition sample_evaluated : Individual :=
  eval_individual (evaluate_individual sample sample_individual).


(** What the sequence loop of [uniform_crossover] maintains for a child
    and its [used] set: no gene twice, [used] holds exactly the genes of
    the child, and every gene is a task index. *)
Definition used_inv (n : nat) (c : list Z * gset Z) : Prop :=
  NoDup c.1 ∧ (∀ x, x ∈ c.2 ↔ x ∈ c.1) ∧ ∀ x, x ∈ c.1 → 0 <= x < Z.of_nat n.

(** Two parents over four tasks. *)
Definition parent_a : Individual := new_individual [0; 1; 0; 1] [0; 1; 2; 3].
Definition parent_b : Individual := new_individual [1; 0; 1; 0] [3; 2; 1; 0].

(** An orders folder with an entry for a product that is no job type, and
    a capability file whose only job line declares two machines for its
    operation but gives a duration for the first one only. *)
Definition unknown_product_files : result (list OrderFile) :=
  Ok [mkOrderFile "bob_20240102.json" [mkOrderData "hat" 3; mkOrderData "pants" 1]].

Definition missing_duration_file : result (list (result (list Z))) :=
  Ok [Ok [1; 18]; Ok [1; 2; 1; 12; 2]].



(** [t] is operation [i] of the unit with key [u]. *)
Definition is_operation (u : string) (i : nat) (t : ScheduledTask) : bool :=
  match unit_key (task t) with
  | Ok u' => bool_decide (u' = u) && bool_decide (operation_idx (task t) = i)
  | Raise _ => false
  end.

(** The end of the last decoded task that is operation [i] of unit [u]. *)
Definition last_completion (tasks : list ScheduledTask) (u : string) (i : nat)
    : option Z :=
  foldl (fun acc t => if is_operation u i t then Some (end_time t) else acc) None tasks.

(** The completion markers hold the last recorded end of every operation,
    and every task starts at or after the end recorded for its
    predecessor when it was decoded. *)
Definition precedence_inv (sp : SpecState) : Prop :=
  (∀ u i, completion sp !! (u, i) = last_completion (spec_tasks sp) u i) ∧
  ∀ j b u i, spec_tasks sp !! j = Some b → unit_key (task b) = Ok u →
    operation_idx (task b) = S i →
    default 0 (last_completion (take j (spec_tasks sp)) u i) <= start_time b.

(** ** Seeding and selection: [quick_makespan_estimate], [tournament_selection] *)

(** The body of [for op_id in individual.operation_sequence] in
    [quick_makespan_estimate]; [machine_times] is a [defaultdict(float)]
    that only ever holds sums of [int]s. *)
Definition estimate_step (s : Scheduler) (individual : Individual)
    (machine_times : gmap string Z) (op_id : Z) : result (gmap string Z) :=
  if bool_decide (op_id < Z.of_nat (length (machine_assignment individual))) then
    machine_idx ← py_index (machine_assignment individual) op_id;
    if bool_decide (machine_idx < Z.of_nat (length (machines s))) then
      machine_id ← py_index (machines s) machine_idx;
      if bool_decide (op_id < Z.of_nat (length (all_operations s))) then
        op_info ← py_index (all_operations s) op_id;
        let proc_time := default 10 (op_processing_times op_info !! machine_id) in
        Ok (<[machine_id := default 0 (machine_times !! machine_id) + proc_time]>
              machine_times)
      else Ok machine_times
    else Ok machine_times
  else Ok machine_times.



(** [min(l, key=key)]: the first element whose key is minimal;
    [ValueError] on an empty list. *)
Definition py_min_by {A K : Type} (ltb : K → K → bool) (key : A → K) (l : list A)
    : result A :=
  match l with
  | [] => Raise ValueError
  | x :: l' => Ok (foldl (fun best y => if ltb (key y) (key best) then y else best) x l')
  end.

(** [tournament_selection]; [positions] holds the places of the population
    that [random.sample(population, min(tournament_size, len(population)))]
    drew, in the order it returned them. *)
Definition tournament_selection (population : list Individual)
    (positions : list nat) : result Individual :=
  tournament ← mapM (fun i => of_option IndexError (population !! i)) positions;
  py_min_by fit_ltb fitness tournament.

(** What the load estimate and the decoder's machine cursors have in
    common after the same genes: a machine has a load exactly when it has
    a cursor, the load is at most the cursor, and every cursor is the end
    of a decoded task. *)
Definition estimate_inv (machine_times : gmap string Z) (sp : SpecState) : Prop :=
  (∀ m, match machine_times !! m with
        | Some v => ∃ c, cursor sp !! m = Some c ∧ v <= c
        | None => cursor sp !! m = None
        end) ∧
  (∀ m c, cursor sp !! m = Some c → ∃ t, t ∈ spec_tasks sp ∧ end_time t = c) ∧
  (∀ t, t ∈ spec_tasks sp → is_Some (cursor sp !! machine_id t)).

(** What the decoding loop maintains for the record of every machine: it
    carries its own key, lists the tasks decoded on it in decoding order,
    and is available from the end of the last of them. *)
Definition machine_record_inv (st : DecodeState) : Prop :=
  ∀ m ms, machine_states st !! m = Some ms →
    ms_machine_id ms = m ∧
    scheduled_tasks ms = filter (fun t => machine_id t = m) (scheduled st) ∧
    available_time ms = default 0 (end_time <$> last (scheduled_tasks ms)).

(** The sample individual with its decoded schedule. *)
Definition sample_decoded : DecodeState :=
  match decode_loop sample sample_individual (decode_init sample)
          (operation_sequence sample_individual) with
  | Ok st => st
  | Raise _ => decode_init sample
  end.

(** Every machine gene is one of the indices [operation_to_machines] lists
    for its operation. *)
Definition machines_eligible (s : Scheduler) (ma : list Z) : Prop :=
  ∀ k m, ma !! k = Some m →
    ∃ idxs, operation_to_machines s !! k = Some idxs ∧ m ∈ idxs.

(** Position by position, the two children hold the genes of the two
    parents, in one order or the other. *)
Definition genes_exchanged (ma1 ma2 c1 c2 : list Z) : Prop :=
  length c1 = length c2 ∧
  ∀ k, (k < length c1)%nat →
    ∃ a b, ma1 !! k = Some a ∧ ma2 !! k = Some b ∧
           ((c1 !! k = Some a ∧ c2 !! k = Some b) ∨
            (c1 !! k = Some b ∧ c2 !! k = Some a)).

(** The number of tasks [prepare_problem_data] creates for an order: one
    per unit and per operation of its job. *)
Definition task_count (js : gmap string Job) (o : Order) : nat :=
  match js !! o_job_name o with
  | Some job => (Z.to_nat (quantity o) * length (operations job))%nat
  | None => 0%nat
  end.

(** What [prepare_problem_data] maintains for [all_operations]: every
    entry records its own index and stems from an order and an operation
    of that order's job. *)
Definition operations_inv (js : gmap string Job) (os : list Order)
    (st : list OpInfo * gmap nat (list Z)) : Prop :=
  ∀ k op, st.1 !! k = Some op →
    operation_id op = k ∧
    ∃ o job, o ∈ os ∧ js !! o_job_name o = Some job ∧
             order_id (op_task op) = o_order_id o ∧
             job_name (op_task op) = o_job_name o ∧
             (operation_idx (op_task op) < length (operations job))%nat.

(** The sample scheduler with its environment and its orders loaded,
    before [prepare_problem_data] runs. *)
Definition sample_loaded : Scheduler :=
  match load_user_orders sample_files with
  | Ok os =>
      set_orders
        (load_machine_environment init_scheduler (Raise ValueError) all_machine_ids) os
  | Raise _ => init_scheduler
  end.

(** ** The neighbourhood procedures of the search *)

(** [task.end_time >= makespan * ratio], where [makespan] is an [int] or
    [float('inf')] and [ratio] a literal such as [0.95]. *)
Definition finishes_late (ratio : Q) (makespan : Fitness) (t : ScheduledTask) : bool :=
  match makespan with
  | Fin m => Qle_bool (inject_Z m * ratio) (inject_Z (end_time t))
  | Inf => false
  end.

(** [for op_id, op_info in enumerate(self.all_operations)] with its
    [break]: the first index whose task has the identifier and the
    operation index of [t]. *)
Definition find_operation (ops : list OpInfo) (t : Task) : option nat :=
  fst <$> list_find (fun op => task_id (op_task op) = task_id t ∧
                               operation_idx (op_task op) = operation_idx t) ops.

(** The operations of the scheduled tasks that finish late, in schedule
    order; a task that matches no operation adds nothing. *)
Definition late_operations (s : Scheduler) (ratio : Q) (individual : Individual)
    : list nat :=
  omap (fun t => find_operation (all_operations s) (task t))
       (filter (fun t => finishes_late ratio (actual_makespan individual) t = true)
               (schedule individual)).

Definition _find_critical_operations (s : Scheduler) (individual : Individual)
    : list nat :=
  take 5 (late_operations s (95 # 100) individual).

Definition with_machine_assignment (individual : Individual) (ma : list Z) : Individual :=
  mkIndividual ma (operation_sequence individual) (fitness individual)
    (actual_makespan individual) (schedule individual).

Definition with_operation_sequence (individual : Individual) (seq : list Z)
    : Individual :=
  mkIndividual (machine_assignment individual) seq (fitness individual)
    (actual_makespan individual) (schedule individual).

(** [processing_times.get(machine_id, missing)] for the machine with index
    [machine_idx] and the operation [op_id]. *)
Definition machine_time (s : Scheduler) (op_id : Z) (missing : Z) (machine_idx : Z)
    : result Z :=
  machine_id ← py_index (machines s) machine_idx;
  op_info ← py_index (all_operations s) op_id;
  Ok (default missing (op_processing_times op_info !! machine_id)).

(** The loop [for machine_idx in available_machines] that keeps the first
    machine with the lowest processing time: [skip] tells the machines it
    passes over, and [min_time] starts at [float('inf')]. *)
Fixpoint best_machine_loop (s : Scheduler) (op_id : Z) (skip : Z → bool) (missing : Z)
    (available_machines : list Z) (best_machine : option Z) (min_time : Fitness)
    : result (option Z * Fitness) :=
  match available_machines with
  | [] => Ok (best_machine, min_time)
  | machine_idx :: rest =>
      if skip machine_idx
      then best_machine_loop s op_id skip missing rest best_machine min_time
      else
        proc_time ← machine_time s op_id missing machine_idx;
        if fit_ltb (Fin proc_time) min_time
        then best_machine_loop s op_id skip missing rest (Some machine_idx) (Fin proc_time)
        else best_machine_loop s op_id skip missing rest best_machine min_time
  end.

(** [for op_id in critical_ops[:3]] of
    [_critical_path_machine_reassignment_tabu]. *)
Fixpoint reassign_loop (s : Scheduler) (individual : Individual) (ops : list nat)
    : result (Individual * option string) :=
  match ops with
  | [] => Ok (individual, None)
  | op_id :: rest =>
      available_machines ← of_option KeyError (operation_to_machines s !! op_id);
      if bool_decide (1 < length available_machines)%nat then
        current_machine ← py_index (machine_assignment individual) (Z.of_nat op_id);
        '(best_machine, _) ←
          best_machine_loop s (Z.of_nat op_id)
            (fun machine_idx => bool_decide (machine_idx = current_machine)) 999
            available_machines None Inf;
        match best_machine with
        | Some best_machine =>
            machine_assignment ← py_setitem (machine_assignment individual) op_id
                                   best_machine;
            Ok (with_machine_assignment individual machine_assignment,
                Some ("reassign_op" +:+ pretty op_id +:+ "_from_m"
                      +:+ pretty current_machine +:+ "_to_m" +:+ pretty best_machine))
        | None => reassign_loop s individual rest
        end
      else reassign_loop s individual rest
  end.

(** Neighbourhood 1. The individual is changed in place by the last
    statement that can run, so an exception leaves it as it was. *)
Definition _critical_path_machine_reassignment_tabu (s : Scheduler)
    (individual : Individual) : result (Individual * option string) :=
  reassign_loop s individual (take 3 (_find_critical_operations s individual)).

(** [l.index(x)] *)
Fixpoint seq_index (x : Z) (l : list Z) : result nat :=
  match l with
  | [] => Raise ValueError
  | y :: l' => if bool_decide (x = y) then Ok 0%nat else i ← seq_index x l'; Ok (S i)
  end.

(** Neighbourhood 2; [draw] holds the two places of [late_operations] that
    [random.sample(late_operations, 2)] drew. *)
Definition _makespan_focused_operation_swap (s : Scheduler) (individual : Individual)
    (draw : nat * nat) : result (Individual * option string) :=
  let late_operations := late_operations s (85 # 100) individual in
  if bool_decide (2 <= length late_operations)%nat then
    op1 ← of_option IndexError (late_operations !! draw.1);
    op2 ← of_option IndexError (late_operations !! draw.2);
    pos1 ← seq_index (Z.of_nat op1) (operation_sequence individual);
    pos2 ← seq_index (Z.of_nat op2) (operation_sequence individual);
    if bool_decide (5 < Z.abs (Z.of_nat pos1 - Z.of_nat pos2)) then
      operation_sequence ← swap_positions (operation_sequence individual) pos1 pos2;
      Ok (with_operation_sequence individual operation_sequence,
          Some ("swap_ops_" +:+ pretty op1 +:+ "_" +:+ pretty op2))
    else Ok (individual, None)
  else Ok (individual, None).

(** A [dict] whose key order is used, as the list of its items in
    insertion order: [d[k] = f(d.get(k))]. *)
Fixpoint alist_update {V : Type} (k : string) (f : option V → V)
    (d : list (string * V)) : list (string * V) :=
  match d with
  | [] => [(k, f None)]
  | (k', v) :: d' =>
      if bool_decide (k = k') then (k', f (Some v)) :: d'
      else (k', v) :: alist_update k f d'
  end.

(** The loop that fills [machine_loads] and [machine_operations], kept
    together as one dictionary from a machine to its load and its
    operations. The three subscripts of the body raise the same exception,
    so their order does not show. *)
Definition load_step (s : Scheduler) (individual : Individual)
    (loads : list (string * (Z * list Z))) (op_id : Z)
    : result (list (string * (Z * list Z))) :=
  '(_, machine_id, proc_time) ← gene_lookup s individual op_id;
  Ok (alist_update machine_id
        (fun old => ((default (0, []) old).1 + proc_time,
                     (default (0, []) old).2 ++ [op_id]))
        loads).

(** [max(d, key=d.get)] and [min(d, key=d.get)] on a non-empty dictionary:
    the first key, in insertion order, with the highest (lowest) value. *)
Definition first_max (x : string * (Z * list Z)) (d : list (string * (Z * list Z)))
    : string * (Z * list Z) :=
  foldl (fun best y => if bool_decide (best.2.1 < y.2.1) then y else best) x d.

Definition first_min (x : string * (Z * list Z)) (d : list (string * (Z * list Z)))
    : string * (Z * list Z) :=
  foldl (fun best y => if bool_decide (y.2.1 < best.2.1) then y else best) x d.

(** [self.operation_to_machines[op_id]] for an [op_id] read from a
    chromosome. *)
Definition lookup_machines (s : Scheduler) (op_id : Z) : result (list Z) :=
  if bool_decide (0 <= op_id)
  then of_option KeyError (operation_to_machines s !! Z.to_nat op_id)
  else Raise KeyError.

(** [for idx, machine_id in enumerate(self.machines.keys())] with its
    [break]. *)
Fixpoint find_machine_index (min_machine : string) (available_machines : list Z)
    (idx : nat) (ms : list string) : option nat :=
  match ms with
  | [] => None
  | machine_id :: rest =>
      if bool_decide (machine_id = min_machine)
         && bool_decide (Z.of_nat idx ∈ available_machines)
      then Some idx
      else find_machine_index min_machine available_machines (S idx) rest
  end.

(** [for op_id in overloaded_ops] *)
Fixpoint balance_loop (s : Scheduler) (individual : Individual) (min_machine : string)
    (ops : list Z) : result (Individual * option string) :=
  match ops with
  | [] => Ok (individual, None)
  | op_id :: rest =>
      available_machines ← lookup_machines s op_id;
      match find_machine_index min_machine available_machines 0 (machines s) with
      | Some min_machine_idx =>
          old_machine ← py_index (machine_assignment individual) op_id;
          machine_assignment ← py_setitem (machine_assignment individual)
                                 (Z.to_nat op_id) (Z.of_nat min_machine_idx);
          Ok (with_machine_assignment individual machine_assignment,
              Some ("balance_op" +:+ pretty op_id +:+ "_from_m" +:+ pretty old_machine
                    +:+ "_to_m" +:+ pretty min_machine_idx))
      | None => balance_loop s individual min_machine rest
      end
  end.

(** Neighbourhood 3. *)
Definition _critical_load_balancing (s : Scheduler) (individual : Individual)
    : result (Individual * option string) :=
  machine_loads ← foldM (load_step s individual) [] (operation_sequence individual);
  match machine_loads with
  | [] => Ok (individual, None)
  | first :: others =>
      let max_machine := first_max first others in
      let min_machine := first_min first others in
      let load_difference := max_machine.2.1 - min_machine.2.1 in
      if negb (Qle_bool (inject_Z load_difference) (inject_Z max_machine.2.1 * (1 # 10)))
      then balance_loop s individual min_machine.1 max_machine.2.2
      else Ok (individual, None)
  end.

(** [for op_id in critical_ops[:2]] of [_advanced_sequence_optimization];
    [shift] is the value of [random.randint(2, min(8, current_pos))], drawn
    at most once because the move returns right after it. *)
Fixpoint reschedule_loop (individual : Individual) (ops : list nat) (shift : Z)
    : result (Individual * option string) :=
  match ops with
  | [] => Ok (individual, None)
  | op_id :: rest =>
      current_pos ← seq_index (Z.of_nat op_id) (operation_sequence individual);
      if bool_decide (3 < current_pos)%nat then
        let new_pos := Z.to_nat (Z.max 0 (Z.of_nat current_pos - shift)) in
        operation_sequence ← pop_insert (operation_sequence individual) current_pos new_pos;
        Ok (with_operation_sequence individual operation_sequence,
            Some ("reschedule_critical_op" +:+ pretty op_id +:+ "_from_"
                  +:+ pretty current_pos +:+ "_to_" +:+ pretty new_pos))
      else reschedule_loop individual rest shift
  end.

(** Neighbourhood 4. *)
Definition _advanced_sequence_optimization (s : Scheduler) (individual : Individual)
    (shift : Z) : result (Individual * option string) :=
  let critical_ops := _find_critical_operations s individual in
  if bool_decide (2 <= length critical_ops)%nat
  then reschedule_loop individual (take 2 critical_ops) shift
  else Ok (individual, None).

(** What the random draws of one pass of the search decide. *)
Record MoveDraws : Type := mkMoveDraws {
  swap_draw : nat * nat;
  shift_draw : Z
}.

(** The [if neighborhood == ...] chain of [variable_neighborhood_search],
    applied to the copy of the incumbent. *)
Definition apply_neighborhood (s : Scheduler) (d : MoveDraws) (neighborhood : nat)
    (current_individual : Individual) : result (Individual * option string) :=
  match neighborhood with
  | 1%nat => _critical_path_machine_reassignment_tabu s current_individual
  | 2%nat => _makespan_focused_operation_swap s current_individual (swap_draw d)
  | 3%nat => _critical_load_balancing s current_individual
  | 4%nat => _advanced_sequence_optimization s current_individual (shift_draw d)
  | _ => Ok (current_individual, None)
  end.

(** The state of the loop that looks for the fastest machine: nothing
    chosen yet, or a machine that is not passed over, with its time, which
    no machine seen so far undercuts. *)
Definition best_so_far (s : Scheduler) (op_id : Z) (skip : Z → bool) (missing : Z)
    (seen : list Z) (st : option Z * Fitness) : Prop :=
  match st with
  | (None, min_time) => min_time = Inf ∧ ∀ m, m ∈ seen → skip m = true
  | (Some b, min_time) =>
      ∃ t, min_time = Fin t ∧ b ∈ seen ∧ skip b = false ∧
           machine_time s op_id missing b = Ok t ∧
           ∀ m t', m ∈ seen → skip m = false →
                   machine_time s op_id missing m = Ok t' → t <= t'
  end.

(** What a move may change of a chromosome: the order of the sequence, and
    machine genes within the machines listed for their operation. *)
Definition move_keeps_valid (s : Scheduler) (before after : Individual) : Prop :=
  operation_sequence after ≡ₚ operation_sequence before ∧
  length (machine_assignment after) = length (machine_assignment before) ∧
  (machines_eligible s (machine_assignment before) →
   machines_eligible s (machine_assignment after)) ∧
  fitness after = fitness before ∧
  actual_makespan after = actual_makespan before ∧
  schedule after = schedule before.

(** One order of two shirts, the two units on disjoint machines so that
    they run side by side and end within 5% of each other. *)
Definition two_units_files : result (list OrderFile) :=
  Ok [mkOrderFile "bob_20240102.json" [mkOrderData "Shirt" 2]].

Definition two_units : Scheduler :=
  match build_problem_model init_scheduler (Raise ValueError) all_machine_ids
          two_units_files with
  | Ok s => s
  | Raise _ => init_scheduler
  end.

Definition parallel_individual : Individual :=
  new_individual [2; 4; 6; 10; 14; 15; 0; 5; 7; 8; 11; 16]
    [0; 1; 2; 3; 4; 5; 6; 7; 8; 9; 10; 11].

Definition parallel_evaluated : Individual :=
  eval_individual (evaluate_individual two_units parallel_individual).

(** ** Seeding the population: opposition and greedy individuals *)

(** The body of [for op_id in range(num_operations)] in
    [create_opposition_individual]; [choice op_id] is what
    [random.choice(available_list)] returns when the bare [except] is
    reached. *)
Definition opposition_machine (s : Scheduler) (base_individual : Individual)
    (choice : nat → Z) (op_id : nat) : result Z :=
  available_machines ← of_option KeyError (operation_to_machines s !! op_id);
  base_machine ← py_index (machine_assignment base_individual) (Z.of_nat op_id);
  if bool_decide (1 < length available_machines)%nat then
    try_except
      (base_idx ← seq_index base_machine available_machines;
       py_index available_machines
         (Z.of_nat (length available_machines) - 1 - Z.of_nat base_idx))
      (fun _ => Ok (choice op_id))
  else py_index available_machines 0.

Definition create_opposition_individual (s : Scheduler) (base_individual : Individual)
    (choice : nat → Z) : result Individual :=
  opposition_machines ←
    mapM (opposition_machine s base_individual choice)
         (seq 0 (length (all_operations s)));
  Ok (new_individual opposition_machines (reverse (operation_sequence base_individual))).

(** A prepared problem as the seeding procedures need it: every operation
    has an entry in [operation_to_machines]. *)
Definition machines_listed (s : Scheduler) : Prop :=
  ∀ k, (k < length (all_operations s))%nat → is_Some (operation_to_machines s !! k).

(** The machine part of [create_greedy_individual]: the first listed
    machine with the lowest processing time, 999 standing for a missing
    one; [available_machines[0]] raises when nothing is listed. *)
Definition greedy_machine (s : Scheduler) (op_id : nat) : result Z :=
  available_machines ← of_option KeyError (operation_to_machines s !! op_id);
  op_info ← py_index (all_operations s) (Z.of_nat op_id);
  first_machine ← py_index available_machines 0;
  '(best_machine, _) ←
    best_machine_loop s (Z.of_nat op_id) (fun _ => false) 999 available_machines
      (Some first_machine) Inf;
  Ok (default first_machine best_machine).

(** [f"{task.order_id}_{task.task_id.split('_unit')[1].split('_')[0]}"],
    the unit key of the seeding procedures. *)
Definition seed_unit_key (t : Task) : result string :=
  piece ← py_index (split "_unit" (task_id t)) 1;
  unit ← py_index (split "_" piece) 0;
  Ok (order_id t +:+ "_" +:+ unit).

(** [for op_id in remaining_ops] of the sequence loop: the operations
    whose index within their unit is the unit's progress.
    [job_progress] is a [defaultdict(int)] that is only read by key. *)
Fixpoint collect_candidates (s : Scheduler) (job_progress : gmap string nat)
    (ops : list nat) : result (list nat) :=
  match ops with
  | [] => Ok []
  | op_id :: rest =>
      op_info ← py_index (all_operations s) (Z.of_nat op_id);
      unit_key ← seed_unit_key (op_task op_info);
      let expected_op_idx := default 0%nat (job_progress !! unit_key) in
      candidates ← collect_candidates s job_progress rest;
      Ok (if bool_decide (operation_idx (op_task op_info) = expected_op_idx)
          then op_id :: candidates else candidates)
  end.

(** [min(d.values()) if d else 999] *)
Definition min_value (d : gmap string Z) : Z :=
  match (map_to_list d).*2 with
  | [] => 999
  | t :: ts => foldr Z.min t ts
  end.

(** The key of [min(candidates, key=...)]; every candidate was read from
    [all_operations] when it was collected. *)
Definition candidate_key (s : Scheduler) (op_id : nat) : Z :=
  match all_operations s !! op_id with
  | Some op_info => min_value (op_processing_times op_info)
  | None => 999
  end.

(** [while remaining_ops]. [order] gives the order in which a set of
    operation indices is iterated. The loop removes one operation per
    pass, so [fuel = num_operations] passes are enough; the result holds
    the sequence and the operations left when the loop is left. *)
Fixpoint greedy_sequence_loop (fuel : nat) (s : Scheduler) (order : gset nat → list nat)
    (remaining_ops : gset nat) (job_progress : gmap string nat)
    (operation_sequence : list Z) : result (list Z * gset nat) :=
  match fuel with
  | O => Ok (operation_sequence, remaining_ops)
  | S fuel' =>
      if bool_decide (remaining_ops = ∅) then Ok (operation_sequence, remaining_ops)
      else
        candidates ← collect_candidates s job_progress (order remaining_ops);
        chosen ← match candidates with
                 | [] => of_option IndexError (order remaining_ops !! 0%nat)
                 | _ :: _ => py_min_by Z.ltb (candidate_key s) candidates
                 end;
        op_info ← py_index (all_operations s) (Z.of_nat chosen);
        unit_key ← seed_unit_key (op_task op_info);
        greedy_sequence_loop fuel' s order (remaining_ops ∖ {[chosen]})
          (<[unit_key := S (default 0%nat (job_progress !! unit_key))]> job_progress)
          (operation_sequence ++ [Z.of_nat chosen])
  end.

Definition create_greedy_individual (s : Scheduler) (order : gset nat → list nat)
    : result Individual :=
  let num_operations := length (all_operations s) in
  machine_assignment ← mapM (greedy_machine s) (seq 0 num_operations);
  '(operation_sequence, _) ←
    greedy_sequence_loop num_operations s order (set_seq 0 num_operations) ∅ [];
  Ok (new_individual machine_assignment operation_sequence).

(** An iteration order of sets: it visits the elements of the set. *)
Definition iterates_elements (order : gset nat → list nat) : Prop :=
  ∀ (X : gset nat) x, x ∈ order X ↔ x ∈ X.

(** Every operation lists at least one machine, all of them indices of
    [self.machines]. *)
Definition machines_usable (s : Scheduler) : Prop :=
  ∀ k, (k < length (all_operations s))%nat →
    ∃ idxs, operation_to_machines s !! k = Some idxs ∧ idxs ≠ [] ∧
            Forall (fun m => 0 <= m < Z.of_nat (length (machines s))) idxs.

(** The problem built from a capability file that gives a duration for
    the first operation of the first job only: the other operations of the
    order list no machine. *)
Definition starved : Scheduler :=
  match build_problem_model init_scheduler missing_duration_file all_machine_ids
          unknown_product_files with
  | Ok s => s
  | Raise _ => init_scheduler
  end.

(** ** The order report of [get_schedule_data]

    The parts of the returned dictionary that [ScheduleData] leaves out:
    [order_completion_times] and [completion_stats]. *)

Definition is_upper (c : ascii) : bool :=
  bool_decide (65 <= nat_of_ascii c)%nat && bool_decide (nat_of_ascii c <= 90)%nat.

Definition is_lower (c : ascii) : bool :=
  bool_decide (97 <= nat_of_ascii c)%nat && bool_decide (nat_of_ascii c <= 122)%nat.

Definition upper_ascii (c : ascii) : ascii :=
  if is_lower c then ascii_of_nat (nat_of_ascii c - 32) else c.

(** [s.title()] on ASCII text: a letter that follows a letter is put in
    lower case, any other letter in upper case. *)
Fixpoint title_aux (previous_is_cased : bool) (s : string) : string :=
  match s with
  | EmptyString => EmptyString
  | String c s' =>
      String (if previous_is_cased then lower_ascii c else upper_ascii c)
             (title_aux (is_upper c || is_lower c) s')
  end.

Definition title (s : string) : string := title_aux false s.

(** The loop that fills the dictionary [order_completion_times]. *)
Definition order_completion_times (sched : list ScheduledTask) : gmap string Z :=
  foldl (fun acc t =>
           <[order_id (task t) :=
               Z.max (default 0 (acc !! order_id (task t))) (end_time t)]> acc)
        ∅ sched.

(** An entry of [schedule_data['order_completion_times']]. *)
Record OrderInfo : Type := mkOrderInfo {
  oi_user : string;
  oi_product : string;
  oi_quantity : Z;
  oi_completion_time : Z;
  oi_order_id : string;
  oi_job_name : string
}.

Definition order_info (completion : gmap string Z) (o : Order) : result OrderInfo :=
  product_name ← py_index (split "_" (o_order_id o)) (-1);
  Ok (mkOrderInfo (title (user o)) (title product_name) (quantity o)
        (default 0 (completion !! o_order_id o)) (o_order_id o) (o_job_name o)).

(** [order_completion_list.sort(key=lambda x: x['completion_time'])]: a
    stable sort. *)
Fixpoint insert_by_completion (x : OrderInfo) (l : list OrderInfo) : list OrderInfo :=
  match l with
  | [] => [x]
  | y :: l' =>
      if bool_decide (oi_completion_time x <= oi_completion_time y) then x :: y :: l'
      else y :: insert_by_completion x l'
  end.

Definition sort_by_completion (l : list OrderInfo) : list OrderInfo :=
  foldr insert_by_completion [] l.

Definition order_completion_list (s : Scheduler) (best_individual : Individual)
    : result (list OrderInfo) :=
  infos ← mapM (order_info (order_completion_times (schedule best_individual)))
               (orders s);
  Ok (sort_by_completion infos).

(** [schedule_data['completion_stats']]; [average] is a [float]. *)
Record CompletionStats : Type := mkCompletionStats {
  fastest : Z;
  slowest : Z;
  average : Q;
  median : Z;
  total_orders : nat
}.

Definition completion_stats (order_completion_list : list OrderInfo)
    : result CompletionStats :=
  match oi_completion_time <$> order_completion_list with
  | [] => Ok (mkCompletionStats 0 0 0 0 0)
  | t :: ts =>
      let completion_times := t :: ts in
      median ← py_index (merge_sort Z.le completion_times)
                 (Z.of_nat (length completion_times) `div` 2);
      Ok (mkCompletionStats (foldr Z.min t ts) (foldr Z.max t ts)
            (inject_Z (foldr Z.add 0 completion_times)
             / inject_Z (Z.of_nat (length completion_times)))
            median (length completion_times))
  end.

(** The completion time reported for an order: the latest end among its
    tasks, and 0 when it has none or when they all end before 0. *)
Definition latest_end (sched : list ScheduledTask) (oid : string) (c : Z) : Prop :=
  0 <= c ∧
  (∀ t, t ∈ sched → order_id (task t) = oid → end_time t <= c) ∧
  (c = 0 ∨ ∃ t, t ∈ sched ∧ order_id (task t) = oid ∧ end_time t = c).

(** ** The greedy scheduler [FJSPScheduler] of [fjsp_scheduler.py] *)

(** The body of [for machine_id in available_machines] in
    [get_best_machine_for_task]; the state is
    [(best_machine, best_completion_time, best_processing_time)]. *)
Definition best_completion_step (machines : gmap string MachineState)
    (processing_times : gmap string Z) (best : option string * Fitness * Z)
    (machine_id : string) : option string * Fitness * Z :=
  match processing_times !! machine_id, machines !! machine_id with
  | Some processing_time, Some machine =>
      let completion_time := available_time machine + processing_time in
      if fit_ltb (Fin completion_time) best.1.2
      then (Some machine_id, Fin completion_time, processing_time)
      else best
  | _, _ => best
  end.

Definition get_best_machine_for_task (machines : gmap string MachineState)
    (operation : Operation) : option string * Z :=
  let best := foldl (best_completion_step machines (processing_times operation))
                (None, Inf, 0) (op_def_machines operation) in
  (best.1.1, best.2).

(** The tasks [schedule_orders] creates for one unit of an order, each
    with the entry it adds to [task_predecessors]. *)
Definition unit_tasks (o : Order) (job : Job) (unit : nat)
    : list (Task * option string) :=
  (fun op_idx =>
     (mkTask (o_order_id o) (o_job_name o) op_idx
        (o_order_id o +:+ "_unit" +:+ pretty unit +:+ "_op" +:+ pretty op_idx),
      if bool_decide (0 < op_idx)%nat
      then Some (o_order_id o +:+ "_unit" +:+ pretty unit +:+ "_op"
                 +:+ pretty (op_idx - 1)%nat)
      else None))
  <$> seq 0 (length (operations job)).

Definition order_tasks (js : gmap string Job) (o : Order)
    : result (list (Task * option string)) :=
  job ← of_option KeyError (js !! o_job_name o);
  Ok (concat (unit_tasks o job <$> seq 0 (Z.to_nat (quantity o)))).

Definition create_tasks (js : gmap string Job) (os : list Order)
    : result (list (Task * option string)) :=
  per_order ← mapM (order_tasks js) os;
  Ok (concat per_order).

(** [task_predecessors]: a later entry for the same identifier replaces an
    earlier one. *)
Definition predecessors_of (created : list (Task * option string)) : gmap string string :=
  foldl (fun acc c =>
           match c.2 with
           | Some predecessor_task_id => <[task_id c.1 := predecessor_task_id]> acc
           | None => acc
           end)
        ∅ created.

(** The priority queue [ready_tasks] of [(priority, counter, task)]
    triples. [heapq] pops the least triple; the counter makes the first
    two components of any two triples differ, so the queue is kept as the
    list of its triples in ascending order of [(priority, counter)]. *)
Definition heap_le (a b : Z * nat * Task) : bool :=
  bool_decide (a.1.1 < b.1.1)
  || (bool_decide (a.1.1 = b.1.1) && bool_decide (a.1.2 <= b.1.2)%nat).

Fixpoint heappush (h : list (Z * nat * Task)) (x : Z * nat * Task)
    : list (Z * nat * Task) :=
  match h with
  | [] => [x]
  | y :: h' => if heap_le x y then x :: y :: h' else y :: heappush h' x
  end.

(** The local variables of [schedule_orders] and the two attributes it
    changes. *)
Record GreedyState : Type := mkGreedyState {
  g_machines : gmap string MachineState;
  g_scheduled_tasks : list ScheduledTask;
  ready_tasks : list (Z * nat * Task);
  scheduled_task_ids : gset string;
  task_completion_times : gmap string Z;
  task_counter : nat
}.

(** [for task in all_tasks: if task.operation_idx == 0: heappush(...)] *)
Definition initial_ready (all_tasks : list Task) : list (Z * nat * Task) * nat :=
  foldl (fun acc task =>
           if bool_decide (operation_idx task = 0%nat)
           then (heappush acc.1 (0, acc.2, task), S acc.2)
           else acc)
        ([], 0%nat) all_tasks.

(** The body of [while ready_tasks] once [current_task] is popped. *)
Definition schedule_step (js : gmap string Job) (all_tasks : list Task)
    (task_predecessors : gmap string string) (st : GreedyState) (current_task : Task)
    : result GreedyState :=
  if bool_decide (task_id current_task ∈ scheduled_task_ids st) then Ok st else
  job ← of_option KeyError (js !! job_name current_task);
  operation ← of_option IndexError (operations job !! operation_idx current_task);
  match get_best_machine_for_task (g_machines st) operation with
  | (None, _) => Ok st
  | (Some best_machine_id, processing_time) =>
      machine ← of_option KeyError (g_machines st !! best_machine_id);
      let start_time := available_time machine in
      let start_time :=
        match task_predecessors !! task_id current_task with
        | Some predecessor_id =>
            match task_completion_times st !! predecessor_id with
            | Some completion => Z.max start_time completion
            | None => start_time
            end
        | None => start_time
        end in
      let '(machine, scheduled_task) :=
        schedule_task machine current_task processing_time (Some start_time) in
      let st :=
        mkGreedyState (<[best_machine_id := machine]> (g_machines st))
          (g_scheduled_tasks st ++ [scheduled_task]) (ready_tasks st)
          ({[task_id current_task]} ∪ scheduled_task_ids st)
          (<[task_id current_task := end_time scheduled_task]> (task_completion_times st))
          (task_counter st) in
      if bool_decide (Z.of_nat (operation_idx current_task)
                      < Z.of_nat (length (operations job)) - 1) then
        let next_task_id :=
          replace (task_id current_task)
            ("_op" +:+ pretty (operation_idx current_task))
            ("_op" +:+ pretty (operation_idx current_task + 1)%nat) in
        match list_find (fun task => task_id task = next_task_id) all_tasks with
        | Some (_, task) =>
            Ok (mkGreedyState (g_machines st) (g_scheduled_tasks st)
                  (heappush (ready_tasks st) (end_time scheduled_task, task_counter st, task))
                  (scheduled_task_ids st) (task_completion_times st)
                  (S (task_counter st)))
        | None => Ok st
        end
      else Ok st
  end.

(** [while ready_tasks]: every pass pops one triple. *)
Fixpoint schedule_loop (fuel : nat) (js : gmap string Job) (all_tasks : list Task)
    (task_predecessors : gmap string string) (st : GreedyState) : result GreedyState :=
  match fuel with
  | O => Ok st
  | S fuel' =>
      match ready_tasks st with
      | [] => Ok st
      | (_, _, current_task) :: rest =>
          st ← schedule_step js all_tasks task_predecessors
                 (mkGreedyState (g_machines st) (g_scheduled_tasks st) rest
                    (scheduled_task_ids st) (task_completion_times st) (task_counter st))
                 current_task;
          schedule_loop fuel' js all_tasks task_predecessors st
      end
  end.

(** [schedule_orders] on a scheduler whose [scheduled_tasks] are still
    empty. A pass of the loop pushes at most one triple, and only when it
    schedules a task whose identifier was not scheduled before, so twice
    the number of tasks bounds the number of passes. *)
Definition schedule_orders (js : gmap string Job) (os : list Order)
    (machines : gmap string MachineState) : result GreedyState :=
  created ← create_tasks js os;
  let all_tasks := created.*1 in
  let '(ready, counter) := initial_ready all_tasks in
  schedule_loop (2 * length all_tasks) js all_tasks (predecessors_of created)
    (mkGreedyState machines [] ready ∅ ∅ counter).

(** What the loop of [schedule_orders] maintains. Every machine record
    sits under its own identifier; every scheduled task is one of the
    created tasks, on a machine that its operation lists with the duration
    the task got, and it ends no later than its machine is available; tasks
    on one machine follow each other; no task identifier is scheduled
    twice; and the waiting tasks are created tasks. *)
Definition greedy_inv (js : gmap string Job) (all_tasks : list Task) (st : GreedyState)
    : Prop :=
  (∀ m ms, g_machines st !! m = Some ms → ms_machine_id ms = m) ∧
  (∀ t, t ∈ g_scheduled_tasks st →
     task t ∈ all_tasks ∧ task_id (task t) ∈ scheduled_task_ids st ∧
     end_time t = start_time t + processing_time t ∧
     (∃ ms, g_machines st !! machine_id t = Some ms ∧ end_time t <= available_time ms) ∧
     ∃ job operation,
       js !! job_name (task t) = Some job ∧
       operations job !! operation_idx (task t) = Some operation ∧
       machine_id t ∈ op_def_machines operation ∧
       processing_times operation !! machine_id t = Some (processing_time t)) ∧
  ordered_exclusive (g_scheduled_tasks st) ∧
  NoDup (task_id ∘ task <$> g_scheduled_tasks st) ∧
  (∀ x, x ∈ scheduled_task_ids st → x ∈ task_id <$> all_tasks) ∧
  (∀ x, x ∈ ready_tasks st → x.2 ∈ all_tasks).

(** Every duration of every job is non-negative. *)
Definition nonneg_durations (js : gmap string Job) : Prop :=
  ∀ j job operation m p,
    js !! j = Some job → operation ∈ operations job →
    processing_times operation !! m = Some p → 0 <= p.

(** The state of the loop of [get_best_machine_for_task] after the
    machines [seen]: nothing chosen because none of them has both a
    duration and a record, or the first of them with the earliest
    completion. *)
Definition earliest_so_far (machines : gmap string MachineState)
    (times : gmap string Z) (seen : list string) (best : option string * Fitness * Z)
    : Prop :=
  match best.1.1 with
  | None =>
      best.1.2 = Inf ∧ best.2 = 0 ∧
      ∀ m, m ∈ seen → times !! m = None ∨ machines !! m = None
  | Some b =>
      b ∈ seen ∧ times !! b = Some best.2 ∧
      ∃ ms, machines !! b = Some ms ∧
            best.1.2 = Fin (available_time ms + best.2) ∧
            ∀ m p ms', m ∈ seen → times !! m = Some p → machines !! m = Some ms' →
                       available_time ms + best.2 <= available_time ms' + p
  end.

(** The number of passes the loop of [schedule_orders] can still make:
    the triples that wait, and the task identifiers not yet scheduled. *)
Definition passes_left (all_tasks : list Task) (st : GreedyState) : nat :=
  (length (ready_tasks st)
   + size ((list_to_set (task_id <$> all_tasks) : gset string) ∖ scheduled_task_ids st))%nat.

(** What the loop of [schedule_orders] maintains for precedence: the
    identifier of every scheduled task is in [scheduled_task_ids] and its
    end is its entry in [task_completion_times]; and a task starts no
    earlier than the end of the task scheduled before it that
    [task_predecessors] names as its predecessor. *)
Definition recorded_precedence (preds : gmap string string)
    (sched : list ScheduledTask) : Prop :=
  ∀ i j a b, (i < j)%nat → sched !! i = Some a → sched !! j = Some b →
    preds !! task_id (task b) = Some (task_id (task a)) →
    end_time a <= start_time b.

Definition precedence_recorded_inv (preds : gmap string string) (st : GreedyState)
    : Prop :=
  (∀ t, t ∈ g_scheduled_tasks st →
     task_id (task t) ∈ scheduled_task_ids st ∧
     task_completion_times st !! task_id (task t) = Some (end_time t)) ∧
  recorded_precedence preds (g_scheduled_tasks st).

(** The greedy schedule of the sample order. *)
Definition sample_greedy : GreedyState :=
  match schedule_orders (jobs sample) (orders sample)
          (reset_machine_states (machines sample)) with
  | Ok st => st
  | Raise _ => mkGreedyState ∅ [] [] ∅ ∅ 0
  end.

(** The parameters that [_adjust_parameters_dynamically] rewrites. *)
Record Rates : Type := mkRates {
  crossover_rate : Q;
  mutation_rate : Q;
  vns_iterations : Z
}.

(** [min(a, b)] and [max(a, b)] of Python: the first argument unless the
    second is smaller (larger). *)
Definition py_min (a b : Q) : Q := if negb (Qle_bool a b) then b else a.
Definition py_max (a b : Q) : Q := if negb (Qle_bool b a) then b else a.

(** [abs(last - fifth) / fifth if fifth > 0 else 0]. [None] stands for the
    two floats that are below no number, [inf] (an infinite [last] over a
    finite [fifth]) and [nan] (an infinite [fifth]). *)
Definition recent_improvement (last fifth : Fitness) : option Q :=
  match fifth, last with
  | Fin b, Fin a =>
      if bool_decide (0 < b) then Some (inject_Z (Z.abs (a - b)) / inject_Z b)%Q
      else Some 0%Q
  | Fin b, Inf => if bool_decide (0 < b) then None else Some 0%Q
  | Inf, _ => None
  end.

(** [_adjust_parameters_dynamically]: the parameters it leaves behind and
    the exception it raises, if any. The division by [self.generations]
    comes after the first two assignments, so these stay done when it
    raises. *)
Definition _adjust_parameters_dynamically (s : Scheduler) (r : Rates)
    (generation : nat) (fitness_history : list Fitness) : Rates * option exn :=
  if bool_decide (length fitness_history < 5)%nat then (r, None) else
  match py_index fitness_history (-1), py_index fitness_history (-5) with
  | Ok last, Ok fifth =>
      let stagnating :=
        match recent_improvement last fifth with
        | Some q => negb (Qle_bool (1 # 100) q)
        | None => false
        end in
      let r1 :=
        if stagnating
        then mkRates (crossover_rate r)
               (py_min (25 # 100) (mutation_rate r * (11 # 10)))
               (Z.min 12 (vns_iterations r + 1))
        else mkRates (crossover_rate r)
               (py_max (5 # 100) (mutation_rate r * (95 # 100)))
               (Z.max 3 (vns_iterations r - 1)) in
      match py_div (inject_Z (Z.of_nat generation)) (generations s) with
      | Ok generation_ratio =>
          if negb (Qle_bool generation_ratio (7 # 10))
          then (mkRates (py_min (95 # 100) (crossover_rate r1 * (105 # 100)))
                  (mutation_rate r1) (vns_iterations r1), None)
          else (r1, None)
      | Raise e => (r1, Some e)
      end
  | Raise e, _ | _, Raise e => (r, Some e)
  end.

(** The ranges the adjustment works within. *)
Definition rates_in_range (r : Rates) : Prop :=
  (0 <= crossover_rate r)%Q ∧ (crossover_rate r <= 95 # 100)%Q ∧
  (5 # 100 <= mutation_rate r)%Q ∧ (mutation_rate r <= 25 # 100)%Q ∧
  3 <= vns_iterations r <= 12.

(** The parameters the constructor sets. *)
Definition initial_rates : Rates := mkRates (88 # 100) (8 # 100) 8.

(** * Properties *)

(** ** The exception monad *)

Lemma bind_Ok {A B : Type} (r : result A) (f : A → result B) (b : B) :
  r ≫= f = Ok b ↔ ∃ a, r = Ok a ∧ f a = Ok b.
Proof.
  destruct r as [a|e]; simpl; split.
  - intros H. exists a. auto.
  - intros (a' & Ha & Hf). injection Ha as ->. exact Hf.
  - discriminate.
  - intros (a' & Ha & _). discriminate.
Qed.

Lemma bind_Raise {A B : Type} (r : result A) (f : A → result B) (e : exn) :
  r ≫= f = Raise e ↔ r = Raise e ∨ ∃ a, r = Ok a ∧ f a = Raise e.
Proof.
  destruct r as [a|e']; simpl; split.
  - intros H. right. exists a. auto.
  - intros [H|(a' & Ha & Hf)]; [discriminate|]. injection Ha as ->. exact Hf.
  - intros H. left. congruence.
  - intros [H|(a' & Ha & _)]; [congruence|discriminate].
Qed.

Lemma of_option_Ok {A : Type} (e : exn) (o : option A) (a : A) :
  of_option e o = Ok a ↔ o = Some a.
Proof. destruct o; simpl; split; congruence. Qed.

Lemma is_ok_true {A : Type} (r : result A) : is_ok r = true ↔ ∃ a, r = Ok a.
Proof.
  destruct r; simpl; split; eauto; try discriminate.
  intros [a H]. discriminate.
Qed.

(** Splits a hypothesis [x ← e; k = Ok v] into its two steps. *)
Ltac inv_bind H :=
  let a := fresh "a" in
  let Ha := fresh "Ha" in
  apply bind_Ok in H; destruct H as (a & Ha & H).

Lemma py_index_nat {A : Type} (l : list A) (i : nat) :
  py_index l (Z.of_nat i) = of_option IndexError (l !! i).
Proof.
  unfold py_index. rewrite bool_decide_eq_true_2 by lia. by rewrite Nat2Z.id.
Qed.

Lemma py_index_elem_of {A : Type} (l : list A) (i : Z) (x : A) :
  py_index l i = Ok x → x ∈ l.
Proof.
  unfold py_index. repeat case_bool_decide; try discriminate;
    rewrite of_option_Ok; apply list_elem_of_lookup_2.
Qed.

Lemma py_index_in_range {A : Type} (l : list A) (i : Z) :
  0 <= i < Z.of_nat (length l) → ∃ x, py_index l i = Ok x ∧ l !! Z.to_nat i = Some x.
Proof.
  intros Hi. unfold py_index. rewrite bool_decide_eq_true_2 by lia.
  destruct (lookup_lt_is_Some_2 l (Z.to_nat i)) as [x Hx]; [lia|].
  exists x. by rewrite Hx.
Qed.

(** ** The decoder refines the specification's decoder *)

Lemma reset_machine_states_lookup (ms : list string) (m : string) :
  reset_machine_states ms !! m
  = if bool_decide (m ∈ ms) then Some (new_machine_state m) else None.
Proof.
  unfold reset_machine_states.
  assert (∀ acc : gmap string MachineState,
            foldl (fun acc m => <[m := new_machine_state m]> acc) acc ms !! m
            = if bool_decide (m ∈ ms) then Some (new_machine_state m) else acc !! m) as H.
  { induction ms as [|x ms IH]; intros acc; cbn [foldl].
    - by rewrite bool_decide_eq_false_2 by apply not_elem_of_nil.
    - rewrite IH. destruct (decide (m ∈ ms)) as [Hin|Hnin].
      + rewrite !bool_decide_eq_true_2; auto. by right.
      + rewrite (bool_decide_eq_false_2 (m ∈ ms)) by done.
        destruct (decide (m = x)) as [->|Hne].
        * rewrite bool_decide_eq_true_2 by left. by rewrite lookup_insert_eq.
        * rewrite bool_decide_eq_false_2.
          -- by rewrite lookup_insert_ne.
          -- rewrite elem_of_cons. intros [?|?]; done. }
  rewrite H. case_bool_decide; [done|apply lookup_empty].
Qed.

Lemma sim_init (s : Scheduler) : sim s (decode_init s) spec_init.
Proof.
  split; [done|]. split.
  - intros m Hm. exists (new_machine_state m). simpl.
    rewrite reset_machine_states_lookup.
    rewrite bool_decide_eq_true_2 by done.
    by rewrite lookup_empty.
  - intros k i. simpl. by rewrite !lookup_empty.
Qed.

Lemma gene_lookup_Ok (s : Scheduler) (ind : Individual) (op_id : Z)
    (op : OpInfo) (m : string) (p : Z) :
  gene_lookup s ind op_id = Ok (op, m, p) →
  op ∈ all_operations s ∧ m ∈ machines s ∧
  p = default 10 (op_processing_times op !! m).
Proof.
  unfold gene_lookup. intros H.
  inv_bind H. inv_bind H. inv_bind H. injection H as -> -> <-.
  eauto using py_index_elem_of.
Qed.

Lemma juc_read_value (juc : gmap string (gmap nat Z)) (k : string) (i : nat) :
  (juc_read juc k i).1 = default 0 (default ∅ (juc !! k) !! i).
Proof. done. Qed.

Lemma juc_read_lookup (juc : gmap string (gmap nat Z)) (k k' : string) (i i' : nat) :
  default 0 (default ∅ ((juc_read juc k i).2 !! k') !! i')
  = default 0 (default ∅ (juc !! k') !! i').
Proof.
  unfold juc_read. simpl. destruct (decide (k = k')) as [->|Hk].
  - rewrite lookup_insert_eq. simpl. destruct (decide (i = i')) as [->|Hi].
    + by rewrite lookup_insert_eq.
    + by rewrite lookup_insert_ne.
  - by rewrite lookup_insert_ne.
Qed.

Lemma juc_write_lookup (juc : gmap string (gmap nat Z)) (k k' : string)
    (i i' : nat) (v : Z) :
  default 0 (default ∅ (juc_write juc k i v !! k') !! i')
  = if bool_decide ((k, i) = (k', i')) then v
    else default 0 (default ∅ (juc !! k') !! i').
Proof.
  unfold juc_write. destruct (decide (k = k')) as [->|Hk].
  - rewrite lookup_insert_eq. simpl. destruct (decide (i = i')) as [->|Hi].
    + by rewrite lookup_insert_eq, bool_decide_eq_true_2.
    + rewrite lookup_insert_ne by done. by rewrite bool_decide_eq_false_2 by congruence.
  - rewrite lookup_insert_ne by done. by rewrite bool_decide_eq_false_2 by congruence.
Qed.

(** Recording one task keeps the two states in correspondence, whenever
    the start the code computed is the start the specification asks for. *)
Lemma sim_record (s : Scheduler) (st : DecodeState) (sp : SpecState)
    (op : OpInfo) (m u : string) (p : Z) (ms : MachineState)
    (start : Z) (juc : gmap string (gmap nat Z)) :
  sim s st sp →
  machine_states st !! m = Some ms → ms_machine_id ms = m →
  available_time ms = default 0 (cursor sp !! m) →
  start = spec_start (default 0 (cursor sp !! m))
            (spec_predecessor_completion sp u (operation_idx (op_task op))) →
  (∀ k i, default 0 (default ∅ (juc !! k) !! i) = default 0 (completion sp !! (k, i))) →
  sim s
    (mkDecodeState
       (<[m := (schedule_task ms (op_task op) p (Some start)).1]> (machine_states st))
       (scheduled st ++ [(schedule_task ms (op_task op) p (Some start)).2])
       (juc_write juc u (operation_idx (op_task op))
          (end_time (schedule_task ms (op_task op) p (Some start)).2)))
    (mkSpecState
       (<[m := start + p]> (cursor sp))
       (<[(u, operation_idx (op_task op)) := start + p]> (completion sp))
       (spec_tasks sp ++ [mkScheduledTask (op_task op) m start (start + p) p])).
Proof.
  intros (Hsched & Hms & Hjuc) Hlk Hid Hav Hstart Hjuc'.
  assert (Z.max start (available_time ms) = start) as Hmax.
  { rewrite Hstart, Hav. unfold spec_start.
    destruct (spec_predecessor_completion sp u _); lia. }
  split; [|split]; simpl.
  - by rewrite Hsched, Hmax, Hid.
  - intros m' Hm'. destruct (decide (m = m')) as [<-|Hne].
    + eexists. rewrite lookup_insert_eq. split; [done|]. simpl.
      rewrite lookup_insert_eq. simpl. by rewrite Hmax.
    + rewrite !lookup_insert_ne by done. auto.
  - intros k i. rewrite juc_write_lookup, Hmax.
    case_bool_decide as Hk.
    + injection Hk as <- <-. by rewrite lookup_insert_eq.
    + rewrite lookup_insert_ne by done. apply Hjuc'.
Qed.

Lemma sim_step (s : Scheduler) (ind : Individual) (st : DecodeState)
    (sp : SpecState) (op_id : Z) :
  sim s st sp → agree (sim s) (decode_step s ind st op_id) (spec_step s ind sp op_id).
Proof.
  intros Hsim. pose proof Hsim as (Hsched & Hms & Hjuc).
  unfold decode_step, spec_step.
  destruct (gene_lookup s ind op_id) as [[[op m] p]|e] eqn:Hg; [|done].
  apply gene_lookup_Ok in Hg as (_ & Hm & _).
  destruct (Hms m Hm) as (ms & Hlk & Hid & Hav).
  cbn -[juc_read juc_write schedule_task]. rewrite Hlk.
  cbn -[juc_read juc_write schedule_task].
  destruct (unit_key (op_task op)) as [u|e] eqn:Hu.
  2: { case_bool_decide; cbn; done. }
  case_bool_decide as Hidx; cbn -[juc_read juc_write schedule_task].
  - destruct (operation_idx (op_task op)) as [|j] eqn:Hj; [lia|].
    replace (S j - 1)%nat with j by lia.
    pose proof (juc_read_value (job_unit_completion st) u j) as Hv.
    pose proof (fun k i => juc_read_lookup (job_unit_completion st) u k j i) as Hl.
    destruct (juc_read (job_unit_completion st) u j) as [prev juc].
    simpl in Hv, Hl.
    pose proof (sim_record s st sp op m u p ms (Z.max (available_time ms) prev) juc
                  Hsim Hlk Hid Hav) as Hrec.
    rewrite Hj in Hrec. cbn -[juc_write]. cbn -[juc_write] in Hrec.
    assert (Z.max (available_time ms) prev
            = Z.max (default 0 (cursor sp !! m)) (default 0 (completion sp !! (u, j))))
      as Heq by (by rewrite Hav, Hv, Hjuc).
    rewrite <- Heq. apply Hrec; [exact Heq|].
    intros k i. rewrite Hl. apply Hjuc.
  - destruct (operation_idx (op_task op)) as [|j] eqn:Hj; [|lia].
    pose proof (sim_record s st sp op m u p ms (available_time ms)
                  (job_unit_completion st) Hsim Hlk Hid Hav) as Hrec.
    rewrite Hj in Hrec. cbn -[juc_write]. cbn -[juc_write] in Hrec.
    rewrite <- Hav. apply Hrec; [by rewrite Hav|exact Hjuc].
Qed.

Lemma sim_loop (s : Scheduler) (ind : Individual) (seq : list Z) :
  ∀ st sp, sim s st sp →
    agree (sim s) (decode_loop s ind st seq) (spec_loop s ind sp seq).
Proof.
  induction seq as [|op_id rest IH]; intros st sp Hsim; [exact Hsim|].
  cbn [decode_loop spec_loop].
  pose proof (sim_step s ind st sp op_id Hsim) as Hstep.
  destruct (decode_step s ind st op_id) as [st'|e],
           (spec_step s ind sp op_id) as [sp'|e']; simpl in *; try done.
  by apply IH.
Qed.

Lemma decode_refines_spec (s : Scheduler) (ind : Individual) :
  decode s ind = spec_decode s ind.
Proof.
  unfold decode, spec_decode.
  pose proof (sim_loop s ind (operation_sequence ind) _ _ (sim_init s)) as H.
  destruct (decode_loop s ind (decode_init s) (operation_sequence ind)) as [st|e],
           (spec_loop s ind spec_init (operation_sequence ind)) as [sp|e'];
    simpl in *; try done.
  - destruct H as (-> & _). done.
  - by subst.
Qed.

(** ** What the specification's decoder records *)

Lemma spec_step_Ok (s : Scheduler) (ind : Individual) (sp sp' : SpecState) (op_id : Z) :
  spec_step s ind sp op_id = Ok sp' →
  ∃ op m p u,
    gene_lookup s ind op_id = Ok (op, m, p) ∧ unit_key (op_task op) = Ok u ∧
    let start := spec_start (default 0 (cursor sp !! m))
                   (spec_predecessor_completion sp u (operation_idx (op_task op))) in
    sp' = mkSpecState (<[m := start + p]> (cursor sp))
            (<[(u, operation_idx (op_task op)) := start + p]> (completion sp))
            (spec_tasks sp ++ [mkScheduledTask (op_task op) m start (start + p) p]).
Proof.
  unfold spec_step. intros H.
  destruct (gene_lookup s ind op_id) as [[[op m] p]|e]; cbn in H; [|done].
  destruct (unit_key (op_task op)) as [u|e] eqn:Hu; cbn in H; [|done].
  injection H as <-. exists op, m, p, u. auto.
Qed.

Lemma spec_loop_tasks (s : Scheduler) (ind : Individual) (seq : list Z) :
  ∀ sp sp', spec_loop s ind sp seq = Ok sp' →
    ∃ new, spec_tasks sp' = spec_tasks sp ++ new ∧
           Forall2 (decoded_from s ind) seq new.
Proof.
  induction seq as [|x rest IH]; intros sp sp' H; cbn in H.
  - injection H as <-. exists []. by rewrite app_nil_r.
  - inv_bind H. apply spec_step_Ok in Ha as (op & m & p & u & Hg & Hu & ->).
    apply IH in H as (new & Htasks & Hall). cbn in Htasks.
    eexists (_ :: new). rewrite Htasks, <- app_assoc. split; [done|].
    constructor; [|done]. by exists op, m, p.
Qed.

Lemma spec_loop_total (s : Scheduler) (ind : Individual) (seq : list Z) :
  Forall (fun x => ∃ op m p, gene_lookup s ind x = Ok (op, m, p) ∧
                             is_ok (unit_key (op_task op)) = true) seq →
  ∀ sp, ∃ sp', spec_loop s ind sp seq = Ok sp'.
Proof.
  induction 1 as [|x rest (op & m & p & Hg & Hu) _ IH]; intros sp; cbn.
  - by eexists.
  - unfold spec_step. rewrite Hg. cbn.
    apply is_ok_true in Hu as [u ->]. cbn. apply IH.
Qed.

Lemma valid_chromosome_genes (s : Scheduler) (ind : Individual) :
  valid_chromosome s ind → tasks_well_formed s →
  Forall (fun x => ∃ op m p, gene_lookup s ind x = Ok (op, m, p) ∧
                             is_ok (unit_key (op_task op)) = true)
         (operation_sequence ind).
Proof.
  intros (Hlen & Hms & Hperm) Hwf. apply Forall_forall. intros x Hx.
  unfold is_permutation_of_range in Hperm. rewrite Hperm in Hx.
  apply elem_of_seqZ in Hx.
  destruct (py_index_in_range (all_operations s) x) as (op & Hop & Hop'); [lia|].
  destruct (py_index_in_range (machine_assignment ind) x) as (mi & Hmi & Hmi'); [lia|].
  assert (0 <= mi < Z.of_nat (length (machines s))) as Hrange.
  { eapply Forall_forall in Hms; [exact Hms|]. by eapply list_elem_of_lookup_2. }
  destruct (py_index_in_range (machines s) mi Hrange) as (m & Hm & _).
  exists op, m, (default 10 (op_processing_times op !! m)). split.
  - unfold gene_lookup. rewrite Hop. cbn. rewrite Hmi. cbn. by rewrite Hm.
  - eapply Forall_forall in Hwf; [exact Hwf|]. by eapply list_elem_of_lookup_2.
Qed.

Lemma decode_total (s : Scheduler) (ind : Individual) :
  valid_chromosome s ind → tasks_well_formed s → ∃ sched, decode s ind = Ok sched.
Proof.
  intros Hv Hwf. rewrite decode_refines_spec. unfold spec_decode.
  destruct (spec_loop_total s ind _ (valid_chromosome_genes s ind Hv Hwf) spec_init)
    as [sp ->].
  by eexists.
Qed.

Lemma foldr_max_init (l : list Z) (e x : Z) :
  foldr Z.max (Z.max e x) l = Z.max x (foldr Z.max e l).
Proof. induction l as [|y l IH]; cbn; [lia|]. rewrite IH. lia. Qed.

Lemma makespan_of_spec (l : list ScheduledTask) : makespan_of l = spec_makespan l.
Proof.
  unfold makespan_of, spec_makespan. destruct l as [|t rest]; [done|]. cbn.
  generalize (end_time t). induction rest as [|u rest IH]; intros e; cbn; [done|].
  by rewrite IH, foldr_max_init.
Qed.

Lemma makespan_of_upper_bound (l : list ScheduledTask) (t : ScheduledTask) :
  t ∈ l → end_time t <= makespan_of l.
Proof.
  unfold makespan_of. destruct l as [|t0 rest]; [by intros ?%elem_of_nil|].
  assert (∀ acc, acc <= foldl (fun acc u => Z.max acc (end_time u)) acc rest) as Hacc.
  { induction rest as [|u rest IH]; intros acc; cbn; [lia|].
    specialize (IH (Z.max acc (end_time u))). lia. }
  assert (∀ acc, t ∈ rest →
            end_time t <= foldl (fun acc u => Z.max acc (end_time u)) acc rest) as Hin.
  { clear Hacc. induction rest as [|u rest IH]; intros acc Ht; [by apply elem_of_nil in Ht|].
    cbn. apply elem_of_cons in Ht as [->|Ht]; [|by apply IH].
    clear IH. generalize (Z.max acc (end_time u)) (Z.le_max_r acc (end_time u)).
    induction rest as [|v rest IH]; intros z Hz; cbn; [done|].
    apply IH. lia. }
  intros [->|Ht]%elem_of_cons; [apply Hacc|by apply Hin].
Qed.

(** ** Machine exclusivity *)

Lemma nonneg_duration (s : Scheduler) (ind : Individual) (op_id : Z)
    (op : OpInfo) (m : string) (p : Z) :
  nonneg_times s → gene_lookup s ind op_id = Ok (op, m, p) → 0 <= p.
Proof.
  intros Hnn (Hop & _ & ->)%gene_lookup_Ok.
  unfold nonneg_times in Hnn. rewrite Forall_forall in Hnn.
  destruct (op_processing_times op !! m) as [t|] eqn:Ht; cbn; [|lia].
  exact (Hnn op Hop m t Ht).
Qed.


Lemma spec_start_ge_cursor (c : Z) (pred : option Z) : c <= spec_start c pred.
Proof. destruct pred; cbn; lia. Qed.



Lemma ordered_exclusive_non_overlapping (sched : list ScheduledTask) :
  ordered_exclusive sched → non_overlapping sched.
Proof.
  intros Hord i j a b Hij Ha Hb Hab.
  destruct (decide (i < j)%nat).
  - left. exact (Hord i j a b ltac:(lia) Ha Hb Hab).
  - right. exact (Hord j i b a ltac:(lia) Hb Ha (eq_sym Hab)).
Qed.

Lemma decode_loop_sim_Ok (s : Scheduler) (ind : Individual) (seq : list Z)
    (st st' : DecodeState) (sp : SpecState) :
  sim s st sp → decode_loop s ind st seq = Ok st' →
  ∃ sp', spec_loop s ind sp seq = Ok sp' ∧ sim s st' sp'.
Proof.
  intros Hsim H. pose proof (sim_loop s ind seq st sp Hsim) as Hag.
  rewrite H in Hag. destruct (spec_loop s ind sp seq) as [sp'|e]; [|done].
  by exists sp'.
Qed.



(** ** Evaluation reads the problem data and the chromosome only *)

Lemma decode_step_ext (s s' : Scheduler) (ind ind' : Individual)
    (st : DecodeState) (op_id : Z) :
  machines s = machines s' → all_operations s = all_operations s' →
  machine_assignment ind = machine_assignment ind' →
  decode_step s ind st op_id = decode_step s' ind' st op_id.
Proof.
  intros Hm Ho Hma. unfold decode_step, gene_lookup. by rewrite Hm, Ho, Hma.
Qed.

Lemma decode_loop_ext (s s' : Scheduler) (ind ind' : Individual) (seq : list Z) :
  machines s = machines s' → all_operations s = all_operations s' →
  machine_assignment ind = machine_assignment ind' →
  ∀ st, decode_loop s ind st seq = decode_loop s' ind' st seq.
Proof.
  intros Hm Ho Hma. induction seq as [|x rest IH]; intros st; [done|].
  cbn [decode_loop]. rewrite (decode_step_ext s s' ind ind' st x Hm Ho Hma).
  destruct (decode_step s' ind' st x) as [st'|e]; cbn; [apply IH|done].
Qed.

Lemma decode_ext (s s' : Scheduler) (ind ind' : Individual) :
  machines s = machines s' → all_operations s = all_operations s' →
  machine_assignment ind = machine_assignment ind' →
  operation_sequence ind = operation_sequence ind' →
  decode s ind = decode s' ind'.
Proof.
  intros Hm Ho Hma Hseq. unfold decode, decode_init. rewrite <- Hseq, <- Hm.
  by rewrite (decode_loop_ext s s' ind ind' _ Hm Ho Hma).
Qed.

Lemma evaluate_individual_decoded (s : Scheduler) (ind : Individual)
    (sched : list ScheduledTask) :
  decode s ind = Ok sched →
  let o := evaluate_individual s ind in
  machine_assignment (eval_individual o) = machine_assignment ind ∧
  operation_sequence (eval_individual o) = operation_sequence ind ∧
  fitness (eval_individual o) = Fin (makespan_of sched) ∧
  actual_makespan (eval_individual o) = Fin (makespan_of sched) ∧
  machines (eval_scheduler o) = machines s ∧
  all_operations (eval_scheduler o) = all_operations s ∧
  (∀ f, eval_result o = Ok f →
        f = Fin (makespan_of sched) ∧ schedule (eval_individual o) = sched) ∧
  (∀ e, eval_result o = Raise e → schedule (eval_individual o) = schedule ind).
Proof.
  intros Hdec. unfold evaluate_individual. rewrite Hdec.
  assert (∀ f : Fitness, Ok (Fin (makespan_of sched)) = Ok f →
            f = Fin (makespan_of sched) ∧ sched = sched) as Hok
    by (by intros f [= <-]).
  destruct (use_archive_solutions s); [|by cbn].
  unfold _update_solution_archive.
  destruct (is_diverse _ _ _) as [[|]|e]; [|by cbn|by cbn].
  cbn [mbind result_bind]. case_bool_decide; by cbn.
Qed.

Lemma evaluate_individual_returns (s : Scheduler) (ind : Individual) (f : Fitness) :
  eval_result (evaluate_individual s ind) = Ok f → ∃ sched, decode s ind = Ok sched.
Proof.
  unfold evaluate_individual. destruct (decode s ind) as [sched|e]; [by eexists|].
  by cbn.
Qed.



(** The second reading of the start rule, with a predecessor completion of
    0 for a first operation: on non-negative durations no cursor is
    negative, so both readings give the same start. *)
Lemma spec_loop_cursor_nonneg (s : Scheduler) (ind : Individual) (seq : list Z) :
  nonneg_times s →
  ∀ sp sp', (∀ m, 0 <= default 0 (cursor sp !! m)) →
    spec_loop s ind sp seq = Ok sp' → ∀ m, 0 <= default 0 (cursor sp' !! m).
Proof.
  intros Hnn.
  induction seq as [|x rest IH]; intros sp sp' H0 Hloop m; cbn in Hloop.
  - injection Hloop as <-. apply H0.
  - inv_bind Hloop. apply (IH a sp'); [|done].
    apply spec_step_Ok in Ha as (op & m0 & p & u & Hg & _ & ->). cbn.
    pose proof (nonneg_duration s ind x op m0 p Hnn Hg).
    pose proof (spec_start_ge_cursor (default 0 (cursor sp !! m0))
                  (spec_predecessor_completion sp u (operation_idx (op_task op)))).
    intros m'. destruct (decide (m0 = m')) as [<-|Hne].
    + rewrite lookup_insert_eq. cbn. specialize (H0 m0). lia.
    + rewrite lookup_insert_ne by done. apply H0.
Qed.

(** C10. A task whose assigned machine has no entry in the operation's
    processing-time table is decoded all the same, with a duration of 10:
    its end is its start plus 10, and the makespan stored as fitness is at
    least that end. *)
Theorem missing_duration_defaults_to_ten (s : Scheduler) (ind : Individual)
    (k : nat) (op_id : Z) (op : OpInfo) (m : string) :
  valid_chromosome s ind → tasks_well_formed s →
  operation_sequence ind !! k = Some op_id →
  py_index (all_operations s) op_id = Ok op →
  (machine_idx ← py_index (machine_assignment ind) op_id;
   py_index (machines s) machine_idx) = Ok m →
  op_processing_times op !! m = None →
  ∃ sched t,
    decode s ind = Ok sched ∧ sched !! k = Some t ∧
    task t = op_task op ∧ machine_id t = m ∧
    processing_time t = 10 ∧ end_time t = start_time t + 10 ∧
    end_time t <= makespan_of sched ∧
    fitness (eval_individual (evaluate_individual s ind)) = Fin (makespan_of sched).
Proof.
  intros Hv Hwf Hk Hop Hm Hnone.
  destruct (decode_total s ind Hv Hwf) as [sched Hdec]. exists sched.
  pose proof Hdec as Hspec. rewrite decode_refines_spec in Hspec.
  unfold spec_decode in Hspec. inv_bind Hspec. injection Hspec as <-.
  apply spec_loop_tasks in Ha as (new & Htasks & Hall). cbn in Htasks.
  rewrite Htasks.
  destruct (Forall2_lookup_l _ _ _ _ _ Hall Hk) as (t & Ht & op' & m' & p & Hg & H1 & H2 & H3 & H4).
  assert (gene_lookup s ind op_id = Ok (op, m, 10)) as Hg'.
  { unfold gene_lookup. rewrite Hop. cbn. inv_bind Hm. rewrite Ha. cbn.
    rewrite Hm. cbn. by rewrite Hnone. }
  rewrite Hg' in Hg. injection Hg as <- <- <-.
  destruct (evaluate_individual_decoded s ind _ Hdec) as (_ & _ & Hfit & _).
  rewrite Htasks in Hdec, Hfit.
  exists t. do 6 (split; [done|]). split; [|done].
  apply makespan_of_upper_bound. by eapply list_elem_of_lookup_2.
Qed.

(** ** The sample problem *)

Lemma sample_nonneg_times : nonneg_times sample.
Proof. unfold nonneg_times. apply (bool_decide_unpack _). by vm_compute. Defined.

Lemma sample_tasks_well_formed : tasks_well_formed sample.
Proof. unfold tasks_well_formed. apply (bool_decide_unpack _). by vm_compute. Defined.

Lemma sample_sizes :
  length (all_operations sample) = 6%nat ∧ length (machines sample) = 18%nat.
Proof. by vm_compute. Defined.

Lemma sample_valid (ma : list Z) (seq : list Z) :
  length ma = 6%nat →
  Forall (fun m => 0 <= m < 18) ma →
  seq ≡ₚ [0; 1; 2; 3; 4; 5] →
  valid_chromosome sample (new_individual ma seq).
Proof.
  intros Hlen Hma Hseq. destruct sample_sizes as [Hops Hms].
  unfold valid_chromosome, is_permutation_of_range.
  cbn [machine_assignment operation_sequence new_individual].
  rewrite Hops, Hms. split; [exact Hlen|]. split; [exact Hma|exact Hseq].
Defined.



Lemma missing_duration_defaults_to_ten_witness :
  ∃ sched t, decode sample unlisted_individual = Ok sched ∧ sched !! 0%nat = Some t ∧
             machine_id t = "M5" ∧ processing_time t = 10.
Proof.
  destruct (missing_duration_defaults_to_ten sample unlisted_individual
              0 0 sample_first_operation "M5")
    as (sched & t & Hdec & Ht & _ & Hm & Hp & _).
  - apply sample_valid; [done| |done].
    apply (bool_decide_unpack _). by vm_compute.
  - exact sample_tasks_well_formed.
  - reflexivity.
  - by vm_compute.
  - by vm_compute.
  - by vm_compute.
  - exists sched, t. exact (conj Hdec (conj Ht (conj Hm Hp))).
Defined.

(** C1. A chromosome with a permutation sequence and eligible machines
    whose sequence places operation 1 of a unit before operation 0: the
    decoder starts operation 1 at time 0, before operation 0 of the same
    unit has ended at time 11. *)
Theorem precedence_broken_when_successor_first :
  valid_chromosome sample swapped_individual ∧
  ∃ sched a b,
    decode sample swapped_individual = Ok sched ∧
    sched !! 1%nat = Some a ∧ sched !! 0%nat = Some b ∧
    unit_key (task a) = unit_key (task b) ∧
    operation_idx (task a) = 0%nat ∧ operation_idx (task b) = 1%nat ∧
    end_time a = 11 ∧ start_time b = 0 ∧
    ¬ (start_time b >= end_time a).
Proof.
  split.
  - apply sample_valid; [done| |apply perm_swap].
    apply (bool_decide_unpack _). by vm_compute.
  - exists swapped_schedule,
      (mkScheduledTask
         (mkTask "alice_20240101_pants" "Job1" 0 "alice_20240101_pants_unit0_op0")
         "M4" 0 11 11),
      (mkScheduledTask
         (mkTask "alice_20240101_pants" "Job1" 1 "alice_20240101_pants_unit0_op1")
         "M5" 0 18 18).
    split; [by vm_compute|]. split; [by vm_compute|]. split; [by vm_compute|].
    split; [by vm_compute|]. cbn. repeat split; lia.
Qed.

(** ** Precedence holds after a decoded predecessor *)

Lemma last_completion_snoc (tasks : list ScheduledTask) (t : ScheduledTask)
    (u : string) (i : nat) :
  last_completion (tasks ++ [t]) u i
  = if is_operation u i t then Some (end_time t) else last_completion tasks u i.
Proof. unfold last_completion. by rewrite foldl_app. Qed.

Lemma last_completion_after (pre mid : list ScheduledTask) (a : ScheduledTask)
    (u : string) (i : nat) :
  is_operation u i a = true →
  Forall (fun c => is_operation u i c = false) mid →
  last_completion (pre ++ a :: mid) u i = Some (end_time a).
Proof.
  intros Ha Hmid. unfold last_completion. rewrite foldl_app. cbn [foldl]. rewrite Ha.
  induction Hmid as [|c mid Hc _ IH]; [done|]. cbn [foldl]. by rewrite Hc.
Qed.

Lemma spec_step_precedence (s : Scheduler) (ind : Individual) (sp sp' : SpecState)
    (op_id : Z) :
  precedence_inv sp → spec_step s ind sp op_id = Ok sp' → precedence_inv sp'.
Proof.
  intros (Hcompl & Hstart) (op & m & p & u & Hg & Hu & ->)%spec_step_Ok.
  split; cbn [completion spec_tasks].
  - intros u' i'. rewrite last_completion_snoc. unfold is_operation. cbn [task end_time].
    rewrite Hu. destruct (decide ((u, operation_idx (op_task op)) = (u', i'))) as [Heq|Hne].
    + injection Heq as <- <-. rewrite lookup_insert_eq.
      by rewrite !bool_decide_eq_true_2.
    + rewrite lookup_insert_ne by done. rewrite Hcompl.
      destruct (decide (u = u')) as [<-|Hu'].
      * rewrite bool_decide_eq_true_2 by done.
        rewrite bool_decide_eq_false_2 by congruence. done.
      * by rewrite bool_decide_eq_false_2.
  - intros j b u' i' Hj Hub Hib.
    destruct (decide (j < length (spec_tasks sp))%nat) as [Hlt|Hge].
    + rewrite lookup_app_l in Hj by done. rewrite take_app_le by lia.
      by eapply Hstart.
    + rewrite lookup_app_r in Hj by lia.
      destruct (j - length (spec_tasks sp))%nat as [|k] eqn:Hk; [|done].
      injection Hj as <-. cbn [task start_time] in *.
      rewrite take_app_ge by lia. replace (j - length (spec_tasks sp))%nat with 0%nat by lia.
      rewrite take_0, app_nil_r. rewrite Hu in Hub. injection Hub as <-.
      rewrite Hib. cbn [spec_predecessor_completion spec_start].
      rewrite Hcompl. lia.
Qed.

Lemma spec_loop_precedence (s : Scheduler) (ind : Individual) (seq : list Z) :
  ∀ sp sp', precedence_inv sp → spec_loop s ind sp seq = Ok sp' → precedence_inv sp'.
Proof.
  induction seq as [|x rest IH]; intros sp sp' Hinv H; cbn in H.
  - by injection H as <-.
  - inv_bind H. eapply IH; [|done]. by eapply spec_step_precedence.
Qed.

(** The part of the precedence rule that the decoder does keep: a task
    starts at or after the end of the operation before it in its unit,
    provided that operation was decoded earlier in the sequence (and no
    other task with the same unit key and operation index in between). *)
Lemma decode_precedence_after_predecessor (s : Scheduler) (ind : Individual)
    (sched : list ScheduledTask) (i j : nat) (a b : ScheduledTask) (u : string) :
  decode s ind = Ok sched →
  (i < j)%nat → sched !! i = Some a → sched !! j = Some b →
  unit_key (task a) = Ok u → unit_key (task b) = Ok u →
  operation_idx (task b) = S (operation_idx (task a)) →
  (∀ k c, (i < k < j)%nat → sched !! k = Some c →
          is_operation u (operation_idx (task a)) c = false) →
  end_time a <= start_time b.
Proof.
  intros Hdec Hij Ha Hb Hua Hub Hidx Hbetween.
  rewrite decode_refines_spec in Hdec. unfold spec_decode in Hdec.
  inv_bind Hdec. injection Hdec as <-.
  assert (precedence_inv spec_init) as Hinit.
  { split; [intros u' i'; cbn; by rewrite lookup_empty|].
    intros j' b' u' i' Hj'. cbn in Hj'. by rewrite lookup_nil in Hj'. }
  destruct (spec_loop_precedence s ind _ _ _ Hinit Ha0) as (_ & Hstart).
  specialize (Hstart j b u (operation_idx (task a)) Hb Hub Hidx).
  assert (take j (spec_tasks a0)
          = take i (spec_tasks a0) ++ a :: take (j - S i) (drop (S i) (spec_tasks a0)))
    as Hsplit.
  { pose proof (lookup_lt_Some _ _ _ Ha) as Hlen.
    rewrite <- (take_drop_middle (spec_tasks a0) i a Ha) at 1.
    rewrite take_app_ge by (rewrite length_take; lia).
    rewrite length_take. replace (j - i `min` length (spec_tasks a0))%nat
      with (S (j - S i)) by lia.
    done. }
  rewrite Hsplit, (last_completion_after _ _ a) in Hstart; [done| |].
  - unfold is_operation. rewrite Hua. by rewrite !bool_decide_eq_true_2.
  - apply Forall_lookup. intros k c Hk.
    apply lookup_take_Some in Hk as [Hk Hlt]. rewrite lookup_drop in Hk.
    apply (Hbetween (S i + k)%nat c); [lia|done].
Qed.

(** ** Re-evaluation *)

Lemma insert_by_fitness_perm (x : Individual) (l : list Individual) :
  insert_by_fitness x l ≡ₚ x :: l.
Proof.
  induction l as [|y l IH]; cbn; [done|].
  destruct (fit_leb (fitness x) (fitness y)); [done|].
  rewrite IH. apply perm_swap.
Qed.

Lemma sort_by_fitness_perm (l : list Individual) : sort_by_fitness l ≡ₚ l.
Proof.
  induction l as [|x l IH]; cbn; [done|].
  by rewrite insert_by_fitness_perm, IH.
Qed.

Lemma calculate_similarity_ext (x x' a : Individual) :
  machine_assignment x' = machine_assignment x →
  operation_sequence x' = operation_sequence x →
  calculate_similarity x' a = calculate_similarity x a.
Proof. intros Hma Hseq. unfold calculate_similarity. by rewrite Hma, Hseq. Qed.

Lemma is_diverse_ext (thr : Q) (x x' : Individual) (archive : list Individual) :
  machine_assignment x' = machine_assignment x →
  operation_sequence x' = operation_sequence x →
  is_diverse thr x' archive = is_diverse thr x archive.
Proof.
  intros Hma Hseq. induction archive as [|a rest IH]; cbn; [done|].
  rewrite (calculate_similarity_ext x x' a Hma Hseq).
  destruct (calculate_similarity x a); cbn; [|done].
  by destruct (negb _).
Qed.

Lemma is_diverse_true_all (thr : Q) (x : Individual) (archive : list Individual) :
  is_diverse thr x archive = Ok true →
  ∀ a, a ∈ archive → is_ok (calculate_similarity x a) = true.
Proof.
  induction archive as [|b rest IH]; cbn; intros H a Ha.
  - by apply elem_of_nil in Ha.
  - destruct (calculate_similarity x b) as [q|e] eqn:Hq; cbn in H; [|done].
    destruct (negb _); [done|].
    apply elem_of_cons in Ha as [->|Ha]; [by rewrite Hq|by apply IH].
Qed.

Lemma is_diverse_ok (thr : Q) (x : Individual) (archive : list Individual) :
  (∀ a, a ∈ archive → is_ok (calculate_similarity x a) = true) →
  is_ok (is_diverse thr x archive) = true.
Proof.
  induction archive as [|b rest IH]; cbn; intros H; [done|].
  destruct (calculate_similarity x b) as [q|e] eqn:Hq; cbn.
  - destruct (negb _); [done|]. apply IH. intros a Ha. apply H. by right.
  - specialize (H b ltac:(left)). by rewrite Hq in H.
Qed.

Lemma count_equal_strict_refl (l : list Z) : is_ok (count_equal_strict l l) = true.
Proof.
  induction l as [|x l IH]; cbn; [done|].
  by destruct (count_equal_strict l l).
Qed.

Lemma calculate_similarity_self (x x' : Individual) :
  machine_assignment x' = machine_assignment x →
  operation_sequence x' = operation_sequence x →
  machine_assignment x ≠ [] → operation_sequence x ≠ [] →
  is_ok (calculate_similarity x' x) = true.
Proof.
  intros Hma Hseq Hm Hs. unfold calculate_similarity. rewrite Hma, Hseq.
  pose proof (count_equal_strict_refl (machine_assignment x)) as Hc.
  destruct (count_equal_strict _ _) as [n|]; [|done]. cbn.
  destruct (machine_assignment x); [done|].
  destruct (operation_sequence x) as [|? ?]; [done|]. by cbn.
Qed.

(** After an update that returned, the next update for the same
    chromosome cannot raise: every archived individual was either compared
    without error by the first update, or is the chromosome itself. *)
Lemma update_solution_archive_again (s s1 : Scheduler) (x x' : Individual) :
  _update_solution_archive s x = Ok s1 →
  machine_assignment x' = machine_assignment x →
  operation_sequence x' = operation_sequence x →
  machine_assignment x ≠ [] → operation_sequence x ≠ [] →
  is_ok (_update_solution_archive s1 x') = true.
Proof.
  intros Hup Hma Hseq Hm Hs. unfold _update_solution_archive in Hup.
  destruct (is_diverse (diversity_threshold s) x (solution_archive s))
    as [[|]|e] eqn:Hd; cbn in Hup; [| |done].
  - assert (∃ archive, s1 = set_solution_archive s archive ∧
                       ∀ a, a ∈ archive → a ∈ solution_archive s ++ [x])
      as (archive & -> & Hsub).
    { case_bool_decide; injection Hup as <-; eexists; (split; [done|]); [|done].
      intros a Ha. rewrite <- (sort_by_fitness_perm (solution_archive s ++ [x])).
      rewrite <- (take_drop (archive_size s) (sort_by_fitness _)).
      apply elem_of_app. by left. }
    unfold _update_solution_archive.
    cbn [diversity_threshold solution_archive archive_size set_solution_archive].
    assert (is_ok (is_diverse (diversity_threshold s) x' archive) = true) as Hok.
    { apply is_diverse_ok. intros a [Ha|Ha]%Hsub%elem_of_app.
      - rewrite (calculate_similarity_ext x x' a Hma Hseq).
        by eapply is_diverse_true_all.
      - apply list_elem_of_singleton in Ha as ->. by apply calculate_similarity_self. }
    destruct (is_diverse _ x' archive) as [[|]|]; [|done|done].
    clear Hup. cbn [mbind result_bind]. case_bool_decide; by cbn.
  - injection Hup as <-. unfold _update_solution_archive.
    rewrite (is_diverse_ext _ x x' _ Hma Hseq), Hd. done.
Qed.

Lemma update_solution_archive_preserves (s s1 : Scheduler) (x : Individual) :
  _update_solution_archive s x = Ok s1 →
  machines s1 = machines s ∧ all_operations s1 = all_operations s ∧
  use_archive_solutions s1 = use_archive_solutions s.
Proof.
  unfold _update_solution_archive.
  destruct (is_diverse _ _ _) as [[|]|]; cbn; [| |done].
  - case_bool_decide; by intros [= <-].
  - by intros [= <-].
Qed.

(** The individual with its fitness set, as [_update_solution_archive]
    receives it. *)
Lemma evaluate_individual_Ok_inv (s : Scheduler) (ind : Individual) (f : Fitness) :
  eval_result (evaluate_individual s ind) = Ok f →
  ∃ sched s1,
    decode s ind = Ok sched ∧
    (if use_archive_solutions s
     then _update_solution_archive s
            (mkIndividual (machine_assignment ind) (operation_sequence ind)
               (Fin (makespan_of sched)) (Fin (makespan_of sched)) (schedule ind))
     else Ok s) = Ok s1 ∧
    evaluate_individual s ind
    = (s1,
       mkIndividual (machine_assignment ind) (operation_sequence ind)
         (Fin (makespan_of sched)) (Fin (makespan_of sched)) sched,
       Ok (Fin (makespan_of sched))).
Proof.
  unfold evaluate_individual. destruct (decode s ind) as [sched|e]; [|by cbn].
  destruct (if use_archive_solutions s then _ else _) as [s1|e] eqn:Hup; [|by cbn].
  intros _. exists sched, s1. cbn in Hup |- *. by rewrite Hup.
Qed.

Lemma evaluate_individual_is_ok (s : Scheduler) (ind : Individual)
    (sched : list ScheduledTask) :
  decode s ind = Ok sched →
  is_ok (if use_archive_solutions s
         then _update_solution_archive s
                (mkIndividual (machine_assignment ind) (operation_sequence ind)
                   (Fin (makespan_of sched)) (Fin (makespan_of sched)) (schedule ind))
         else Ok s) = true →
  is_ok (eval_result (evaluate_individual s ind)) = true.
Proof.
  intros Hdec. unfold evaluate_individual. rewrite Hdec.
  by destruct (if use_archive_solutions s then _ else _).
Qed.

(** C6. Evaluation depends on the problem data and on the chromosome
    only: two evaluations of the same chromosome decode the same schedule
    and, when both return, return the same fitness and store the same
    fitness, makespan and schedule. Evaluating an evaluated individual
    again leaves its fitness, makespan and schedule as they are, and it
    returns that same fitness whenever it returns, which it does for every
    non-empty chromosome. *)
Theorem evaluate_individual_deterministic (s s' : Scheduler) (ind ind' : Individual) :
  machines s = machines s' → all_operations s = all_operations s' →
  machine_assignment ind = machine_assignment ind' →
  operation_sequence ind = operation_sequence ind' →
  let o := evaluate_individual s ind in
  let o' := evaluate_individual s' ind' in
  decode s ind = decode s' ind' ∧
  (∀ f f', eval_result o = Ok f → eval_result o' = Ok f' →
     f = f' ∧
     fitness (eval_individual o) = fitness (eval_individual o') ∧
     actual_makespan (eval_individual o) = actual_makespan (eval_individual o') ∧
     schedule (eval_individual o) = schedule (eval_individual o')) ∧
  (∀ f, eval_result o = Ok f →
     let o2 := evaluate_individual (eval_scheduler o) (eval_individual o) in
     fitness (eval_individual o2) = fitness (eval_individual o) ∧
     actual_makespan (eval_individual o2) = actual_makespan (eval_individual o) ∧
     schedule (eval_individual o2) = schedule (eval_individual o) ∧
     (∀ f2, eval_result o2 = Ok f2 → f2 = f) ∧
     (machine_assignment ind ≠ [] → operation_sequence ind ≠ [] →
      eval_result o2 = Ok f)).
Proof.
  intros Hm Ho Hma Hseq o o'.
  pose proof (decode_ext s s' ind ind' Hm Ho Hma Hseq) as Hdec.
  split; [exact Hdec|]. split.
  - intros f f' Hf Hf'. subst o o'.
    destruct (evaluate_individual_returns s ind f Hf) as [sched Hs].
    pose proof Hs as Hs'. rewrite Hdec in Hs'.
    destruct (evaluate_individual_decoded s ind sched Hs)
      as (_ & _ & Hfit & Hmk & _ & _ & Hres & _).
    destruct (evaluate_individual_decoded s' ind' sched Hs')
      as (_ & _ & Hfit' & Hmk' & _ & _ & Hres' & _).
    destruct (Hres f Hf) as [-> ->]. destruct (Hres' f' Hf') as [-> ->].
    by rewrite Hfit, Hfit', Hmk, Hmk'.
  - intros f Hf o2. subst o.
    destruct (evaluate_individual_returns s ind f Hf) as [sched Hs].
    destruct (evaluate_individual_decoded s ind sched Hs)
      as (Hma1 & Hseq1 & Hfit & Hmk & Hm1 & Ho1 & Hres & _).
    destruct (Hres f Hf) as [-> Hsched].
    set (s1 := eval_scheduler (evaluate_individual s ind)) in *.
    set (i1 := eval_individual (evaluate_individual s ind)) in *.
    assert (decode s1 i1 = Ok sched) as Hs2
      by (by rewrite (decode_ext s1 s i1 ind Hm1 Ho1 Hma1 Hseq1)).
    destruct (evaluate_individual_decoded s1 i1 sched Hs2)
      as (_ & _ & Hfit2 & Hmk2 & _ & _ & Hres2 & Hraise2).
    fold o2 in Hfit2, Hmk2, Hres2, Hraise2.
    split; [by rewrite Hfit2, Hfit|]. split; [by rewrite Hmk2, Hmk|]. split; [|split].
    + destruct (eval_result o2) as [f2|e] eqn:Hr2.
      * destruct (Hres2 f2 eq_refl) as [_ ->]. done.
      * by rewrite (Hraise2 e eq_refl).
    + intros f2 Hf2. by destruct (Hres2 f2 Hf2) as [-> _].
    + intros Hne1 Hne2.
      assert (is_ok (eval_result o2) = true) as Hok.
      { destruct (evaluate_individual_Ok_inv s ind _ Hf) as (sched' & s1' & Hs' & Hup & Heq).
        rewrite Hs in Hs'. injection Hs' as <-.
        subst o2 s1 i1. rewrite Heq in *. cbn [eval_scheduler eval_individual fst snd] in *.
        apply (evaluate_individual_is_ok _ _ sched Hs2).
        cbn [machine_assignment operation_sequence schedule].
        destruct (use_archive_solutions s) eqn:Hua.
        - destruct (update_solution_archive_preserves s s1' _ Hup) as (_ & _ & ->).
          rewrite Hua.
          exact (update_solution_archive_again s s1' _
                   (mkIndividual (machine_assignment ind) (operation_sequence ind)
                      (Fin (makespan_of sched)) (Fin (makespan_of sched)) sched)
                   Hup eq_refl eq_refl Hne1 Hne2).
        - injection Hup as <-. by rewrite Hua. }
      destruct (eval_result o2) as [f2|e] eqn:Hr2; [|done].
      by destruct (Hres2 f2 eq_refl) as [-> _].
Qed.

Lemma evaluate_individual_deterministic_witness :
  eval_result (evaluate_individual sample sample_individual) = Ok (Fin 104) ∧
  eval_result
    (evaluate_individual
       (eval_scheduler (evaluate_individual sample sample_individual))
       (eval_individual (evaluate_individual sample sample_individual)))
  = Ok (Fin 104).
Proof.
  assert (eval_result (evaluate_individual sample sample_individual) = Ok (Fin 104))
    as Hf by (by vm_compute).
  split; [exact Hf|].
  destruct (evaluate_individual_deterministic sample sample
              sample_individual sample_individual eq_refl eq_refl eq_refl eq_refl)
    as (_ & _ & H).
  destruct (H (Fin 104) Hf) as (_ & _ & _ & _ & Hret).
  apply Hret; discriminate.
Defined.

(** ** Variable neighbourhood search *)

Lemma fit_leb_refl (a : Fitness) : fit_leb a a = true.
Proof. destruct a; cbn; [|done]. apply bool_decide_eq_true_2. lia. Qed.

Lemma fit_ltb_leb (a b : Fitness) : fit_ltb a b = true → fit_leb a b = true.
Proof.
  destruct a, b; cbn; try done.
  intros H%bool_decide_eq_true_1. apply bool_decide_eq_true_2. lia.
Qed.

Lemma fit_leb_trans (a b c : Fitness) :
  fit_leb a b = true → fit_leb b c = true → fit_leb a c = true.
Proof.
  destruct a, b, c; cbn; try done.
  intros H1%bool_decide_eq_true_1 H2%bool_decide_eq_true_1.
  apply bool_decide_eq_true_2. lia.
Qed.





(** ** The entry point *)


(** ** Elitism of the generational loop *)






















(** ** Crossover and mutation keep the sequence a permutation *)

Lemma holes_cons (x : Z) (l : list Z) :
  holes (x :: l) = if bool_decide (x = -1) then S (holes l) else holes l.
Proof. unfold holes. rewrite filter_cons. by case_bool_decide; case_decide. Qed.

Lemma filled_cons (x : Z) (l : list Z) :
  filled (x :: l) = if bool_decide (x = -1) then filled l else x :: filled l.
Proof. unfold filled. rewrite filter_cons. by case_bool_decide; case_decide. Qed.

Lemma holes_app (l1 l2 : list Z) : holes (l1 ++ l2) = (holes l1 + holes l2)%nat.
Proof. unfold holes. by rewrite filter_app, length_app. Qed.

Lemma filled_app (l1 l2 : list Z) : filled (l1 ++ l2) = filled l1 ++ filled l2.
Proof. unfold filled. by rewrite filter_app. Qed.

Lemma holes_replicate (n : nat) : holes (replicate n (-1)) = n.
Proof. induction n as [|n IH]; [done|]. cbn [replicate]. by rewrite holes_cons, IH. Qed.

Lemma filled_replicate (n : nat) : filled (replicate n (-1)) = [].
Proof. induction n as [|n IH]; [done|]. cbn [replicate]. by rewrite filled_cons, IH. Qed.

Lemma holes_none (l : list Z) : Forall (fun x => x ≠ -1) l → holes l = 0%nat ∧ filled l = l.
Proof.
  induction 1 as [|x l Hx _ [IH1 IH2]]; [done|].
  rewrite holes_cons, filled_cons, bool_decide_eq_false_2 by done. by rewrite IH1, IH2.
Qed.

Lemma holes_filled_length (l : list Z) : (holes l + length (filled l) = length l)%nat.
Proof.
  induction l as [|x l IH]; [done|]. rewrite holes_cons, filled_cons.
  case_bool_decide; cbn; lia.
Qed.

Lemma fill_loop_spec (child : list Z) :
  ∀ remaining, (holes child <= length remaining)%nat →
    ∃ r, fill_loop child remaining = Ok r ∧ length r = length child ∧
         r ≡ₚ filled child ++ take (holes child) remaining.
Proof.
  induction child as [|c child IH]; intros remaining Hlen.
  - exists []. by cbn.
  - cbn [fill_loop]. rewrite holes_cons, filled_cons in *. case_bool_decide.
    + destruct remaining as [|x remaining]; [cbn in Hlen; lia|].
      destruct (IH remaining) as (r & -> & Hl & Hp); [cbn in Hlen; lia|].
      exists (x :: r). cbn. split; [done|]. split; [by rewrite Hl|].
      rewrite Hp. apply Permutation_middle.
    + destruct (IH remaining Hlen) as (r & -> & Hl & Hp).
      exists (c :: r). cbn. split; [done|]. split; [by rewrite Hl|]. by rewrite Hp.
Qed.

(** Genes already placed, followed by the other parent's genes that are
    not among them, make up the other parent. *)
Lemma placed_then_rest (placed other : list Z) :
  NoDup placed → NoDup other → placed ⊆ other →
  placed ++ filter (fun x => x ∉ placed) other ≡ₚ other.
Proof.
  intros Hp Ho Hsub. apply NoDup_Permutation; [|done|].
  - apply NoDup_app. split; [done|]. split; [|by apply NoDup_filter].
    intros x Hx [Hnx _]%list_elem_of_filter. done.
  - intros x. rewrite elem_of_app, list_elem_of_filter. split.
    + intros [Hx|[_ Hx]]; [by apply Hsub|done].
    + intros Hx. destruct (decide (x ∈ placed)); [by left|by right].
Qed.

Lemma placed_rest_length (placed other : list Z) :
  NoDup placed → NoDup other → placed ⊆ other →
  (length placed + length (filter (fun x => x ∉ placed) other) = length other)%nat.
Proof.
  intros Hp Ho Hsub. rewrite <- length_app.
  by rewrite (Permutation_length (placed_then_rest placed other Hp Ho Hsub)).
Qed.

Lemma range_perm_facts (n : nat) (l : list Z) :
  is_permutation_of_range n l →
  NoDup l ∧ length l = n ∧ Forall (fun x => x ≠ -1) l ∧
  ∀ x, x ∈ l ↔ 0 <= x < Z.of_nat n.
Proof.
  unfold is_permutation_of_range. intros Hp.
  assert (∀ x, x ∈ l ↔ 0 <= x < Z.of_nat n) as Hin.
  { intros x. rewrite Hp, elem_of_seqZ. lia. }
  split; [rewrite Hp; apply NoDup_seqZ|]. split; [by rewrite Hp, length_seqZ, Nat2Z.id|].
  split; [|done]. apply Forall_forall. intros x Hx%Hin. lia.
Qed.

(** Filling the holes of a child whose placed genes come from one parent
    with the remaining genes of the other parent yields a permutation. *)
Lemma fill_positions_perm (n : nat) (child placed other remaining : list Z) :
  is_permutation_of_range n other →
  length child = n → filled child ≡ₚ placed →
  NoDup placed → placed ⊆ other →
  remaining = filter (fun x => x ∉ placed) other →
  ∃ r, fill_positions n child remaining = Ok r ∧ is_permutation_of_range n r.
Proof.
  intros Hother Hlen Hfilled Hnd Hsub ->. subst n.
  destruct (range_perm_facts _ other Hother) as (Hndo & Hleno & _ & _).
  pose proof (placed_rest_length placed other Hnd Hndo Hsub) as Hcount.
  pose proof (holes_filled_length child) as Hhf.
  rewrite (Permutation_length Hfilled) in Hhf.
  unfold fill_positions. rewrite firstn_all.
  destruct (fill_loop_spec child (filter (fun x => x ∉ placed) other)) as (r & -> & Hl & Hp);
    [lia|].
  cbn. rewrite bool_decide_eq_false_2 by lia.
  rewrite drop_all, app_nil_r.
  exists r. split; [done|]. unfold is_permutation_of_range.
  rewrite Hp, Hfilled, take_ge by lia.
  rewrite (placed_then_rest placed other Hnd Hndo Hsub). exact Hother.
Qed.

Lemma filter_ext_in {A : Type} (P Q : A → Prop) `{∀ x, Decision (P x)}
    `{∀ x, Decision (Q x)} (l : list A) :
  (∀ x, x ∈ l → (P x ↔ Q x)) → filter P l = filter Q l.
Proof.
  induction l as [|x l IH]; intros Hext; [done|].
  rewrite !filter_cons. rewrite IH by (intros y Hy; apply Hext; by right).
  destruct (decide (P x)) as [HP|HP], (decide (Q x)) as [HQ|HQ]; try done.
  - exfalso. apply HQ, (Hext x); [by left|done].
  - exfalso. apply HP, (Hext x); [by left|done].
Qed.

Lemma py_slice_sublist (l : list Z) (a b : nat) : py_slice l a b `sublist_of` l.
Proof.
  unfold py_slice. etransitivity; [apply sublist_take|apply sublist_drop].
Qed.

Lemma order_child_perm (n : nat) (p1 p2 : list Z) (start end_ : nat) :
  is_permutation_of_range n p1 → is_permutation_of_range n p2 →
  (start < end_ < n)%nat →
  ∃ r, fill_remaining n
         (py_slice_assign (replicate n (-1)) start end_ (py_slice p1 start end_)) p2
       = Ok r ∧
       is_permutation_of_range n r.
Proof.
  intros H1 H2 Hdraw.
  destruct (range_perm_facts n p1 H1) as (Hnd1 & Hlen1 & Hne1 & Hin1).
  destruct (range_perm_facts n p2 H2) as (Hnd2 & Hlen2 & Hne2 & Hin2).
  pose proof (py_slice_sublist p1 start end_) as Hsub.
  set (slice := py_slice p1 start end_) in *.
  assert (Forall (fun x => x ≠ -1) slice) as Hslice_ne.
  { apply Forall_forall. intros x Hx. rewrite Forall_forall in Hne1. apply Hne1.
    exact (elem_of_sublist _ _ _ Hx Hsub). }
  assert (length slice = (end_ - start)%nat) as Hslice_len.
  { unfold slice, py_slice. rewrite length_take, length_drop. lia. }
  set (child := py_slice_assign (replicate n (-1)) start end_ slice).
  assert (child = replicate start (-1) ++ slice ++ replicate (n - end_) (-1)) as Hchild.
  { unfold child, py_slice_assign. rewrite take_replicate, drop_replicate.
    repeat f_equal; lia. }
  destruct (holes_none slice Hslice_ne) as (_ & Hfs).
  assert (filled child = slice) as Hfilled.
  { by rewrite Hchild, !filled_app, !filled_replicate, Hfs, app_nil_r. }
  unfold fill_remaining.
  apply (fill_positions_perm n child slice p2); [done| |by rewrite Hfilled| | |].
  - rewrite Hchild, !length_app, !length_replicate. lia.
  - exact (sublist_NoDup _ _ Hnd1 Hsub).
  - intros x Hx. apply Hin2, Hin1. exact (elem_of_sublist _ _ _ Hx Hsub).
  - apply filter_ext_in. intros x Hx.
    rewrite Hchild, !elem_of_app, !elem_of_replicate.
    rewrite Forall_forall in Hne2. specialize (Hne2 x Hx).
    split; [intros Hn Hs; apply Hn; auto|intros Hn [[? _]|[?|[? _]]]; done].
Qed.

Lemma insert_delete_perm (l : list Z) (i : nat) (x y : Z) :
  l !! i = Some x → <[i := y]> l ≡ₚ y :: delete i l.
Proof.
  revert i. induction l as [|z l IH]; intros i Hi; [done|].
  destruct i as [|i]; cbn in *; [done|]. rewrite IH by done. apply perm_swap.
Qed.

Lemma swap_positions_perm (seq : list Z) (i j : nat) (r : list Z) :
  swap_positions seq i j = Ok r → r ≡ₚ seq.
Proof.
  unfold swap_positions. intros H. inv_bind H. inv_bind H.
  apply of_option_Ok in Ha, Ha0. injection H as <-.
  destruct (decide (i = j)) as [->|Hij].
  - rewrite Ha in Ha0. injection Ha0 as ->.
    rewrite list_insert_insert_eq, list_insert_id; done.
  - pose proof (insert_delete_perm seq i a a0 Ha) as H1.
    assert (<[i := a0]> seq !! j = Some a0) as H2
      by (by rewrite list_lookup_insert_ne).
    pose proof (delete_Permutation _ j a0 H2) as H3.
    rewrite H1 in H3 at 1. apply Permutation_cons_inv in H3.
    rewrite (insert_delete_perm _ j a0 a H2), <- H3.
    symmetry. by apply delete_Permutation.
Qed.

Lemma pop_insert_perm (seq : list Z) (i j : nat) (r : list Z) :
  pop_insert seq i j = Ok r → r ≡ₚ seq.
Proof.
  unfold pop_insert. intros H. inv_bind H. apply of_option_Ok in Ha.
  injection H as <-. rewrite <- Permutation_middle, take_drop.
  symmetry. by apply delete_Permutation.
Qed.

Lemma reverse_segment_perm (seq : list Z) (start end_ : nat) :
  reverse_segment seq start end_ ≡ₚ seq.
Proof.
  unfold reverse_segment, py_slice_assign, py_slice. rewrite reverse_Permutation.
  destruct (decide (start <= S end_)%nat) as [Hle|Hgt].
  - replace (start `max` S end_)%nat with (start + (S end_ - start))%nat by lia.
    rewrite <- drop_drop, take_drop. by rewrite take_drop.
  - replace (S end_ - start)%nat with 0%nat by lia.
    replace (start `max` S end_)%nat with start by lia.
    rewrite take_0. cbn [app]. by rewrite take_drop.
Qed.

Lemma mutate_sequence_perm (m : SeqMutation) (seq r : list Z) :
  mutate_sequence m seq = Ok r → r ≡ₚ seq.
Proof.
  destruct m; cbn.
  - by intros [= <-].
  - apply swap_positions_perm.
  - apply pop_insert_perm.
  - intros [= <-]. apply reverse_segment_perm.
Qed.

Lemma mutate_sequence_returns (m : SeqMutation) (seq : list Z) :
  seq_mutation_drawn (length seq) m → ∃ r, mutate_sequence m seq = Ok r.
Proof.
  destruct m as [|i j|i j|start end_]; cbn; [by eexists| | |by eexists].
  - intros [Hi Hj]. unfold swap_positions.
    destruct (lookup_lt_is_Some_2 seq i Hi) as [x ->].
    destruct (lookup_lt_is_Some_2 seq j Hj) as [y ->]. by eexists.
  - intros [Hi Hj]. unfold pop_insert.
    destruct (lookup_lt_is_Some_2 seq i Hi) as [x ->]. by eexists.
Qed.

Lemma insert_hole (l : list Z) (i : nat) (v : Z) :
  l !! i = Some (-1) → v ≠ -1 → filled (<[i := v]> l) ≡ₚ v :: filled l.
Proof.
  intros Hi Hv. revert i Hi. induction l as [|z l IH]; intros i Hi; [done|].
  destruct i as [|i]; cbn in Hi.
  - injection Hi as ->. change (<[0%nat := v]> (-1 :: l)) with (v :: l).
    rewrite !filled_cons.
    rewrite bool_decide_eq_false_2 by done. by rewrite bool_decide_eq_true_2.
  - change (<[S i := v]> (z :: l)) with (z :: <[i := v]> l).
    rewrite !filled_cons. case_bool_decide; [by apply IH|].
    rewrite IH by done. apply perm_swap.
Qed.

Lemma copy_positions_spec (source : list Z) (positions : list nat) :
  NoDup positions → Forall (fun x => x ≠ -1) source →
  Forall (fun pos => is_Some (source !! pos)) positions →
  ∀ child, Forall (fun pos => child !! pos = Some (-1)) positions →
    ∃ child', copy_positions positions child source = Ok child' ∧
              length child' = length child ∧
              filled child' ≡ₚ omap (fun pos => source !! pos) positions ++ filled child.
Proof.
  intros Hnd Hsrc. induction positions as [|pos rest IH]; intros Hsome child Hholes.
  - exists child. by cbn.
  - apply NoDup_cons in Hnd as [Hpos Hnd].
    apply Forall_cons in Hsome as [[v Hv] Hsome].
    apply Forall_cons in Hholes as [Hhole Hholes].
    assert (v ≠ -1) as Hvne.
    { rewrite Forall_forall in Hsrc. apply Hsrc. by eapply list_elem_of_lookup_2. }
    cbn [copy_positions omap list_omap]. rewrite Hv. cbn [of_option mbind result_bind].
    unfold py_setitem. rewrite bool_decide_eq_true_2 by (by eapply lookup_lt_Some).
    cbn [mbind result_bind].
    destruct (IH Hnd Hsome (<[pos := v]> child)) as (child' & Hcopy & Hlen & Hperm).
    { apply Forall_forall. intros p Hp. rewrite Forall_forall in Hholes.
      rewrite list_lookup_insert_ne by (intros ->; done). by apply Hholes. }
    exists child'. split; [done|]. split; [by rewrite Hlen, length_insert|].
    rewrite Hperm, (insert_hole child pos v Hhole Hvne). cbn.
    by rewrite Permutation_middle.
Qed.

Lemma selected_ops_spec (source : list Z) (positions : list nat) :
  Forall (fun pos => is_Some (source !! pos)) positions →
  ∃ sel, selected_ops positions source = Ok sel ∧
         ∀ x, x ∈ sel ↔ x ∈ omap (fun pos => source !! pos) positions.
Proof.
  induction 1 as [|pos rest [v Hv] _ (sel & Hsel & Hin)].
  - exists ∅. split; [done|]. intros x. cbn. set_solver.
  - exists ({[v]} ∪ sel). cbn [selected_ops omap list_omap]. rewrite Hv, Hsel. cbn.
    split; [done|]. intros x. rewrite elem_of_union, elem_of_singleton, elem_of_cons, Hin.
    done.
Qed.

Lemma NoDup_omap_lookup (l : list Z) (positions : list nat) :
  NoDup l → NoDup positions → NoDup (omap (fun pos => l !! pos) positions).
Proof.
  intros Hl. induction 1 as [|pos rest Hpos _ IH]; [constructor|].
  cbn [omap list_omap]. destruct (l !! pos) as [v|] eqn:Hv; [|done].
  constructor; [|done]. intros (pos' & Hin & Hv')%list_elem_of_omap.
  by rewrite (NoDup_lookup l pos pos' v Hl Hv Hv') in Hpos.
Qed.

Lemma pbx_child_perm (n : nat) (p1 p2 : list Z) (positions : list nat) :
  is_permutation_of_range n p1 → is_permutation_of_range n p2 →
  NoDup positions → Forall (fun pos => (pos < n)%nat) positions →
  ∃ child sel r,
    copy_positions positions (replicate n (-1)) p1 = Ok child ∧
    selected_ops positions p1 = Ok sel ∧
    fill_remaining_pbx n child p2 sel = Ok r ∧
    is_permutation_of_range n r.
Proof.
  intros H1 H2 Hnd Hrange.
  destruct (range_perm_facts n p1 H1) as (Hnd1 & Hlen1 & Hne1 & Hin1).
  destruct (range_perm_facts n p2 H2) as (Hnd2 & Hlen2 & Hne2 & Hin2).
  assert (Forall (fun pos => is_Some (p1 !! pos)) positions) as Hsome.
  { eapply Forall_impl; [exact Hrange|]. intros pos Hpos. cbn in Hpos.
    apply lookup_lt_is_Some_2. lia. }
  destruct (copy_positions_spec p1 positions Hnd Hne1 Hsome (replicate n (-1)))
    as (child & Hcopy & Hlen & Hperm).
  { eapply Forall_impl; [exact Hrange|]. intros pos Hpos. cbn in Hpos.
    by apply lookup_replicate_2. }
  destruct (selected_ops_spec p1 positions Hsome) as (sel & Hsel & Hinsel).
  rewrite filled_replicate, app_nil_r in Hperm. rewrite length_replicate in Hlen.
  set (vals := omap (fun pos => p1 !! pos) positions) in *.
  destruct (fill_positions_perm n child vals p2 (filter (fun x => x ∉ vals) p2))
    as (r & Hr & Hpr); try done.
  - by apply NoDup_omap_lookup.
  - intros x (pos & _ & Hx)%list_elem_of_omap. apply Hin2, Hin1.
    by eapply list_elem_of_lookup_2.
  - exists child, sel, r. split; [done|]. split; [done|]. split; [|done].
    unfold fill_remaining_pbx. rewrite <- Hr. f_equal.
    apply filter_ext_in. intros x _. by rewrite Hinsel.
Qed.

Lemma used_inv_empty (n : nat) : used_inv n ([], ∅).
Proof.
  split; [constructor|]. split; cbn.
  - intros x. set_solver.
  - intros x Hx. by apply elem_of_nil in Hx.
Qed.

Lemma uniform_take_inv (n : nat) (seq : list Z) (used : gset Z) (x : Z) :
  used_inv n (seq, used) → 0 <= x < Z.of_nat n →
  used_inv n (uniform_take seq used x).
Proof.
  intros (Hnd & Hused & Hrange) Hx. unfold uniform_take. cbn in *.
  case_bool_decide as Hin; [done|]. split; [|split]; cbn.
  - apply NoDup_app. split; [done|]. split; [|apply NoDup_singleton].
    intros y Hy Hy'%list_elem_of_singleton. subst y. by apply Hin, Hused.
  - intros y. rewrite elem_of_union, elem_of_singleton, elem_of_app,
      list_elem_of_singleton, Hused. tauto.
  - intros y [Hy|Hy%list_elem_of_singleton]%elem_of_app; [by apply Hrange|by subst y].
Qed.

Lemma uniform_loop_spec (n : nat) (p1 p2 : list Z) (coins : list bool) :
  is_permutation_of_range n p1 → is_permutation_of_range n p2 →
  ∀ i c1 c2, (i + length coins <= n)%nat → used_inv n c1 → used_inv n c2 →
    ∃ c1' c2', uniform_loop coins i p1 p2 c1 c2 = Ok (c1', c2') ∧
               used_inv n c1' ∧ used_inv n c2'.
Proof.
  intros H1 H2.
  destruct (range_perm_facts n p1 H1) as (_ & Hlen1 & _ & Hin1).
  destruct (range_perm_facts n p2 H2) as (_ & Hlen2 & _ & Hin2).
  induction coins as [|c coins IH]; intros i c1 c2 Hi Hc1 Hc2.
  - exists c1, c2. by cbn.
  - cbn [uniform_loop]. cbn in Hi.
    destruct (lookup_lt_is_Some_2 p1 i ltac:(lia)) as [a Ha].
    destruct (lookup_lt_is_Some_2 p2 i ltac:(lia)) as [b Hb].
    rewrite Ha, Hb. cbn [of_option mbind result_bind].
    assert (0 <= a < Z.of_nat n) as Har by (by apply Hin1; eapply list_elem_of_lookup_2).
    assert (0 <= b < Z.of_nat n) as Hbr by (by apply Hin2; eapply list_elem_of_lookup_2).
    destruct c1 as [s1 u1], c2 as [s2 u2]. cbn [fst snd].
    destruct c; apply IH; try lia; by apply uniform_take_inv.
Qed.

Lemma used_inv_complete (n : nat) (seq : list Z) (used : gset Z) :
  used_inv n (seq, used) → is_permutation_of_range n (seq ++ missing_ops n used).
Proof.
  intros (Hnd & Hused & Hrange). cbn in *. unfold is_permutation_of_range, missing_ops.
  apply NoDup_Permutation; [|apply NoDup_seqZ|].
  - apply NoDup_app. split; [done|]. split; [|apply NoDup_filter, NoDup_seqZ].
    intros x Hx [Hnx _]%list_elem_of_filter. by apply Hnx, Hused.
  - intros x. rewrite elem_of_app, list_elem_of_filter, elem_of_seqZ. split.
    + intros [Hx%Hrange|[_ Hx]]; lia.
    + intros Hx. destruct (decide (x ∈ seq)) as [?|Hn]; [by left|].
      right. split; [|lia]. intros Hu%Hused. done.
Qed.

Lemma cross_machines_returns (ma1 ma2 : list Z) (coins : list bool) :
  ∀ i, (i + length coins <= length ma1)%nat → (i + length coins <= length ma2)%nat →
       ∃ c1 c2, cross_machines coins i ma1 ma2 = Ok (c1, c2).
Proof.
  induction coins as [|c coins IH]; intros i H1 H2; [by exists [], []|].
  cbn [cross_machines]. cbn in H1, H2.
  destruct (lookup_lt_is_Some_2 ma1 i ltac:(lia)) as [a ->].
  destruct (lookup_lt_is_Some_2 ma2 i ltac:(lia)) as [b ->].
  cbn [of_option mbind result_bind].
  destruct (IH (S i) ltac:(lia) ltac:(lia)) as (c1 & c2 & ->).
  cbn. destruct c; by eexists _, _.
Qed.

(** C4. When both parents carry a permutation of [0..n-1], both children
    of [order_crossover], [uniform_crossover] and
    [position_based_crossover] carry one, whatever the random draws; and
    [mutate_individual] leaves the sequence of an individual a permutation
    of [0..n-1]. *)
Theorem genetic_operators_preserve_permutation (n : nat) (parent1 parent2 : Individual) :
  is_permutation_of_range n (operation_sequence parent1) →
  is_permutation_of_range n (operation_sequence parent2) →
  (∀ start end_ coin child1 child2,
     (start < end_ < n)%nat →
     order_crossover parent1 parent2 start end_ coin = Ok (child1, child2) →
     is_permutation_of_range n (operation_sequence child1) ∧
     is_permutation_of_range n (operation_sequence child2)) ∧
  (∀ mcoin scoin child1 child2,
     uniform_crossover parent1 parent2 mcoin scoin = Ok (child1, child2) →
     is_permutation_of_range n (operation_sequence child1) ∧
     is_permutation_of_range n (operation_sequence child2)) ∧
  (∀ positions child1 child2,
     is_sample n (n `div` 3) positions →
     position_based_crossover parent1 parent2 positions = Ok (child1, child2) →
     is_permutation_of_range n (operation_sequence child1) ∧
     is_permutation_of_range n (operation_sequence child2)) ∧
  (∀ draws m mutated,
     mutate_individual parent1 draws m = Ok mutated →
     is_permutation_of_range n (operation_sequence mutated)).
Proof.
  intros H1 H2.
  destruct (range_perm_facts n _ H1) as (_ & Hlen1 & _ & _).
  destruct (range_perm_facts n _ H2) as (_ & Hlen2 & _ & _).
  split; [|split; [|split]].
  - intros start end_ coin child1 child2 Hdraw H.
    unfold order_crossover in H. rewrite Hlen1 in H.
    case_bool_decide; [done|].
    destruct (order_child_perm n _ _ start end_ H1 H2 Hdraw) as (r1 & Hr1 & Hp1).
    destruct (order_child_perm n _ _ start end_ H2 H1 Hdraw) as (r2 & Hr2 & Hp2).
    rewrite Hr1 in H. cbn [mbind result_bind] in H. rewrite Hr2 in H.
    cbn [mbind result_bind] in H. inv_bind H. destruct a as [m1 m2].
    by injection H as <- <-.
  - intros mcoin scoin child1 child2 H.
    unfold uniform_crossover in H. rewrite Hlen1 in H.
    inv_bind H. destruct a as [m1 m2].
    destruct (uniform_loop_spec n _ _ (scoin <$> seq 0 n) H1 H2 0 ([], ∅) ([], ∅))
      as ([s1 u1] & [s2 u2] & Hloop & Hi1 & Hi2);
      [rewrite length_fmap, length_seq; lia|apply used_inv_empty|apply used_inv_empty|].
    rewrite Hloop in H. cbn [mbind result_bind] in H. injection H as <- <-.
    split; by apply used_inv_complete.
  - intros positions child1 child2 (_ & Hnd & Hrange) H.
    unfold position_based_crossover in H. rewrite Hlen1 in H.
    inv_bind H. inv_bind H.
    destruct (pbx_child_perm n _ _ positions H1 H2 Hnd Hrange)
      as (c1 & sel1 & r1 & Hc1 & Hs1 & Hr1 & Hp1).
    destruct (pbx_child_perm n _ _ positions H2 H1 Hnd Hrange)
      as (c2 & sel2 & r2 & Hc2 & Hs2 & Hr2 & Hp2).
    rewrite Hc1 in H. cbn [mbind result_bind] in H.
    rewrite Hc2 in H. cbn [mbind result_bind] in H.
    rewrite Hs1 in H. cbn [mbind result_bind] in H.
    rewrite Hs2 in H. cbn [mbind result_bind] in H.
    rewrite Hr1 in H. cbn [mbind result_bind] in H.
    rewrite Hr2 in H. cbn [mbind result_bind] in H.
    by injection H as <- <-.
  - intros draws m mutated H. unfold mutate_individual in H. inv_bind H.
    injection H as <-. cbn. unfold is_permutation_of_range.
    by rewrite (mutate_sequence_perm m _ _ Ha).
Qed.

(** The operators do return children: on parents with [n] machine genes
    and for draws in range, no list access fails. *)
Lemma genetic_operators_return (n : nat) (parent1 parent2 : Individual) :
  is_permutation_of_range n (operation_sequence parent1) →
  is_permutation_of_range n (operation_sequence parent2) →
  length (machine_assignment parent1) = n → length (machine_assignment parent2) = n →
  (∀ start end_ coin, (start < end_ < n)%nat →
     is_ok (order_crossover parent1 parent2 start end_ coin) = true) ∧
  (∀ mcoin scoin, is_ok (uniform_crossover parent1 parent2 mcoin scoin) = true) ∧
  (∀ positions, is_sample n (n `div` 3) positions →
     is_ok (position_based_crossover parent1 parent2 positions) = true) ∧
  (∀ draws m, seq_mutation_drawn n m →
     is_ok (mutate_individual parent1 draws m) = true).
Proof.
  intros H1 H2 Hm1 Hm2.
  destruct (range_perm_facts n _ H1) as (_ & Hlen1 & Hne1 & _).
  destruct (range_perm_facts n _ H2) as (_ & Hlen2 & Hne2 & _).
  split; [|split; [|split]].
  - intros start end_ coin Hdraw. unfold order_crossover. rewrite Hlen1.
    rewrite bool_decide_eq_false_2 by lia.
    destruct (order_child_perm n _ _ start end_ H1 H2 Hdraw) as (r1 & -> & _).
    destruct (order_child_perm n _ _ start end_ H2 H1 Hdraw) as (r2 & -> & _).
    cbn [mbind result_bind].
    destruct (cross_machines_returns (machine_assignment parent1)
                (machine_assignment parent2) (coin <$> seq 0 n) 0) as (c1 & c2 & ->);
      [rewrite length_fmap, length_seq; lia..|done].
  - intros mcoin scoin. unfold uniform_crossover. rewrite Hlen1, Hm1.
    destruct (cross_machines_returns (machine_assignment parent1)
                (machine_assignment parent2) (mcoin <$> seq 0 n) 0) as (c1 & c2 & ->);
      [rewrite length_fmap, length_seq; lia..|].
    cbn [mbind result_bind].
    destruct (uniform_loop_spec n _ _ (scoin <$> seq 0 n) H1 H2 0 ([], ∅) ([], ∅))
      as ([s1 u1] & [s2 u2] & -> & _);
      [rewrite length_fmap, length_seq; lia|apply used_inv_empty|apply used_inv_empty|].
    done.
  - intros positions (_ & Hnd & Hrange). unfold position_based_crossover. rewrite Hlen1.
    assert (∀ ma ma' : list Z, length ma = n → length ma' = n →
              is_ok (copy_positions positions ma ma') = true) as Hcopy.
    { clear -Hrange. induction positions as [|pos rest IH]; intros ma ma' Hl Hl'; [done|].
      apply Forall_cons in Hrange as [Hpos Hrange]. cbn [copy_positions].
      destruct (lookup_lt_is_Some_2 ma' pos ltac:(lia)) as [v ->]. cbn.
      unfold py_setitem. rewrite bool_decide_eq_true_2 by lia. cbn.
      apply IH; [done| |done]. by rewrite length_insert. }
    pose proof (Hcopy _ _ Hm1 Hm2) as Hcm1. pose proof (Hcopy _ _ Hm2 Hm1) as Hcm2.
    destruct (copy_positions positions (machine_assignment parent1) _) as [cm1|];
      [|done].
    destruct (copy_positions positions (machine_assignment parent2) _) as [cm2|];
      [|done].
    cbn [mbind result_bind].
    destruct (pbx_child_perm n _ _ positions H1 H2 Hnd Hrange)
      as (c1 & sel1 & r1 & Hc1 & Hs1 & Hr1 & _).
    destruct (pbx_child_perm n _ _ positions H2 H1 Hnd Hrange)
      as (c2 & sel2 & r2 & Hc2 & Hs2 & Hr2 & _).
    rewrite Hc1. cbn [mbind result_bind]. rewrite Hc2. cbn [mbind result_bind].
    rewrite Hs1. cbn [mbind result_bind]. rewrite Hs2. cbn [mbind result_bind].
    rewrite Hr1. cbn [mbind result_bind]. rewrite Hr2. done.
  - intros draws m Hm. unfold mutate_individual.
    rewrite <- Hlen1 in Hm. by destruct (mutate_sequence_returns m _ Hm) as [r ->].
Qed.

Lemma genetic_operators_preserve_permutation_witness :
  ∃ child1 child2,
    order_crossover parent_a parent_b 1 3 (fun _ => true) = Ok (child1, child2) ∧
    is_permutation_of_range 4 (operation_sequence child1) ∧
    is_permutation_of_range 4 (operation_sequence child2).
Proof.
  assert (is_permutation_of_range 4 (operation_sequence parent_a)) as Ha
    by (unfold is_permutation_of_range; reflexivity).
  assert (is_permutation_of_range 4 (operation_sequence parent_b)) as Hb
    by exact (reverse_Permutation [0; 1; 2; 3]).
  destruct (genetic_operators_preserve_permutation 4 parent_a parent_b Ha Hb) as (Hox & _).
  exists (new_individual [0; 1; 0; 1] [3; 1; 2; 0]),
         (new_individual [1; 0; 1; 0] [0; 2; 1; 3]).
  split; [by vm_compute|]. apply (Hox 1%nat 3%nat (fun _ => true)); [lia|by vm_compute].
Defined.

(** ** Building the problem model *)



Lemma split_aux_nonempty (sep : string) (s : string) :
  ∀ skip cur, ∃ x rest, split_aux sep skip cur s = x :: rest.
Proof.
  induction s as [|c s IH]; intros skip cur; cbn [split_aux]; [by eexists _, _|].
  destruct skip as [|k]; [|apply IH].
  destruct (String.prefix sep (String c s)); [by eexists _, _|apply IH].
Qed.


(** An entry whose product is no key of the mapping adds no order. *)
Lemma load_order_unknown (username timestamp : string) (d : OrderData) :
  job_operation_mapping !! lower (product d) = None →
  load_order username timestamp d = [].
Proof. unfold load_order. by intros ->. Qed.















(** ** Every built problem has well-formed task identifiers *)

Lemma prefix_append (sep b : string) : String.prefix sep (sep +:+ b) = true.
Proof.
  induction sep as [|c sep IH]; simpl; [by destruct b|].
  destruct (ascii_dec c c); [exact IH|done].
Qed.

Lemma split_aux_separator (sep a b : string) :
  sep ≠ "" → ∀ cur, (2 <= length (split_aux sep 0 cur (a +:+ sep +:+ b)))%nat.
Proof.
  intros Hsep. induction a as [|c a IH]; intros cur.
  - change ("" +:+ sep +:+ b) with (sep +:+ b).
    pose proof (prefix_append sep b) as Hp.
    destruct sep as [|c sep]; [done|].
    change (String c sep +:+ b) with (String c (sep +:+ b)) in *.
    cbn [split_aux]. rewrite Hp.
    destruct (split_aux_nonempty (String c sep) (sep +:+ b)
                (String.length (String c sep) - 1) "") as (x & rest & ->).
    cbn. lia.
  - change (String c a +:+ sep +:+ b) with (String c (a +:+ sep +:+ b)).
    cbn [split_aux]. destruct (String.prefix sep _).
    + destruct (split_aux_nonempty sep (a +:+ sep +:+ b) (String.length sep - 1) "")
        as (x & rest & ->).
      cbn. lia.
    + apply IH.
Qed.

Lemma unit_key_of_built_task (oid jn rest : string) (op_idx : nat) :
  is_ok (unit_key (mkTask oid jn op_idx (oid +:+ "_unit" +:+ rest))) = true.
Proof.
  unfold unit_key. cbn [task_id order_id].
  pose proof (split_aux_separator "_unit" oid rest ltac:(done) "") as Hlen.
  unfold split. destruct (split_aux "_unit" 0 "" (oid +:+ "_unit" +:+ rest))
    as [|x [|piece l]]; cbn in Hlen; [lia|lia|].
  rewrite (py_index_nat _ 1). cbn [lookup list_lookup of_option mbind result_bind].
  destruct (split_aux_nonempty "_" piece 0 "") as (y & l' & ->).
  by rewrite (py_index_nat _ 0).
Qed.

Lemma foldM_preserves {A B : Type} (f : B → A → result B) (I : B → Prop) (l : list A) :
  (∀ b a b', I b → f b a = Ok b' → I b') →
  ∀ b b', I b → foldM f b l = Ok b' → I b'.
Proof.
  intros Hstep. induction l as [|a l IH]; intros b b' Hb H; cbn in H.
  - by injection H as <-.
  - inv_bind H. eapply IH; [|done]. by eapply Hstep.
Qed.

Lemma prepare_operation_well_formed (ms : list string) (o : Order) (job : Job)
    (unit : nat) (st st' : list OpInfo * gmap nat (list Z)) (op_idx : nat) :
  Forall (fun op => is_ok (unit_key (op_task op)) = true) st.1 →
  prepare_operation ms o job unit st op_idx = Ok st' →
  Forall (fun op => is_ok (unit_key (op_task op)) = true) st'.1.
Proof.
  destruct st as [ops o2m]. intros Hst Hop. unfold prepare_operation in Hop.
  inv_bind Hop. inv_bind Hop. injection Hop as <-. cbn [fst] in *.
  apply Forall_app. split; [done|]. constructor; [|done]. cbn [op_task].
  apply unit_key_of_built_task.
Qed.

Lemma prepare_order_well_formed (ms : list string) (js : gmap string Job)
    (st st' : list OpInfo * gmap nat (list Z)) (o : Order) :
  Forall (fun op => is_ok (unit_key (op_task op)) = true) st.1 →
  prepare_order ms js st o = Ok st' →
  Forall (fun op => is_ok (unit_key (op_task op)) = true) st'.1.
Proof.
  intros Hst Ho. unfold prepare_order in Ho. inv_bind Ho.
  eapply (foldM_preserves _
            (fun st => Forall (fun op => is_ok (unit_key (op_task op)) = true) st.1));
    [|exact Hst|exact Ho].
  intros st1 unit st1' Hst1 Hunit.
  eapply (foldM_preserves _
            (fun st => Forall (fun op => is_ok (unit_key (op_task op)) = true) st.1));
    [|exact Hst1|exact Hunit].
  intros st2 op_idx st2' Hst2 Hop. by eapply prepare_operation_well_formed.
Qed.

Lemma prepare_problem_data_well_formed (s s' : Scheduler) :
  prepare_problem_data s = Ok s' → tasks_well_formed s'.
Proof.
  unfold prepare_problem_data. intros H. inv_bind H. destruct a as [ops o2m].
  injection H as <-. unfold tasks_well_formed. cbn [all_operations set_problem_data].
  change ops with (ops, o2m).1.
  eapply (foldM_preserves _
            (fun st => Forall (fun op => is_ok (unit_key (op_task op)) = true) st.1));
    [| |exact Ha].
  - intros st o st' Hst Ho. by eapply prepare_order_well_formed.
  - cbn. constructor.
Qed.

Lemma build_problem_model_well_formed (s s' : Scheduler)
    (file : result (list (result (list Z)))) (machine_order : list string)
    (files : result (list OrderFile)) :
  build_problem_model s file machine_order files = Ok s' → tasks_well_formed s'.
Proof.
  unfold build_problem_model. intros H. inv_bind H.
  by eapply prepare_problem_data_well_formed.
Qed.

(** ** The decoder: what every run of the loop leaves behind *)

Lemma py_index_Ok_lt {A : Type} (l : list A) (i : Z) (x : A) :
  py_index l i = Ok x → i < Z.of_nat (length l).
Proof.
  unfold py_index. intros H.
  case_bool_decide as H0.
  - apply of_option_Ok in H. apply lookup_lt_Some in H. lia.
  - lia.
Qed.

Lemma gene_lookup_parts (s : Scheduler) (ind : Individual) (op_id : Z)
    (op : OpInfo) (m : string) (p : Z) :
  gene_lookup s ind op_id = Ok (op, m, p) →
  py_index (all_operations s) op_id = Ok op ∧
  (∃ idx, py_index (machine_assignment ind) op_id = Ok idx ∧
          py_index (machines s) idx = Ok m) ∧
  p = default 10 (op_processing_times op !! m).
Proof.
  unfold gene_lookup. intros H.
  inv_bind H. inv_bind H. inv_bind H. simplify_eq.
  split; [done|]. split; [|done]. by eexists.
Qed.

(** X1. When the decoder returns, the schedule has one task per gene of
    the operation sequence, in sequence order; the task at position [k] is
    the task of the operation the [k]-th gene names, on the machine the
    chromosome assigns to it, which is one of the scheduler's machines, and
    it ends its duration after it starts. *)
Theorem decode_one_task_per_gene (s : Scheduler) (ind : Individual)
    (sched : list ScheduledTask) :
  decode s ind = Ok sched →
  length sched = length (operation_sequence ind) ∧
  Forall2 (decoded_from s ind) (operation_sequence ind) sched ∧
  ∀ t, t ∈ sched →
    machine_id t ∈ machines s ∧ (∃ op, op ∈ all_operations s ∧ task t = op_task op) ∧
    end_time t = start_time t + processing_time t.
Proof.
  rewrite decode_refines_spec. unfold spec_decode. intros H. inv_bind H.
  simplify_eq.
  destruct (spec_loop_tasks s ind (operation_sequence ind) spec_init a Ha)
    as (new & Hnew & Hall).
  cbn in Hnew. rewrite Hnew.
  split; [symmetry; exact (Forall2_length _ _ _ Hall)|].
  split; [exact Hall|].
  intros t Ht. apply list_elem_of_lookup in Ht as [k Hk].
  destruct (Forall2_lookup_r _ _ _ _ _ Hall Hk) as (g & _ & op & m & p & Hg & Htask & Hm & Hp & He).
  destruct (gene_lookup_Ok s ind g op m p Hg) as (Hop & Hmm & _).
  split; [by rewrite Hm|]. split; [by exists op|]. by rewrite Hp.
Qed.

Lemma decode_one_task_per_gene_witness :
  decode sample sample_individual = Ok sample_schedule ∧
  length sample_schedule = length (operation_sequence sample_individual).
Proof.
  split; [by vm_compute|].
  apply (decode_one_task_per_gene sample sample_individual sample_schedule).
  by vm_compute.
Defined.

Lemma py_index_raises {A : Type} (l : list A) (i : Z) (e : exn) :
  py_index l i = Raise e → e = IndexError.
Proof.
  unfold py_index. repeat case_bool_decide; intros Hr.
  - destruct (l !! Z.to_nat i); simpl in Hr; congruence.
  - destruct (l !! Z.to_nat _); simpl in Hr; congruence.
  - congruence.
Qed.

Lemma unit_key_raises (t : Task) (e : exn) : unit_key t = Raise e → e = IndexError.
Proof.
  unfold unit_key. intros H.
  apply bind_Raise in H as [H|(piece & _ & H)]; [by apply py_index_raises in H|].
  apply bind_Raise in H as [H|(unit & _ & H)]; [by apply py_index_raises in H|].
  discriminate.
Qed.

Lemma gene_lookup_raises (s : Scheduler) (ind : Individual) (op_id : Z) (e : exn) :
  gene_lookup s ind op_id = Raise e → e = IndexError.
Proof.
  unfold gene_lookup. intros H.
  apply bind_Raise in H as [H|(? & _ & H)]; [by apply py_index_raises in H|].
  apply bind_Raise in H as [H|(? & _ & H)]; [by apply py_index_raises in H|].
  apply bind_Raise in H as [H|(? & _ & H)]; [by apply py_index_raises in H|].
  discriminate.
Qed.

Lemma spec_loop_raises (s : Scheduler) (ind : Individual) (seq : list Z) (e : exn) :
  ∀ sp, spec_loop s ind sp seq = Raise e → e = IndexError.
Proof.
  induction seq as [|g rest IH]; intros sp H; [discriminate|].
  cbn [spec_loop] in H.
  apply bind_Raise in H as [H|(sp' & _ & H)]; [|by eapply IH].
  unfold spec_step in H.
  apply bind_Raise in H as [H|([[op m] p] & _ & H)]; [by apply gene_lookup_raises in H|].
  apply bind_Raise in H as [H|(u & _ & H)]; [by apply unit_key_raises in H|].
  discriminate.
Qed.

(** X2. The only exception the decoder raises is [IndexError] (a gene
    that is no index of a task or of a machine, or a task identifier
    without a unit number); it never fails on a machine key. The call of
    [evaluate_individual] then raises the same exception and leaves both
    the scheduler and the individual as they were. *)
Theorem decode_raises_only_index_error (s : Scheduler) (ind : Individual) (e : exn) :
  decode s ind = Raise e →
  e = IndexError ∧ evaluate_individual s ind = (s, ind, Raise IndexError).
Proof.
  intros H. assert (e = IndexError) as ->.
  { rewrite decode_refines_spec in H. unfold spec_decode in H.
    apply bind_Raise in H as [H|(sp & _ & H)]; [|discriminate].
    by apply spec_loop_raises in H. }
  split; [done|]. unfold evaluate_individual. by rewrite H.
Qed.

Lemma decode_raises_only_index_error_witness :
  decode sample (new_individual [3] [6]) = Raise IndexError ∧
  evaluate_individual sample (new_individual [3] [6])
  = (sample, new_individual [3] [6], Raise IndexError).
Proof.
  split; [by vm_compute|].
  apply (decode_raises_only_index_error sample (new_individual [3] [6]) IndexError).
  by vm_compute.
Defined.

Lemma decode_step_Ok (s : Scheduler) (ind : Individual) (st st' : DecodeState)
    (op_id : Z) :
  decode_step s ind st op_id = Ok st' →
  ∃ op m p ms start juc,
    gene_lookup s ind op_id = Ok (op, m, p) ∧
    machine_states st !! m = Some ms ∧
    available_time ms <= start ∧
    st' = mkDecodeState
            (<[m := mkMachineState (ms_machine_id ms) (start + p)
                      (scheduled_tasks ms
                       ++ [mkScheduledTask (op_task op) (ms_machine_id ms) start
                             (start + p) p])]> (machine_states st))
            (scheduled st
             ++ [mkScheduledTask (op_task op) (ms_machine_id ms) start (start + p) p])
            juc.
Proof.
  unfold decode_step. intros H.
  destruct (gene_lookup s ind op_id) as [[[op m] p]|e] eqn:Hg; [|done].
  cbn -[juc_read juc_write schedule_task] in H.
  destruct (machine_states st !! m) as [ms|] eqn:Hms; [|done].
  cbn -[juc_read juc_write schedule_task] in H.
  destruct (unit_key (op_task op)) as [u|e] eqn:Hu.
  2: { case_bool_decide; cbn in H; done. }
  case_bool_decide as Hidx; cbn -[juc_read juc_write schedule_task] in H.
  - destruct (juc_read (job_unit_completion st) u _) as [prev juc].
    cbn -[juc_write] in H.
    exists op, m, p, ms, (Z.max (available_time ms) prev), 
      (juc_write juc u (operation_idx (op_task op))
         (Z.max (available_time ms) prev + p)).
    split; [done|]. split; [done|]. split; [lia|].
    replace (Z.max (Z.max (available_time ms) prev) (available_time ms))
      with (Z.max (available_time ms) prev) in H by lia.
    by simplify_eq.
  - cbn -[juc_write] in H.
    exists op, m, p, ms, (available_time ms),
      (juc_write (job_unit_completion st) u (operation_idx (op_task op))
         (available_time ms + p)).
    split; [done|]. split; [done|]. split; [lia|].
    replace (Z.max (available_time ms) (available_time ms))
      with (available_time ms) in H by lia.
    by simplify_eq.
Qed.

Lemma decode_step_record (s : Scheduler) (ind : Individual) (st st' : DecodeState)
    (op_id : Z) :
  machine_record_inv st → decode_step s ind st op_id = Ok st' → machine_record_inv st'.
Proof.
  intros Hinv H.
  apply decode_step_Ok in H as (op & m & p & ms & start & juc & _ & Hms & _ & ->).
  destruct (Hinv m ms Hms) as (Hid & Htasks & _).
  intros m' ms'. cbn [machine_states scheduled].
  destruct (decide (m = m')) as [<-|Hne].
  - rewrite lookup_insert_eq. intros [= <-]. cbn [ms_machine_id scheduled_tasks available_time].
    split; [done|]. split.
    + rewrite filter_app, <- Htasks, filter_cons_True by done. done.
    + by rewrite last_snoc.
  - rewrite lookup_insert_ne by done. intros Hms'.
    destruct (Hinv m' ms' Hms') as (Hid' & Htasks' & Hav').
    split; [done|]. split; [|done].
    rewrite filter_app, <- Htasks', filter_cons_False; [by rewrite app_nil_r|].
    cbn. congruence.
Qed.

Lemma decode_loop_record (s : Scheduler) (ind : Individual) (seq : list Z) :
  ∀ st st', machine_record_inv st → decode_loop s ind st seq = Ok st' →
            machine_record_inv st'.
Proof.
  induction seq as [|g rest IH]; intros st st' Hinv H; [cbn in H; by simplify_eq|].
  cbn [decode_loop] in H. inv_bind H.
  exact (IH a st' (decode_step_record s ind st a g Hinv Ha) H).
Qed.

(** X3. When the decoding loop ends, the record of every machine of the
    scheduler carries the machine's own identifier, its [scheduled_tasks]
    are exactly the tasks of the schedule on that machine, in decoding
    order, and its [available_time] is the end of the last of them (0 for a
    machine that got no task). *)
Theorem decode_machine_records (s : Scheduler) (ind : Individual) (st : DecodeState) :
  decode_loop s ind (decode_init s) (operation_sequence ind) = Ok st →
  ∀ m, m ∈ machines s →
    ∃ ms, machine_states st !! m = Some ms ∧
          ms_machine_id ms = m ∧
          scheduled_tasks ms = filter (fun t => machine_id t = m) (scheduled st) ∧
          available_time ms = default 0 (end_time <$> last (scheduled_tasks ms)).
Proof.
  intros H m Hm.
  destruct (decode_loop_sim_Ok s ind _ _ _ _ (sim_init s) H) as (sp & _ & _ & Hms & _).
  destruct (Hms m Hm) as (ms & Hlk & _).
  exists ms. split; [done|].
  apply (decode_loop_record s ind (operation_sequence ind) (decode_init s) st); [|done|done].
  intros m' ms'. cbn [decode_init machine_states scheduled].
  rewrite reset_machine_states_lookup. case_bool_decide; [|done].
  by intros [= <-].
Qed.

Lemma decode_machine_records_witness :
  ∃ ms, machine_states sample_decoded !! "M4" = Some ms ∧
        scheduled_tasks ms
        = filter (fun t => machine_id t = "M4") (scheduled sample_decoded).
Proof.
  destruct (decode_machine_records sample sample_individual sample_decoded) with (m := "M4")
    as (ms & Hlk & _ & Htasks & _).
  - by vm_compute.
  - apply (bool_decide_unpack _). by vm_compute.
  - exists ms. exact (conj Hlk Htasks).
Defined.

(** ** The load estimate of the NEH seed bounds the makespan from below *)

Lemma foldr_max_elem (t : Z) (ts : list Z) : foldr Z.max t ts ∈ t :: ts.
Proof.
  induction ts as [|x ts IH]; [by left|]. cbn [foldr].
  destruct (Z.max_spec x (foldr Z.max t ts)) as [[_ ->]|[_ ->]].
  - apply elem_of_cons in IH as [->|IH]; [by left|]. by do 2 right.
  - right. by left.
Qed.

Lemma foldr_max_ge (t : Z) (ts : list Z) (x : Z) : x ∈ t :: ts → x <= foldr Z.max t ts.
Proof.
  induction ts as [|y ts IH]; intros Hx.
  - apply list_elem_of_singleton in Hx as ->. cbn. lia.
  - cbn [foldr]. apply elem_of_cons in Hx as [->|Hx].
    + assert (t <= foldr Z.max t ts) by (apply IH; by left). lia.
    + apply elem_of_cons in Hx as [->|Hx]; [lia|].
      assert (x <= foldr Z.max t ts) by (apply IH; by right). lia.
Qed.


Lemma estimate_step_Ok (s : Scheduler) (ind : Individual) (mt : gmap string Z)
    (g : Z) (op : OpInfo) (m : string) (p : Z) :
  gene_lookup s ind g = Ok (op, m, p) →
  estimate_step s ind mt g = Ok (<[m := default 0 (mt !! m) + p]> mt).
Proof.
  intros Hg. apply gene_lookup_parts in Hg as (Hop & (idx & Hidx & Hm) & ->).
  unfold estimate_step.
  rewrite bool_decide_eq_true_2 by (by eapply py_index_Ok_lt).
  rewrite Hidx. cbn [mbind result_bind].
  rewrite bool_decide_eq_true_2 by (by eapply py_index_Ok_lt).
  rewrite Hm. cbn [mbind result_bind].
  rewrite bool_decide_eq_true_2 by (by eapply py_index_Ok_lt).
  rewrite Hop. done.
Qed.

Lemma estimate_inv_step (s : Scheduler) (ind : Individual) (mt : gmap string Z)
    (sp sp' : SpecState) (g : Z) :
  estimate_inv mt sp → spec_step s ind sp g = Ok sp' →
  ∃ mt', estimate_step s ind mt g = Ok mt' ∧ estimate_inv mt' sp'.
Proof.
  intros (Hload & Hcur & Htask) H.
  apply spec_step_Ok in H as (op & m & p & u & Hg & _ & Hsp). cbn zeta in Hsp.
  set (start := spec_start (default 0 (cursor sp !! m))
                  (spec_predecessor_completion sp u (operation_idx (op_task op)))) in *.
  assert (default 0 (cursor sp !! m) <= start) as Hstart by apply spec_start_ge_cursor.
  eexists. split; [exact (estimate_step_Ok s ind mt g op m p Hg)|].
  subst sp'. split; [|split]; cbn [cursor spec_tasks].
  - intros m'. destruct (decide (m = m')) as [<-|Hne].
    + rewrite !lookup_insert_eq. eexists. split; [done|].
      specialize (Hload m). destruct (mt !! m) as [v|].
      * destruct Hload as (c & Hc & Hv). rewrite Hc in Hstart. cbn in *. lia.
      * rewrite Hload in Hstart. cbn in *. lia.
    + rewrite !lookup_insert_ne by done. apply Hload.
  - intros m' c. destruct (decide (m = m')) as [<-|Hne].
    + rewrite lookup_insert_eq. intros [= <-].
      exists (mkScheduledTask (op_task op) m start (start + p) p). split; [|done].
      apply elem_of_app. right. by left.
    + rewrite lookup_insert_ne by done. intros Hc.
      destruct (Hcur m' c Hc) as (t & Ht & He). exists t. split; [|done].
      apply elem_of_app. by left.
  - intros t Ht. apply elem_of_app in Ht as [Ht|Ht].
    + destruct (decide (m = machine_id t)) as [<-|Hne].
      * by rewrite lookup_insert_eq.
      * rewrite lookup_insert_ne by done. by apply Htask.
    + apply list_elem_of_singleton in Ht as ->. cbn. by rewrite lookup_insert_eq.
Qed.

Lemma estimate_inv_loop (s : Scheduler) (ind : Individual) (seq : list Z) :
  ∀ mt sp sp', estimate_inv mt sp → spec_loop s ind sp seq = Ok sp' →
    ∃ mt', foldM (estimate_step s ind) mt seq = Ok mt' ∧ estimate_inv mt' sp'.
Proof.
  induction seq as [|g rest IH]; intros mt sp sp' Hinv H.
  - cbn in H. simplify_eq. by exists mt.
  - cbn [spec_loop] in H. inv_bind H.
    destruct (estimate_inv_step s ind mt sp a g Hinv Ha) as (mt1 & Hstep & Hinv1).
    destruct (IH mt1 a sp' Hinv1 H) as (mt' & Hloop & Hinv').
    exists mt'. split; [|done]. cbn [foldM]. by rewrite Hstep.
Qed.



(** ** Tournament selection *)

Lemma fit_ltb_false (a b : Fitness) : fit_ltb a b = false → fit_leb b a = true.
Proof.
  destruct a, b; cbn; intros Hlt; try done.
  apply bool_decide_eq_false in Hlt. apply bool_decide_eq_true. lia.
Qed.

Lemma py_min_by_fitness (l : list Individual) :
  ∀ x,
    let w := foldl (fun best y => if fit_ltb (fitness y) (fitness best) then y else best)
               x l in
    w ∈ x :: l ∧ ∀ y, y ∈ x :: l → fit_leb (fitness w) (fitness y) = true.
Proof.
  induction l as [|z l IH]; intros x; cbn [foldl].
  - split; [by left|]. intros y ->%list_elem_of_singleton. apply fit_leb_refl.
  - destruct (IH (if fit_ltb (fitness z) (fitness x) then z else x)) as [Hin Hle].
    cbn zeta. split.
    + apply elem_of_cons in Hin as [->|Hin].
      * destruct (fit_ltb (fitness z) (fitness x)); [right; by left|by left].
      * by do 2 right.
    + intros y Hy.
      pose proof (Hle _ ltac:(by left)) as Hhead.
      apply elem_of_cons in Hy as [->|Hy]; [|apply elem_of_cons in Hy as [->|Hy]].
      * destruct (fit_ltb (fitness z) (fitness x)) eqn:Hlt; [|done].
        exact (fit_leb_trans _ _ _ Hhead (fit_ltb_leb _ _ Hlt)).
      * destruct (fit_ltb (fitness z) (fitness x)) eqn:Hlt; [done|].
        exact (fit_leb_trans _ _ _ Hhead (fit_ltb_false _ _ Hlt)).
      * apply Hle. by right.
Qed.

Lemma tournament_members (population : list Individual) (positions : list nat) :
  Forall (fun i => (i < length population)%nat) positions →
  ∃ t, mapM (fun i => of_option IndexError (population !! i)) positions = Ok t ∧
       Forall2 (fun i x => population !! i = Some x) positions t.
Proof.
  induction 1 as [|i positions Hi _ (t & Ht & Hall)].
  - exists []. by split.
  - apply lookup_lt_is_Some_2 in Hi as [x Hx].
    exists (x :: t). cbn [mapM]. rewrite Hx. cbn [of_option mbind result_bind].
    rewrite Ht. split; [done|]. by constructor.
Qed.

(** X5. [tournament_selection] returns, among the individuals that
    [random.sample] drew from the population, one whose fitness no drawn
    individual undercuts; it raises [ValueError] when nothing is drawn (an
    empty population or a tournament size of 0). *)
Theorem tournament_selection_least_of_drawn (population : list Individual)
    (tournament_size : nat) (positions : list nat) :
  is_sample (length population) (tournament_size `min` length population) positions →
  (population = [] ∨ tournament_size = 0%nat →
   tournament_selection population positions = Raise ValueError) ∧
  (population ≠ [] → tournament_size ≠ 0%nat →
   ∃ w, tournament_selection population positions = Ok w ∧
        (∃ i, i ∈ positions ∧ population !! i = Some w) ∧
        ∀ i x, i ∈ positions → population !! i = Some x →
               fit_leb (fitness w) (fitness x) = true).
Proof.
  intros (Hlen & _ & Hpos). unfold tournament_selection.
  destruct (tournament_members population positions Hpos) as (t & -> & Hall).
  cbn [mbind result_bind]. split.
  - intros Hempty. assert (positions = []) as ->.
    { apply length_zero_iff_nil. rewrite Hlen.
      destruct Hempty as [-> | ->]; cbn; lia. }
    by apply Forall2_nil_inv_l in Hall as ->.
  - intros Hne Hsize.
    destruct t as [|x t].
    { apply Forall2_nil_inv_r in Hall as ->. cbn in Hlen.
      destruct population; [done|]. cbn in Hlen. lia. }
    cbn [py_min_by]. eexists. split; [done|].
    destruct (py_min_by_fitness t x) as [Hin Hle]. cbn zeta in Hin, Hle. split.
    + apply list_elem_of_lookup in Hin as [k Hk].
      destruct (Forall2_lookup_r _ _ _ _ _ Hall Hk) as (i & Hi & Hlk).
      exists i. split; [|done]. by eapply list_elem_of_lookup_2.
    + intros i y Hi Hy. apply Hle.
      apply list_elem_of_lookup in Hi as [k Hk].
      destruct (Forall2_lookup_l _ _ _ _ _ Hall Hk) as (y' & Hy' & Hlk).
      rewrite Hy in Hlk. injection Hlk as <-. by eapply list_elem_of_lookup_2.
Qed.

Lemma tournament_selection_least_of_drawn_witness :
  ∃ w, tournament_selection [sample_evaluated; sample_individual] [1; 0]%nat = Ok w ∧
       ∀ i x, i ∈ [1; 0]%nat → [sample_evaluated; sample_individual] !! i = Some x →
              fit_leb (fitness w) (fitness x) = true.
Proof.
  destruct (tournament_selection_least_of_drawn
              [sample_evaluated; sample_individual] 3 [1; 0]%nat) as [_ H].
  - split; [done|]. split.
    + apply (bool_decide_unpack _). by vm_compute.
    + repeat constructor.
  - destruct H as (w & Hw & _ & Hle); [done|done|].
    exists w. exact (conj Hw Hle).
Defined.

(** ** Similarity and the solution archive *)

Lemma count_equal_strict_Ok (l1 l2 : list Z) (c : nat) :
  count_equal_strict l1 l2 = Ok c → (c <= length l1 <= length l2)%nat.
Proof.
  revert l2 c. induction l1 as [|x l1 IH]; intros [|y l2] c H; cbn in H;
    try (simplify_eq; cbn; lia).
  inv_bind H. apply IH in Ha. simplify_eq. cbn. case_bool_decide; lia.
Qed.

Lemma count_equal_strict_Raise (l1 l2 : list Z) (e : exn) :
  count_equal_strict l1 l2 = Raise e → e = IndexError ∧ (length l2 < length l1)%nat.
Proof.
  revert l2. induction l1 as [|x l1 IH]; intros [|y l2] H; cbn in H; try done.
  - simplify_eq. cbn. split; [done|lia].
  - apply bind_Raise in H as [H|(? & _ & H)]; [|done].
    apply IH in H as [-> ?]. cbn. split; [done|lia].
Qed.

Lemma count_equal_strict_same (l : list Z) : count_equal_strict l l = Ok (length l).
Proof.
  induction l as [|x l IH]; [done|]. cbn. rewrite IH. cbn.
  by rewrite bool_decide_eq_true_2.
Qed.

Lemma count_equal_guarded_le (l1 l2 : list Z) :
  (count_equal_guarded l1 l2 <= length l1)%nat.
Proof.
  revert l2. induction l1 as [|x l1 IH]; intros [|y l2]; cbn; try lia.
  specialize (IH l2). case_bool_decide; lia.
Qed.

Lemma count_equal_guarded_same (l : list Z) : count_equal_guarded l l = length l.
Proof.
  induction l as [|x l IH]; [done|]. cbn. by rewrite bool_decide_eq_true_2, IH.
Qed.

Lemma py_div_Ok (a : Q) (b : nat) :
  b ≠ 0%nat → py_div a b = Ok (a / inject_Z (Z.of_nat b))%Q.
Proof. by destruct b. Qed.

Lemma ratio_bounds (c n : nat) :
  (c <= n)%nat → n ≠ 0%nat →
  (0 <= inject_Z (Z.of_nat c) / inject_Z (Z.of_nat n) <= 1)%Q.
Proof.
  intros Hc Hn.
  assert (0 < inject_Z (Z.of_nat n))%Q as Hpos.
  { rewrite <- (Zlt_Qlt 0). lia. }
  split.
  - apply Qle_shift_div_l; [done|]. rewrite Qmult_0_l. rewrite <- (Zle_Qle 0). lia.
  - apply Qle_shift_div_r; [done|]. rewrite Qmult_1_l. rewrite <- Zle_Qle. lia.
Qed.

Lemma half_sum_bounds (a b : Q) :
  (0 <= a <= 1)%Q → (0 <= b <= 1)%Q → (0 <= (a + b) / 2 <= 1)%Q.
Proof.
  intros [Ha0 Ha1] [Hb0 Hb1]. split.
  - apply Qle_shift_div_l; [done|]. rewrite Qmult_0_l.
    rewrite <- (Qplus_0_r 0). by apply Qplus_le_compat.
  - apply Qle_shift_div_r; [done|]. rewrite Qmult_1_l.
    change (2 : Q) with (1 + 1)%Q. by apply Qplus_le_compat.
Qed.

(** X6. [calculate_similarity] returns exactly when the first individual
    has at least one machine gene and one sequence gene and the second has
    no fewer machine genes than the first. It raises [IndexError] when the
    second machine assignment is the shorter one, and otherwise
    [ZeroDivisionError] when the first individual has an empty machine
    assignment or an empty sequence. *)
Theorem calculate_similarity_defined (ind1 ind2 : Individual) :
  (is_ok (calculate_similarity ind1 ind2) = true ↔
   machine_assignment ind1 ≠ [] ∧ operation_sequence ind1 ≠ [] ∧
   (length (machine_assignment ind1) <= length (machine_assignment ind2))%nat) ∧
  ((length (machine_assignment ind2) < length (machine_assignment ind1))%nat →
   calculate_similarity ind1 ind2 = Raise IndexError) ∧
  ((length (machine_assignment ind1) <= length (machine_assignment ind2))%nat →
   machine_assignment ind1 = [] ∨ operation_sequence ind1 = [] →
   calculate_similarity ind1 ind2 = Raise ZeroDivisionError).
Proof.
  unfold calculate_similarity.
  destruct (count_equal_strict (machine_assignment ind1) (machine_assignment ind2))
    as [c|e] eqn:Hc.
  - apply count_equal_strict_Ok in Hc as [Hc Hlen].
    cbn [mbind result_bind].
    destruct (machine_assignment ind1) as [|m ma] eqn:Hma.
    { cbn. split; [split; [done|by intros (? & _)]|]. split; [cbn; lia|done]. }
    rewrite (py_div_Ok _ (length (m :: ma))) by done. cbn [mbind result_bind].
    destruct (operation_sequence ind1) as [|g seq] eqn:Hseq.
    { cbn. split; [split; [done|by intros (_ & ? & _)]|]. split; [cbn in Hlen; lia|done]. }
    rewrite (py_div_Ok _ (length (g :: seq))) by done. cbn [mbind result_bind is_ok].
    split; [split; [done|by intros _]|]. split; [cbn in Hlen |- *; lia|]. by intros _ [?|?].
  - apply count_equal_strict_Raise in Hc as [-> Hlen]. cbn.
    split; [split; [done|intros (_ & _ & ?); lia]|]. split; [done|lia].
Qed.

(** X7. A similarity that [calculate_similarity] returns lies between 0
    and 1, and the similarity of an individual with a non-empty chromosome
    to an individual with the same two gene lists is 1. *)
Theorem calculate_similarity_range (ind1 ind2 : Individual) (q : Q) :
  calculate_similarity ind1 ind2 = Ok q →
  (0 <= q <= 1)%Q ∧
  (machine_assignment ind2 = machine_assignment ind1 →
   operation_sequence ind2 = operation_sequence ind1 → (q == 1)%Q).
Proof.
  unfold calculate_similarity. intros H.
  inv_bind H. rename a into c, Ha into Hc.
  inv_bind H. rename a into q1, Ha into H1.
  inv_bind H. rename a into q2, Ha into H2. injection H as <-.
  assert (length (machine_assignment ind1) ≠ 0%nat) as Hn1.
  { intros Hz. rewrite Hz in H1. done. }
  assert (length (operation_sequence ind1) ≠ 0%nat) as Hn2.
  { intros Hz. rewrite Hz in H2. done. }
  rewrite py_div_Ok in H1 by done. rewrite py_div_Ok in H2 by done.
  injection H1 as <-. injection H2 as <-. split.
  - apply half_sum_bounds; apply ratio_bounds; try done.
    + by apply count_equal_strict_Ok in Hc as [? _].
    + apply count_equal_guarded_le.
  - intros Hma Hseq. rewrite Hma, count_equal_strict_same in Hc. injection Hc as <-.
    rewrite Hseq, count_equal_guarded_same.
    assert (∀ n : nat, n ≠ 0%nat →
              (inject_Z (Z.of_nat n) / inject_Z (Z.of_nat n) == 1)%Q) as Hone.
    { intros n Hn. apply Qmult_inv_r. rewrite (inject_Z_injective _ 0). lia. }
    rewrite !Hone by done. reflexivity.
Qed.

Lemma calculate_similarity_range_witness :
  ∃ q, calculate_similarity parent_a parent_b = Ok q ∧ (0 <= q <= 1)%Q.
Proof.
  destruct (calculate_similarity parent_a parent_b) as [q|e] eqn:Hq;
    [|by vm_compute in Hq].
  exists q. split; [done|].
  exact (proj1 (calculate_similarity_range parent_a parent_b q Hq)).
Defined.

Lemma update_solution_archive_bounded (s s1 : Scheduler) (ind : Individual) :
  (length (solution_archive s) <= archive_size s)%nat →
  _update_solution_archive s ind = Ok s1 →
  (length (solution_archive s1) <= archive_size s1)%nat ∧
  archive_size s1 = archive_size s ∧
  ∀ x, x ∈ solution_archive s1 → x ∈ solution_archive s ∨ x = ind.
Proof.
  intros Hlen H. unfold _update_solution_archive in H. inv_bind H.
  destruct a; [|by simplify_eq; auto].
  case_bool_decide as Hfull; simplify_eq; cbn.
  - split; [rewrite length_take; lia|]. split; [done|].
    intros x Hx. apply elem_of_take in Hx as (i & Hx & _).
    apply list_elem_of_lookup_2 in Hx. rewrite sort_by_fitness_perm in Hx.
    apply elem_of_app in Hx as [Hx|Hx]; [by left|].
    apply list_elem_of_singleton in Hx. by right.
  - split; [lia|]. split; [done|].
    intros x Hx. apply elem_of_app in Hx as [Hx|Hx]; [by left|].
    apply list_elem_of_singleton in Hx. by right.
Qed.

(** X8. [evaluate_individual] never lets the solution archive outgrow
    [archive_size]: if the archive was within the bound before the call it
    is within the bound after it, whether the call returns or raises. What
    the call adds is a copy of the evaluated individual taken before its
    schedule is stored: it carries the new fitness and the schedule the
    individual had before the call. *)
Theorem evaluate_individual_archive_bounded (s : Scheduler) (ind : Individual) :
  (length (solution_archive s) <= archive_size s)%nat →
  let s' := eval_scheduler (evaluate_individual s ind) in
  (length (solution_archive s') <= archive_size s')%nat ∧
  archive_size s' = archive_size s ∧
  ∀ x, x ∈ solution_archive s' →
    x ∈ solution_archive s ∨
    ∃ sched, decode s ind = Ok sched ∧
             x = mkIndividual (machine_assignment ind) (operation_sequence ind)
                   (Fin (makespan_of sched)) (Fin (makespan_of sched)) (schedule ind).
Proof.
  intros Hlen. unfold evaluate_individual, eval_scheduler.
  destruct (decode s ind) as [sched|e]; [|cbn; auto].
  destruct (use_archive_solutions s); [|cbn; auto].
  destruct (_update_solution_archive s _) as [s1|e] eqn:Hup; [|cbn; auto].
  cbn [fst]. destruct (update_solution_archive_bounded s s1 _ Hlen Hup) as (H1 & H2 & H3).
  split; [done|]. split; [done|].
  intros x Hx. destruct (H3 x Hx) as [?| ->]; [by left|]. right. by exists sched.
Qed.

Lemma evaluate_individual_archive_bounded_witness :
  (length (solution_archive
             (eval_scheduler (evaluate_individual sample sample_individual)))
   <= archive_size (eval_scheduler (evaluate_individual sample sample_individual)))%nat.
Proof.
  apply (evaluate_individual_archive_bounded sample sample_individual).
  apply (bool_decide_unpack _). by vm_compute.
Defined.





(** ** The tabu list of the neighbourhood search *)






(** ** What the crossovers inherit from the parents *)

Lemma cross_machines_spec (ma1 ma2 : list Z) (coins : list bool) :
  ∀ i c1 c2, cross_machines coins i ma1 ma2 = Ok (c1, c2) →
    length c1 = length coins ∧ length c2 = length coins ∧
    ∀ k, (k < length coins)%nat →
      ∃ a b, ma1 !! (i + k)%nat = Some a ∧ ma2 !! (i + k)%nat = Some b ∧
             ((c1 !! k = Some a ∧ c2 !! k = Some b) ∨
              (c1 !! k = Some b ∧ c2 !! k = Some a)).
Proof.
  induction coins as [|c coins IH]; intros i c1 c2 H.
  - cbn in H. simplify_eq. cbn. split; [done|]. split; [done|]. intros k Hk. lia.
  - cbn [cross_machines] in H.
    inv_bind H. rename a into a0, Ha into Ha0. apply of_option_Ok in Ha0.
    inv_bind H. rename a into b0, Ha into Hb0. apply of_option_Ok in Hb0.
    inv_bind H. destruct a as [d1 d2].
    destruct (IH (S i) d1 d2 Ha) as (Hl1 & Hl2 & Hk).
    assert (length c1 = S (length d1) ∧ length c2 = S (length d2)) as [Hc1 Hc2].
    { destruct c; simplify_eq; done. }
    cbn [length]. split; [lia|]. split; [lia|].
    intros [|k] Hlt.
    + exists a0, b0. rewrite Nat.add_0_r. split; [done|]. split; [done|].
      destruct c; simplify_eq; cbn; auto.
    + destruct (Hk k ltac:(lia)) as (a & b & Ha1 & Hb1 & Hor).
      exists a, b. replace (i + S k)%nat with (S i + k)%nat by lia.
      split; [done|]. split; [done|].
      destruct c; simplify_eq; cbn; exact Hor.
Qed.

Lemma cross_machines_exchanged (ma1 ma2 : list Z) (coins : list bool) (c1 c2 : list Z) :
  cross_machines coins 0 ma1 ma2 = Ok (c1, c2) → genes_exchanged ma1 ma2 c1 c2.
Proof.
  intros H. apply cross_machines_spec in H as (Hl1 & Hl2 & Hk).
  split; [lia|]. intros k Hlt. rewrite Hl1 in Hlt. exact (Hk k Hlt).
Qed.

Lemma copy_positions_lookup (source : list Z) (positions : list nat) :
  ∀ child child', copy_positions positions child source = Ok child' →
    length child' = length child ∧
    ∀ k, child' !! k = child !! k ∨ (k ∈ positions ∧ child' !! k = source !! k ∧
                                    is_Some (child' !! k)).
Proof.
  induction positions as [|pos rest IH]; intros child child' H.
  - cbn in H. simplify_eq. split; [done|]. by left.
  - cbn [copy_positions] in H. inv_bind H. rename a into v, Ha into Hv.
    apply of_option_Ok in Hv. inv_bind H. rename a into child1, Ha into Hset.
    unfold py_setitem in Hset. case_bool_decide as Hpos; [|done]. simplify_eq.
    destruct (IH _ _ H) as (Hlen & Hk). rewrite length_insert in Hlen.
    split; [done|]. intros k. destruct (Hk k) as [Heq|(Hin & Heq & Hsome)].
    + destruct (decide (k = pos)) as [->|Hne].
      * right. split; [by left|]. rewrite Heq, list_lookup_insert_eq by done.
        by rewrite Hv.
      * left. by rewrite Heq, list_lookup_insert_ne.
    + right. split; [by right|done].
Qed.

Lemma genes_exchanged_eligible (s : Scheduler) (ma1 ma2 c1 c2 : list Z) :
  machines_eligible s ma1 → machines_eligible s ma2 →
  genes_exchanged ma1 ma2 c1 c2 →
  machines_eligible s c1 ∧ machines_eligible s c2.
Proof.
  intros He1 He2 [Hlen Hk]. split; intros k m Hm.
  - destruct (Hk k) as (a & b & Ha & Hb & [[H1 _]|[H1 _]]).
    { by apply lookup_lt_Some in Hm. }
    + rewrite H1 in Hm. injection Hm as <-. by apply He1.
    + rewrite H1 in Hm. injection Hm as <-. by apply He2.
  - destruct (Hk k) as (a & b & Ha & Hb & [[_ H2]|[_ H2]]).
    { apply lookup_lt_Some in Hm. lia. }
    + rewrite H2 in Hm. injection Hm as <-. by apply He2.
    + rewrite H2 in Hm. injection Hm as <-. by apply He1.
Qed.

Lemma copy_positions_eligible (s : Scheduler) (child source child' : list Z)
    (positions : list nat) :
  machines_eligible s child → machines_eligible s source →
  copy_positions positions child source = Ok child' → machines_eligible s child'.
Proof.
  intros Hc Hs H k m Hm.
  destruct (copy_positions_lookup _ _ _ _ H) as (_ & Hk).
  destruct (Hk k) as [Heq|(_ & Heq & _)]; rewrite Heq in Hm; [by apply Hc|by apply Hs].
Qed.

(** X11. No crossover invents a machine gene: the children of
    [order_crossover] and of [uniform_crossover] hold, at every position,
    the machine genes of the two parents at that position (one each), and
    the children of [position_based_crossover] hold at every position the
    gene of one of the parents. So when every machine gene of both parents
    is listed in [operation_to_machines] for its operation, the same holds
    for both children. *)
Theorem crossover_children_eligible (s : Scheduler) (parent1 parent2 child1 child2 : Individual) :
  machines_eligible s (machine_assignment parent1) →
  machines_eligible s (machine_assignment parent2) →
  (∀ start end_ coin,
     order_crossover parent1 parent2 start end_ coin = Ok (child1, child2) →
     genes_exchanged (machine_assignment parent1) (machine_assignment parent2)
       (machine_assignment child1) (machine_assignment child2) ∧
     machines_eligible s (machine_assignment child1) ∧
     machines_eligible s (machine_assignment child2)) ∧
  (∀ mcoin scoin,
     uniform_crossover parent1 parent2 mcoin scoin = Ok (child1, child2) →
     genes_exchanged (machine_assignment parent1) (machine_assignment parent2)
       (machine_assignment child1) (machine_assignment child2) ∧
     machines_eligible s (machine_assignment child1) ∧
     machines_eligible s (machine_assignment child2)) ∧
  (∀ positions,
     position_based_crossover parent1 parent2 positions = Ok (child1, child2) →
     machines_eligible s (machine_assignment child1) ∧
     machines_eligible s (machine_assignment child2)).
Proof.
  intros He1 He2. split; [|split].
  - intros start end_ coin H. unfold order_crossover in H.
    case_bool_decide; [done|].
    inv_bind H. inv_bind H. inv_bind H. destruct a1 as [m1 m2]. simplify_eq. cbn.
    apply cross_machines_exchanged in Ha1.
    split; [done|]. exact (genes_exchanged_eligible s _ _ _ _ He1 He2 Ha1).
  - intros mcoin scoin H. unfold uniform_crossover in H.
    inv_bind H. destruct a as [m1 m2]. inv_bind H. destruct a as [[q1 u1] [q2 u2]].
    simplify_eq. cbn. apply cross_machines_exchanged in Ha.
    split; [done|]. exact (genes_exchanged_eligible s _ _ _ _ He1 He2 Ha).
  - intros positions H. unfold position_based_crossover in H.
    inv_bind H. rename a into m1, Ha into Hm1.
    inv_bind H. rename a into m2, Ha into Hm2.
    do 6 (inv_bind H; clear Ha). simplify_eq. cbn. split.
    + exact (copy_positions_eligible s _ _ _ _ He1 He2 Hm1).
    + exact (copy_positions_eligible s _ _ _ _ He2 He1 Hm2).
Qed.

Lemma sample_machines_eligible : machines_eligible sample [3; 4; 6; 9; 13; 17].
Proof.
  intros k m Hm.
  assert (operation_to_machines sample
          = list_to_map [(0%nat, [0; 1; 2; 3]); (1%nat, [4; 5]); (2%nat, [6; 7]);
                         (3%nat, [8; 9; 10]); (4%nat, [11; 12; 13; 14]);
                         (5%nat, [15; 16; 17])]) as -> by (vm_compute; reflexivity).
  do 6 (destruct k as [|k];
        [cbn in Hm; injection Hm as <-; eexists; split; [reflexivity|set_solver]|]).
  done.
Qed.

Lemma crossover_children_eligible_witness :
  order_crossover sample_individual swapped_individual 1 3 (fun _ => true)
  = Ok (sample_individual, swapped_individual) ∧
  machines_eligible sample (machine_assignment sample_individual) ∧
  machines_eligible sample (machine_assignment swapped_individual).
Proof.
  assert (order_crossover sample_individual swapped_individual 1 3 (fun _ => true)
          = Ok (sample_individual, swapped_individual)) as Hox
    by (vm_compute; reflexivity).
  split; [exact Hox|].
  destruct (crossover_children_eligible sample sample_individual swapped_individual
              sample_individual swapped_individual) as (H & _).
  - exact sample_machines_eligible.
  - exact sample_machines_eligible.
  - exact (proj2 (H 1%nat 3%nat (fun _ => true) Hox)).
Defined.

Lemma fill_loop_keeps (child : list Z) :
  ∀ remaining r, fill_loop child remaining = Ok r →
    length r = length child ∧
    ∀ i c, child !! i = Some c → c ≠ -1 → r !! i = Some c.
Proof.
  induction child as [|c0 child IH]; intros remaining r H.
  - cbn in H. by simplify_eq.
  - cbn [fill_loop] in H. case_bool_decide as Hc0.
    + destruct remaining as [|r0 remaining]; [done|].
      inv_bind H. simplify_eq. destruct (IH _ _ Ha) as [Hlen Hk].
      split; [cbn; lia|]. intros [|i] c Hc Hne; [cbn in Hc; congruence|].
      cbn in *. by apply Hk.
    + inv_bind H. simplify_eq. destruct (IH _ _ Ha) as [Hlen Hk].
      split; [cbn; lia|]. intros [|i] c Hc Hne; [done|].
      cbn in *. by apply Hk.
Qed.

Lemma fill_positions_keeps (size : nat) (child remaining r : list Z) :
  fill_positions size child remaining = Ok r →
  ∀ i c, child !! i = Some c → c ≠ -1 → r !! i = Some c.
Proof.
  unfold fill_positions. intros H i c Hc Hne.
  inv_bind H. case_bool_decide as Hsize; [done|]. simplify_eq.
  destruct (fill_loop_keeps _ _ _ Ha) as [Hlen Hk].
  rewrite length_take in Hlen.
  destruct (decide (i < size)%nat) as [Hi|Hi].
  - apply lookup_app_l_Some. apply Hk; [|done]. by rewrite lookup_take_lt.
  - rewrite lookup_app_r by lia. rewrite lookup_drop, <- Hc. f_equal. lia.
Qed.

Lemma segment_lookup (n : nat) (p : list Z) (start end_ i : nat) :
  (start <= n)%nat → (start <= i < end_)%nat →
  py_slice_assign (replicate n (-1)) start end_ (py_slice p start end_) !! i = p !! i
  ∨ p !! i = None.
Proof.
  intros Hn Hi. destruct (p !! i) as [x|] eqn:Hx; [left|by right].
  unfold py_slice_assign, py_slice.
  rewrite lookup_app_r; rewrite length_take, length_replicate; [|lia].
  replace (start `min` n)%nat with start by lia.
  apply lookup_app_l_Some. rewrite lookup_take_lt by lia. rewrite lookup_drop.
  rewrite <- Hx. f_equal. lia.
Qed.

Lemma copy_positions_at (source : list Z) (positions : list nat) :
  ∀ child child', copy_positions positions child source = Ok child' →
    ∀ k, k ∈ positions → child' !! k = source !! k.
Proof.
  induction positions as [|pos rest IH]; intros child child' H k Hk;
    [by apply elem_of_nil in Hk|].
  cbn [copy_positions] in H. inv_bind H. rename a into v, Ha into Hv.
  apply of_option_Ok in Hv. inv_bind H. rename a into child1, Ha into Hset.
  unfold py_setitem in Hset. case_bool_decide as Hpos; [|done]. simplify_eq.
  apply elem_of_cons in Hk as [->|Hk]; [|by eapply IH].
  destruct (copy_positions_lookup _ _ _ _ H) as (_ & Hl).
  destruct (Hl pos) as [Heq|(_ & Heq & _)]; [|done].
  by rewrite Heq, list_lookup_insert_eq, Hv.
Qed.

(** X12. The children keep the genes the crossover copies: after
    [order_crossover], both children hold at every position of the drawn
    segment [[start, end)] the operation their own parent holds there; after
    [position_based_crossover], they hold at every drawn position the
    operation their own parent holds there. (The gene -1 is the
    placeholder of both operators and is excluded.) *)
Theorem crossover_keeps_copied_genes (parent1 parent2 child1 child2 : Individual) :
  (∀ start end_ coin,
     order_crossover parent1 parent2 start end_ coin = Ok (child1, child2) →
     (start <= length (operation_sequence parent1))%nat →
     ∀ i x, (start <= i < end_)%nat → x ≠ -1 →
       (operation_sequence parent1 !! i = Some x →
        operation_sequence child1 !! i = Some x) ∧
       (operation_sequence parent2 !! i = Some x →
        operation_sequence child2 !! i = Some x)) ∧
  (∀ positions,
     position_based_crossover parent1 parent2 positions = Ok (child1, child2) →
     ∀ pos x, pos ∈ positions → x ≠ -1 →
       (operation_sequence parent1 !! pos = Some x →
        operation_sequence child1 !! pos = Some x) ∧
       (operation_sequence parent2 !! pos = Some x →
        operation_sequence child2 !! pos = Some x)).
Proof.
  split.
  - intros start end_ coin H Hstart i x Hi Hx. unfold order_crossover in H.
    case_bool_decide; [done|].
    inv_bind H. rename a into s1, Ha into H1.
    inv_bind H. rename a into s2, Ha into H2.
    inv_bind H. destruct a as [m1 m2]. simplify_eq. cbn.
    split; intros Hp.
    + apply (fill_positions_keeps _ _ _ _ H1); [|done].
      destruct (segment_lookup (length (operation_sequence parent1))
                  (operation_sequence parent1) start end_ i Hstart Hi) as [->|Hn];
        congruence.
    + apply (fill_positions_keeps _ _ _ _ H2); [|done].
      destruct (segment_lookup (length (operation_sequence parent1))
                  (operation_sequence parent2) start end_ i Hstart Hi) as [->|Hn];
        congruence.
  - intros positions H pos x Hpos Hx. unfold position_based_crossover in H.
    inv_bind H. clear Ha. inv_bind H. clear Ha.
    inv_bind H. rename a into s1, Ha into H1.
    inv_bind H. rename a into s2, Ha into H2.
    inv_bind H. clear Ha. inv_bind H. clear Ha.
    inv_bind H. rename a into r1, Ha into Hr1.
    inv_bind H. rename a into r2, Ha into Hr2. simplify_eq. cbn.
    split; intros Hp.
    + apply (fill_positions_keeps _ _ _ _ Hr1); [|done].
      by rewrite (copy_positions_at _ _ _ _ H1 pos Hpos).
    + apply (fill_positions_keeps _ _ _ _ Hr2); [|done].
      by rewrite (copy_positions_at _ _ _ _ H2 pos Hpos).
Qed.

Lemma crossover_keeps_copied_genes_witness :
  order_crossover sample_individual swapped_individual 1 3 (fun _ => true)
  = Ok (sample_individual, swapped_individual) ∧
  operation_sequence sample_individual !! 1%nat = Some 1 ∧
  operation_sequence swapped_individual !! 1%nat = Some 0.
Proof.
  assert (order_crossover sample_individual swapped_individual 1 3 (fun _ => true)
          = Ok (sample_individual, swapped_individual)) as Hox
    by (vm_compute; reflexivity).
  split; [exact Hox|].
  destruct (crossover_keeps_copied_genes sample_individual swapped_individual
              sample_individual swapped_individual) as (H & _).
  split.
  - apply (H 1%nat 3%nat (fun _ => true) Hox ltac:(cbn; lia) 1%nat 1 ltac:(lia) ltac:(lia)).
    reflexivity.
  - apply (H 1%nat 3%nat (fun _ => true) Hox ltac:(cbn; lia) 1%nat 0 ltac:(lia) ltac:(lia)).
    reflexivity.
Defined.

(** ** The tasks [prepare_problem_data] creates *)

Lemma foldM_weight {A B : Type} (f : B → A → result B) (mu : B → nat) (w : A → nat)
    (l : list A) :
  (∀ b a b', f b a = Ok b' → mu b' = (mu b + w a)%nat) →
  ∀ b b', foldM f b l = Ok b' → mu b' = (mu b + sum_list (w <$> l))%nat.
Proof.
  intros Hf. induction l as [|a l IH]; intros b b' H.
  - cbn in H. simplify_eq. cbn. lia.
  - cbn [foldM] in H. inv_bind H. rewrite (IH _ _ H), (Hf _ _ _ Ha). cbn. lia.
Qed.

Lemma sum_list_const {A : Type} (c : nat) (l : list A) :
  sum_list ((fun _ => c) <$> l) = (length l * c)%nat.
Proof. induction l as [|a l IH]; cbn; [done|]. rewrite IH. lia. Qed.

Lemma prepare_operation_length (ms : list string) (o : Order) (job : Job) (unit : nat)
    (st st' : list OpInfo * gmap nat (list Z)) (op_idx : nat) :
  prepare_operation ms o job unit st op_idx = Ok st' →
  length st'.1 = (length st.1 + 1)%nat.
Proof.
  unfold prepare_operation. destruct st as [ops o2m]. intros H.
  inv_bind H. inv_bind H. simplify_eq. cbn. by rewrite length_app.
Qed.

Lemma prepare_order_length (ms : list string) (js : gmap string Job)
    (st st' : list OpInfo * gmap nat (list Z)) (o : Order) :
  prepare_order ms js st o = Ok st' →
  length st'.1 = (length st.1 + task_count js o)%nat.
Proof.
  unfold prepare_order, task_count. intros H. inv_bind H.
  apply of_option_Ok in Ha. rewrite Ha.
  assert (∀ b unit b',
            foldM (prepare_operation ms o a unit) b (seq 0 (length (operations a))) = Ok b' →
            length b'.1 = (length b.1 + length (operations a))%nat) as Hunit.
  { intros b unit b' Hb.
    rewrite (foldM_weight _ (fun st => length st.1) (fun _ => 1%nat) _
               (fun b a b' => prepare_operation_length ms o _ unit b b' a) _ _ Hb).
    rewrite sum_list_const, length_seq. lia. }
  rewrite (foldM_weight _ (fun st => length st.1) (fun _ => length (operations a)) _
             Hunit _ _ H).
  by rewrite sum_list_const, length_seq.
Qed.

Lemma prepare_operation_ids (ms : list string) (js : gmap string Job) (os : list Order)
    (o : Order) (job : Job) (unit : nat)
    (st st' : list OpInfo * gmap nat (list Z)) (op_idx : nat) :
  o ∈ os → js !! o_job_name o = Some job →
  operations_inv js os st →
  prepare_operation ms o job unit st op_idx = Ok st' → operations_inv js os st'.
Proof.
  unfold prepare_operation. destruct st as [ops o2m]. intros Ho Hjob Hinv H.
  inv_bind H. rename a into op0, Ha into Hop. apply of_option_Ok in Hop.
  inv_bind H. simplify_eq. intros k op Hk. cbn in Hk.
  apply lookup_app_Some in Hk as [Hk|[Hge Hk]]; [by apply Hinv|].
  apply list_lookup_singleton_Some in Hk as [Hz <-]. cbn.
  split; [lia|]. exists o, job. split; [done|]. split; [done|].
  split; [done|]. split; [done|]. by apply lookup_lt_Some in Hop.
Qed.

Lemma prepare_order_ids (ms : list string) (js : gmap string Job) (os : list Order)
    (st st' : list OpInfo * gmap nat (list Z)) (o : Order) :
  o ∈ os → operations_inv js os st →
  prepare_order ms js st o = Ok st' → operations_inv js os st'.
Proof.
  unfold prepare_order. intros Ho Hinv H. inv_bind H. apply of_option_Ok in Ha.
  eapply (foldM_preserves _ (operations_inv js os)); [|exact Hinv|exact H].
  intros b unit b' Hb Hunit.
  eapply (foldM_preserves _ (operations_inv js os)); [|exact Hb|exact Hunit].
  intros b0 op_idx b0' Hb0 Hstep.
  exact (prepare_operation_ids ms js os o a unit b0 b0' op_idx Ho Ha Hb0 Hstep).
Qed.

Lemma foldM_preserves_in {A B : Type} (f : B → A → result B) (I : B → Prop)
    (l : list A) :
  (∀ b a b', a ∈ l → I b → f b a = Ok b' → I b') →
  ∀ b b', I b → foldM f b l = Ok b' → I b'.
Proof.
  induction l as [|a l IH]; intros Hf b b' Hb H.
  - cbn in H. by simplify_eq.
  - cbn [foldM] in H. inv_bind H.
    apply (IH (fun b a' b' Ha' => Hf b a' b' ltac:(by right)) a0 b'); [|done].
    exact (Hf b a a0 ltac:(by left) Hb Ha).
Qed.

(** X13. When [prepare_problem_data] returns, [all_operations] holds one
    task per order, unit and operation of the order's job (so
    [N = sum of quantity x operations-per-job], an order with a quantity
    of 0 or less contributing nothing); the entry at index [k] records
    [operation_id = k], and its task carries the identifier and the job of
    one of the orders and an operation index of that job. The orders and
    the machines are left as they were. *)
Theorem prepare_problem_data_tasks (s s' : Scheduler) :
  prepare_problem_data s = Ok s' →
  length (all_operations s') = sum_list (task_count (jobs s) <$> orders s) ∧
  (∀ k op, all_operations s' !! k = Some op →
     operation_id op = k ∧
     ∃ o job, o ∈ orders s ∧ jobs s !! o_job_name o = Some job ∧
              order_id (op_task op) = o_order_id o ∧
              job_name (op_task op) = o_job_name o ∧
              (operation_idx (op_task op) < length (operations job))%nat) ∧
  orders s' = orders s ∧ machines s' = machines s ∧ jobs s' = jobs s.
Proof.
  unfold prepare_problem_data. intros H. inv_bind H. destruct a as [ops o2m].
  simplify_eq. cbn. split; [|split; [|done]].
  - exact (foldM_weight _ (fun st => length st.1) (task_count (jobs s)) _
             (fun b a b' => prepare_order_length (machines s) (jobs s) b b' a) _ _ Ha).
  - assert (operations_inv (jobs s) (orders s) ([], operation_to_machines s)) as Hinit
      by (by intros k op Hk).
    exact (foldM_preserves_in _ (operations_inv (jobs s) (orders s)) _
             (fun b a b' Hin Hb Hstep =>
                prepare_order_ids (machines s) (jobs s) (orders s) b b' a Hin Hb Hstep)
             _ _ Hinit Ha).
Qed.

Lemma prepare_problem_data_tasks_witness :
  prepare_problem_data sample_loaded = Ok sample ∧
  length (all_operations sample)
  = sum_list (task_count (jobs sample_loaded) <$> orders sample_loaded).
Proof.
  assert (prepare_problem_data sample_loaded = Ok sample) as H
    by (vm_compute; reflexivity).
  split; [exact H|].
  exact (proj1 (prepare_problem_data_tasks sample_loaded sample H)).
Defined.

(** ** The neighbourhood procedures *)


Lemma find_operation_known (ops : list OpInfo) (op : OpInfo) :
  op ∈ ops → is_Some (find_operation ops (op_task op)).
Proof.
  intros Hop. unfold find_operation. apply fmap_is_Some.
  by apply (list_find_elem_of _ ops op).
Qed.



Lemma decode_tasks_known (s : Scheduler) (ind : Individual) (sched : list ScheduledTask) :
  decode s ind = Ok sched →
  ∀ t, t ∈ sched → ∃ op, op ∈ all_operations s ∧ task t = op_task op.
Proof.
  rewrite decode_refines_spec. unfold spec_decode. intros H. inv_bind H. simplify_eq.
  destruct (spec_loop_tasks s ind (operation_sequence ind) spec_init a Ha)
    as (new & Hnew & Hall).
  cbn in Hnew. rewrite Hnew. intros t Ht.
  apply list_elem_of_lookup in Ht as [k Hk].
  destruct (Forall2_lookup_r _ _ _ _ _ Hall Hk)
    as (g & _ & op & m & p & Hg & Htask & _).
  destruct (gene_lookup_Ok s ind g op m p Hg) as (Hop & _).
  by exists op.
Qed.

Lemma decode_makespan_nonneg (s : Scheduler) (ind : Individual)
    (sched : list ScheduledTask) :
  nonneg_times s → decode s ind = Ok sched → 0 <= makespan_of sched.
Proof.
  intros Hnn. rewrite decode_refines_spec. unfold spec_decode. intros H.
  inv_bind H. simplify_eq.
  destruct (spec_tasks a) as [|t0 ts] eqn:Hts; [done|]. rewrite <- Hts.
  destruct (estimate_inv_loop s ind (operation_sequence ind) ∅ spec_init a)
    as (mt & _ & _ & Hcur & Htask); [|done|].
  { split; [|split]; cbn.
    - intros m. by rewrite lookup_empty.
    - intros m c. by rewrite lookup_empty.
    - intros t Ht. by apply elem_of_nil in Ht. }
  destruct (Htask t0) as [c Hc]; [rewrite Hts; by left|].
  destruct (Hcur _ c Hc) as (t1 & Ht1 & He).
  pose proof (spec_loop_cursor_nonneg s ind (operation_sequence ind) Hnn spec_init a
                ltac:(intros m; cbn; by rewrite lookup_empty) Ha (machine_id t0)) as Hge.
  rewrite Hc in Hge. cbn in Hge.
  pose proof (makespan_of_upper_bound _ t1 Ht1). lia.
Qed.

Lemma makespan_attained (sched : list ScheduledTask) :
  sched ≠ [] → ∃ t, t ∈ sched ∧ end_time t = makespan_of sched.
Proof.
  intros Hne. rewrite makespan_of_spec. unfold spec_makespan.
  destruct sched as [|t0 ts]; [done|]. cbn [fmap list_fmap].
  pose proof (foldr_max_elem (end_time t0) (end_time <$> ts)) as Hin.
  change (end_time t0 :: (end_time <$> ts)) with (end_time <$> t0 :: ts) in Hin.
  apply list_elem_of_fmap in Hin as (t & He & Ht). by exists t.
Qed.

Lemma omap_nonempty {A B : Type} (f : A → option B) (l : list A) :
  l ≠ [] → (∀ x, x ∈ l → is_Some (f x)) → omap f l ≠ [].
Proof.
  destruct l as [|x l]; [done|]. intros _ Hf.
  destruct (Hf x ltac:(by left)) as [y Hy]. cbn. by rewrite Hy.
Qed.

(** X15. For an individual that carries a non-empty schedule the decoder
    built from durations that are not negative, together with that
    schedule's makespan, [_find_critical_operations] is never empty: the
    task that ends at the makespan counts as critical. *)
Theorem find_critical_operations_nonempty (s : Scheduler) (ind ev : Individual)
    (sched : list ScheduledTask) :
  nonneg_times s → decode s ind = Ok sched → sched ≠ [] →
  schedule ev = sched → actual_makespan ev = Fin (makespan_of sched) →
  _find_critical_operations s ev ≠ [].
Proof.
  intros Hnn Hdec Hne Hsched Hmk.
  unfold _find_critical_operations, late_operations. rewrite Hsched, Hmk.
  assert (omap (fun t => find_operation (all_operations s) (task t))
            (filter (fun t => finishes_late (95 # 100) (Fin (makespan_of sched)) t = true)
                    sched) ≠ []) as Hlate.
  { apply omap_nonempty.
    - destruct (makespan_attained sched Hne) as (t & Ht & He).
      intros Hnil.
      assert (t ∈ filter (fun t => finishes_late (95 # 100) (Fin (makespan_of sched)) t = true)
                    sched) as Hin; [|rewrite Hnil in Hin; by apply elem_of_nil in Hin].
      apply list_elem_of_filter. split; [|done].
      cbn. rewrite He. apply Qle_bool_iff.
      pose proof (decode_makespan_nonneg s ind sched Hnn Hdec) as Hge.
      unfold Qle. cbn. lia.
    - intros t Ht. apply list_elem_of_filter in Ht as [_ Ht].
      destruct (decode_tasks_known s ind sched Hdec t Ht) as (op & Hop & ->).
      by apply find_operation_known. }
  destruct (omap _ _) as [|k l]; [done|]. done.
Qed.

Lemma find_critical_operations_nonempty_witness :
  _find_critical_operations sample sample_evaluated ≠ [].
Proof.
  apply (find_critical_operations_nonempty sample sample_individual sample_evaluated
           sample_schedule).
  - exact sample_nonneg_times.
  - vm_compute. reflexivity.
  - vm_compute. discriminate.
  - vm_compute. reflexivity.
  - vm_compute. reflexivity.
Defined.

Lemma best_machine_loop_inv (s : Scheduler) (op_id : Z) (skip : Z → bool) (missing : Z)
    (available : list Z) :
  ∀ seen best min_time st',
    best_so_far s op_id skip missing seen (best, min_time) →
    best_machine_loop s op_id skip missing available best min_time = Ok st' →
    best_so_far s op_id skip missing (seen ++ available) st'.
Proof.
  induction available as [|m rest IH]; intros seen best min_time st' Hinv H.
  - cbn in H. simplify_eq. by rewrite app_nil_r.
  - cbn [best_machine_loop] in H.
    replace (seen ++ m :: rest) with ((seen ++ [m]) ++ rest) by (by rewrite <- app_assoc).
    destruct (skip m) eqn:Hskip.
    + refine (IH _ _ _ _ _ H). destruct best as [b|]; cbn in Hinv |- *.
      * destruct Hinv as (t & -> & Hb & Hsb & Htb & Hmin). exists t.
        split; [done|]. split; [apply elem_of_app; by left|]. split; [done|].
        split; [done|]. intros m' t' [Hm'|Hm']%elem_of_app Hs' Ht'; [by eapply Hmin|].
        apply list_elem_of_singleton in Hm' as ->. congruence.
      * destruct Hinv as [-> Hall]. split; [done|].
        intros m' [Hm'|Hm']%elem_of_app; [by apply Hall|].
        by apply list_elem_of_singleton in Hm' as ->.
    + inv_bind H. rename a into tm, Ha into Htm.
      destruct (fit_ltb (Fin tm) min_time) eqn:Hlt.
      * refine (IH _ _ _ _ _ H). cbn. exists tm.
        split; [done|]. split; [apply elem_of_app; right; by left|].
        split; [done|]. split; [done|].
        intros m' t' [Hm'|Hm']%elem_of_app Hs' Ht'.
        -- destruct best as [b|]; cbn in Hinv.
           ++ destruct Hinv as (t & -> & _ & _ & _ & Hmin).
              cbn in Hlt. apply bool_decide_eq_true in Hlt.
              pose proof (Hmin m' t' Hm' Hs' Ht'). lia.
           ++ destruct Hinv as [_ Hall]. rewrite (Hall m' Hm') in Hs'. done.
        -- apply list_elem_of_singleton in Hm' as ->.
           rewrite Htm in Ht'. injection Ht' as <-. lia.
      * refine (IH _ _ _ _ _ H). destruct best as [b|]; cbn in Hinv |- *.
        -- destruct Hinv as (t & -> & Hb & Hsb & Htb & Hmin). exists t.
           split; [done|]. split; [apply elem_of_app; by left|]. split; [done|].
           split; [done|].
           intros m' t' [Hm'|Hm']%elem_of_app Hs' Ht'; [by eapply Hmin|].
           apply list_elem_of_singleton in Hm' as ->.
           rewrite Htm in Ht'. injection Ht' as <-.
           cbn in Hlt. apply bool_decide_eq_false in Hlt. lia.
        -- destruct Hinv as [-> _]. done.
Qed.

Lemma reassign_loop_spec (s : Scheduler) (ind : Individual) (ops : list nat) :
  ∀ ind' d, reassign_loop s ind ops = Ok (ind', d) →
    match d with
    | None => ind' = ind
    | Some x =>
        ∃ op idxs old new t,
          op ∈ ops ∧ operation_to_machines s !! op = Some idxs ∧
          machine_assignment ind !! op = Some old ∧
          new ∈ idxs ∧ new ≠ old ∧
          machine_time s (Z.of_nat op) 999 new = Ok t ∧
          (∀ m t', m ∈ idxs → m ≠ old →
                   machine_time s (Z.of_nat op) 999 m = Ok t' → t <= t') ∧
          ind' = with_machine_assignment ind (<[op := new]> (machine_assignment ind)) ∧
          x = "reassign_op" +:+ pretty op +:+ "_from_m" +:+ pretty old
              +:+ "_to_m" +:+ pretty new
    end.
Proof.
  induction ops as [|op rest IH]; intros ind' d H.
  - cbn in H. by simplify_eq.
  - assert (∀ d', match d' with
                  | None => ind' = ind
                  | Some x =>
                      ∃ op0 idxs old new t,
                        op0 ∈ rest ∧ operation_to_machines s !! op0 = Some idxs ∧
                        machine_assignment ind !! op0 = Some old ∧
                        new ∈ idxs ∧ new ≠ old ∧
                        machine_time s (Z.of_nat op0) 999 new = Ok t ∧
                        (∀ m t', m ∈ idxs → m ≠ old →
                                 machine_time s (Z.of_nat op0) 999 m = Ok t' → t <= t') ∧
                        ind' = with_machine_assignment ind
                                 (<[op0 := new]> (machine_assignment ind)) ∧
                        x = "reassign_op" +:+ pretty op0 +:+ "_from_m" +:+ pretty old
                            +:+ "_to_m" +:+ pretty new
                  end →
                  match d' with
                  | None => ind' = ind
                  | Some x =>
                      ∃ op0 idxs old new t,
                        op0 ∈ op :: rest ∧ operation_to_machines s !! op0 = Some idxs ∧
                        machine_assignment ind !! op0 = Some old ∧
                        new ∈ idxs ∧ new ≠ old ∧
                        machine_time s (Z.of_nat op0) 999 new = Ok t ∧
                        (∀ m t', m ∈ idxs → m ≠ old →
                                 machine_time s (Z.of_nat op0) 999 m = Ok t' → t <= t') ∧
                        ind' = with_machine_assignment ind
                                 (<[op0 := new]> (machine_assignment ind)) ∧
                        x = "reassign_op" +:+ pretty op0 +:+ "_from_m" +:+ pretty old
                            +:+ "_to_m" +:+ pretty new
                  end) as Hweaken.
    { intros [x|]; [|done]. intros (op0 & idxs & old & new & t & Hop0 & Hrest).
      exists op0, idxs, old, new, t. split; [by right|exact Hrest]. }
    cbn [reassign_loop] in H.
    inv_bind H. rename a into idxs, Ha into Hidxs. apply of_option_Ok in Hidxs.
    case_bool_decide as Hlen; [|by apply Hweaken, IH].
    inv_bind H. rename a into cur, Ha into Hcur.
    rewrite py_index_nat in Hcur. apply of_option_Ok in Hcur.
    inv_bind H. destruct a as [best min_time]. rename Ha into Hloop.
    pose proof (best_machine_loop_inv s (Z.of_nat op)
                  (fun machine_idx => bool_decide (machine_idx = cur)) 999 idxs
                  [] None Inf (best, min_time) ltac:(split; [done|by intros m ?%elem_of_nil])
                  Hloop) as Hbest.
    cbn [app] in Hbest.
    destruct best as [new|]; [|by apply Hweaken, IH].
    inv_bind H. rename a into ma', Ha into Hset.
    unfold py_setitem in Hset. case_bool_decide; [|done]. simplify_eq.
    destruct Hbest as (t & _ & Hnew & Hskip & Ht & Hmin).
    apply bool_decide_eq_false in Hskip.
    exists op, idxs, cur, new, t.
    split; [by left|]. do 5 (split; [done|]). split; [|done].
    intros m t' Hm Hne Ht'. apply (Hmin m t' Hm); [|done].
    by apply bool_decide_eq_false.
Qed.

Lemma eligible_insert (s : Scheduler) (ma : list Z) (op : nat) (new : Z) (idxs : list Z) :
  operation_to_machines s !! op = Some idxs → new ∈ idxs →
  machines_eligible s ma → machines_eligible s (<[op := new]> ma).
Proof.
  intros Hidxs Hnew Hel k m Hm. destruct (decide (k = op)) as [->|Hne].
  - apply list_lookup_insert_Some in Hm as [(_ & <- & _)|[? _]]; [|done].
    by exists idxs.
  - rewrite list_lookup_insert_ne in Hm by done. by apply Hel.
Qed.

Lemma move_keeps_valid_refl (s : Scheduler) (ind : Individual) : move_keeps_valid s ind ind.
Proof. by repeat split. Qed.

Lemma reassign_loop_valid (s : Scheduler) (ind ind' : Individual) (ops : list nat)
    (d : option string) :
  reassign_loop s ind ops = Ok (ind', d) → move_keeps_valid s ind ind'.
Proof.
  intros H. apply reassign_loop_spec in H. destruct d as [x|].
  - destruct H as (op & idxs & old & new & t & _ & Hidxs & _ & Hnew & _ & _ & _ & -> & _).
    split; [done|]. split; [cbn; by rewrite length_insert|].
    split; [|done]. cbn. by apply (eligible_insert s _ _ _ idxs).
  - subst. apply move_keeps_valid_refl.
Qed.

Lemma find_machine_index_Some (min_machine : string) (available : list Z)
    (ms : list string) :
  ∀ i idx, find_machine_index min_machine available i ms = Some idx →
    Z.of_nat idx ∈ available ∧ (i <= idx)%nat ∧ ms !! (idx - i)%nat = Some min_machine.
Proof.
  induction ms as [|m ms IH]; intros i idx H; [done|].
  cbn [find_machine_index] in H.
  destruct (bool_decide (m = min_machine) && bool_decide (Z.of_nat i ∈ available))
    eqn:Hhit.
  - apply andb_true_iff in Hhit as [Hm Hin].
    apply bool_decide_eq_true in Hm, Hin. simplify_eq.
    split; [done|]. split; [lia|]. by rewrite Nat.sub_diag.
  - destruct (IH _ _ H) as (Hin & Hle & Hlk). split; [done|]. split; [lia|].
    replace (idx - i)%nat with (S (idx - S i)) by lia. done.
Qed.

Lemma balance_loop_spec (s : Scheduler) (ind : Individual) (min_machine : string)
    (ops : list Z) :
  ∀ ind' d, balance_loop s ind min_machine ops = Ok (ind', d) →
    match d with
    | None => ind' = ind
    | Some x =>
        ∃ op idxs old idx,
          op ∈ ops ∧ 0 <= op ∧ operation_to_machines s !! Z.to_nat op = Some idxs ∧
          machine_assignment ind !! Z.to_nat op = Some old ∧
          Z.of_nat idx ∈ idxs ∧ machines s !! idx = Some min_machine ∧
          ind' = with_machine_assignment ind
                   (<[Z.to_nat op := Z.of_nat idx]> (machine_assignment ind)) ∧
          x = "balance_op" +:+ pretty op +:+ "_from_m" +:+ pretty old
              +:+ "_to_m" +:+ pretty idx
    end.
Proof.
  induction ops as [|op rest IH]; intros ind' d H.
  - cbn in H. by simplify_eq.
  - cbn [balance_loop] in H.
    inv_bind H. rename a into idxs, Ha into Hidxs.
    unfold lookup_machines in Hidxs. case_bool_decide as Hop; [|done].
    apply of_option_Ok in Hidxs.
    destruct (find_machine_index min_machine idxs 0 (machines s)) as [idx|] eqn:Hfind.
    + inv_bind H. rename a into old, Ha into Hold.
      inv_bind H. rename a into ma', Ha into Hset.
      unfold py_setitem in Hset. case_bool_decide; [|done]. simplify_eq.
      apply find_machine_index_Some in Hfind as (Hin & _ & Hlk).
      rewrite Nat.sub_0_r in Hlk.
      exists op, idxs, old, idx. split; [by left|]. split; [done|]. split; [done|].
      split; [|done].
      rewrite <- (Z2Nat.id op) in Hold by done. rewrite py_index_nat in Hold.
      by apply of_option_Ok in Hold.
    + specialize (IH _ _ H). destruct d as [x|]; [|done].
      destruct IH as (op0 & idxs0 & old & idx & Hop0 & Hrest).
      exists op0, idxs0, old, idx. split; [by right|exact Hrest].
Qed.

Lemma seq_index_Some (x : Z) (l : list Z) (i : nat) :
  seq_index x l = Ok i → l !! i = Some x.
Proof.
  revert i. induction l as [|y l IH]; intros i H; [done|].
  cbn [seq_index] in H. case_bool_decide as Hx; [by simplify_eq|].
  inv_bind H. simplify_eq. cbn. by apply IH.
Qed.

Lemma reschedule_loop_spec (ind : Individual) (ops : list nat) (shift : Z) :
  ∀ ind' d, reschedule_loop ind ops shift = Ok (ind', d) →
    match d with
    | None => ind' = ind
    | Some x =>
        ∃ op cur seq',
          op ∈ ops ∧ operation_sequence ind !! cur = Some (Z.of_nat op) ∧
          (3 < cur)%nat ∧
          pop_insert (operation_sequence ind) cur
            (Z.to_nat (Z.max 0 (Z.of_nat cur - shift))) = Ok seq' ∧
          ind' = with_operation_sequence ind seq' ∧
          x = "reschedule_critical_op" +:+ pretty op +:+ "_from_" +:+ pretty cur
              +:+ "_to_" +:+ pretty (Z.to_nat (Z.max 0 (Z.of_nat cur - shift)))
    end.
Proof.
  induction ops as [|op rest IH]; intros ind' d H.
  - cbn in H. by simplify_eq.
  - cbn [reschedule_loop] in H.
    inv_bind H. rename a into cur, Ha into Hcur. apply seq_index_Some in Hcur.
    case_bool_decide as Hpos.
    + inv_bind H. simplify_eq. exists op, cur, a.
      split; [by left|]. done.
    + specialize (IH _ _ H). destruct d as [x|]; [|done].
      destruct IH as (op0 & cur0 & seq' & Hop0 & Hrest).
      exists op0, cur0, seq'. split; [by right|exact Hrest].
Qed.

(** X16. Whatever a neighbourhood procedure of the search does to a
    chromosome when it returns, the operation sequence stays a
    rearrangement of what it was, the machine assignment keeps its length,
    machine genes that were all listed in [operation_to_machines] for their
    operation still are, and the fitness, the makespan and the schedule the
    individual carries are not touched. *)
Theorem apply_neighborhood_keeps_valid (s : Scheduler) (d : MoveDraws)
    (neighborhood : nat) (ind ind' : Individual) (description : option string) :
  apply_neighborhood s d neighborhood ind = Ok (ind', description) →
  move_keeps_valid s ind ind'.
Proof.
  intros H. destruct neighborhood as [|[|[|[|[|k]]]]]; cbn [apply_neighborhood] in H.
  - simplify_eq. apply move_keeps_valid_refl.
  - by eapply reassign_loop_valid.
  - unfold _makespan_focused_operation_swap in H. cbn zeta in H.
    case_bool_decide; [|simplify_eq; apply move_keeps_valid_refl].
    inv_bind H. clear Ha. inv_bind H. clear Ha.
    inv_bind H. clear Ha. inv_bind H. clear Ha.
    case_bool_decide; [|simplify_eq; apply move_keeps_valid_refl].
    inv_bind H. simplify_eq. apply swap_positions_perm in Ha.
    by repeat split.
  - unfold _critical_load_balancing in H. inv_bind H. clear Ha.
    destruct a as [|first others]; [simplify_eq; apply move_keeps_valid_refl|].
    cbn zeta in H.
    destruct (negb _); [|simplify_eq; apply move_keeps_valid_refl].
    apply balance_loop_spec in H. destruct description as [x|].
    + destruct H as (op & idxs & old & idx & _ & _ & Hidxs & _ & Hin & _ & -> & _).
      split; [done|]. split; [cbn; by rewrite length_insert|].
      split; [|done]. cbn. by apply (eligible_insert s _ _ _ idxs).
    + subst. apply move_keeps_valid_refl.
  - unfold _advanced_sequence_optimization in H. cbn zeta in H.
    case_bool_decide; [|simplify_eq; apply move_keeps_valid_refl].
    apply reschedule_loop_spec in H. destruct description as [x|].
    + destruct H as (op & cur & seq' & _ & _ & _ & Hpop & -> & _).
      apply pop_insert_perm in Hpop. by repeat split.
    + subst. apply move_keeps_valid_refl.
  - simplify_eq. apply move_keeps_valid_refl.
Qed.

Lemma apply_neighborhood_keeps_valid_witness :
  apply_neighborhood two_units (mkMoveDraws (0, 3)%nat 2) 2 parallel_evaluated
  = Ok (with_operation_sequence parallel_evaluated [0; 1; 2; 3; 11; 5; 6; 7; 8; 9; 10; 4],
        Some "swap_ops_4_11") ∧
  move_keeps_valid two_units parallel_evaluated
    (with_operation_sequence parallel_evaluated [0; 1; 2; 3; 11; 5; 6; 7; 8; 9; 10; 4]).
Proof.
  assert (apply_neighborhood two_units (mkMoveDraws (0, 3)%nat 2) 2 parallel_evaluated
          = Ok (with_operation_sequence parallel_evaluated
                  [0; 1; 2; 3; 11; 5; 6; 7; 8; 9; 10; 4],
                Some "swap_ops_4_11")) as H by (vm_compute; reflexivity).
  split; [exact H|].
  exact (apply_neighborhood_keeps_valid two_units _ 2 parallel_evaluated _ _ H).
Defined.

(** X17. [_critical_path_machine_reassignment_tabu] either returns no
    description and leaves the individual as it is, or changes exactly one
    machine gene, that of one of the first three critical operations: the
    new machine is listed for the operation, differs from the old one, and
    no other listed machine apart from the old one has a lower processing
    time (999 standing for a missing one). The description names the
    operation, the old and the new machine index. *)
Theorem critical_path_machine_reassignment_spec (s : Scheduler) (ind ind' : Individual)
    (description : option string) :
  _critical_path_machine_reassignment_tabu s ind = Ok (ind', description) →
  match description with
  | None => ind' = ind
  | Some x =>
      ∃ op idxs old new t,
        op ∈ take 3 (_find_critical_operations s ind) ∧
        operation_to_machines s !! op = Some idxs ∧
        machine_assignment ind !! op = Some old ∧
        new ∈ idxs ∧ new ≠ old ∧
        machine_time s (Z.of_nat op) 999 new = Ok t ∧
        (∀ m t', m ∈ idxs → m ≠ old →
                 machine_time s (Z.of_nat op) 999 m = Ok t' → t <= t') ∧
        ind' = with_machine_assignment ind (<[op := new]> (machine_assignment ind)) ∧
        x = "reassign_op" +:+ pretty op +:+ "_from_m" +:+ pretty old
            +:+ "_to_m" +:+ pretty new
  end.
Proof. apply reassign_loop_spec. Qed.

Lemma critical_path_machine_reassignment_spec_witness :
  _critical_path_machine_reassignment_tabu sample sample_evaluated
  = Ok (with_machine_assignment sample_evaluated [3; 4; 6; 9; 13; 16],
        Some "reassign_op5_from_m17_to_m16") ∧
  ∃ op idxs old new t,
    op ∈ take 3 (_find_critical_operations sample sample_evaluated) ∧
    operation_to_machines sample !! op = Some idxs ∧
    machine_assignment sample_evaluated !! op = Some old ∧
    new ∈ idxs ∧ new ≠ old ∧
    machine_time sample (Z.of_nat op) 999 new = Ok t.
Proof.
  assert (_critical_path_machine_reassignment_tabu sample sample_evaluated
          = Ok (with_machine_assignment sample_evaluated [3; 4; 6; 9; 13; 16],
                Some "reassign_op5_from_m17_to_m16")) as H by (vm_compute; reflexivity).
  split; [exact H|].
  destruct (critical_path_machine_reassignment_spec sample sample_evaluated _ _ H)
    as (op & idxs & old & new & t & H1 & H2 & H3 & H4 & H5 & H6 & _).
  exists op, idxs, old, new, t. exact (conj H1 (conj H2 (conj H3 (conj H4 (conj H5 H6))))).
Defined.

Lemma pop_insert_earlier (seq r : list Z) (cur new : nat) (x : Z) :
  seq !! cur = Some x → (new <= cur)%nat → pop_insert seq cur new = Ok r →
  r !! new = Some x ∧ length r = length seq ∧
  (∀ i, (i < new)%nat → r !! i = seq !! i) ∧
  (∀ i, (new <= i < cur)%nat → r !! S i = seq !! i) ∧
  (∀ i, (cur < i)%nat → r !! i = seq !! i).
Proof.
  intros Hx Hle H. unfold pop_insert in H. rewrite Hx in H. cbn in H.
  injection H as <-.
  pose proof (lookup_lt_Some _ _ _ Hx) as Hlt.
  assert (length (delete cur seq) = (length seq - 1)%nat) as Hdel
    by (rewrite length_delete; [lia|by eexists]).
  assert (length (take new (delete cur seq)) = new) as Htake
    by (rewrite length_take; lia).
  split; [|split; [|split; [|split]]].
  - rewrite lookup_app_r by lia. by rewrite Htake, Nat.sub_diag.
  - rewrite length_app. cbn. rewrite Htake, length_drop. lia.
  - intros i Hi. rewrite lookup_app_l by lia.
    rewrite lookup_take_lt by done. apply list_lookup_delete_lt. lia.
  - intros i Hi. rewrite lookup_app_r by lia. rewrite Htake.
    rewrite lookup_cons_ne_0 by lia. rewrite lookup_drop.
    rewrite list_lookup_delete_lt by lia. f_equal. lia.
  - intros i Hi. rewrite lookup_app_r by lia. rewrite Htake.
    rewrite lookup_cons_ne_0 by lia. rewrite lookup_drop.
    rewrite list_lookup_delete_ge by lia. f_equal. lia.
Qed.

(** X18. [_advanced_sequence_optimization] either returns no description
    and leaves the individual as it is, or moves one of the first two
    critical operations from a position beyond 3 to an earlier position,
    [max(0, position - shift)]: the operations before the new position
    and after the old one stay where they are, and those in between move
    one place back. No other gene changes. *)
Theorem advanced_sequence_optimization_spec (s : Scheduler) (ind ind' : Individual)
    (shift : Z) (description : option string) :
  1 <= shift →
  _advanced_sequence_optimization s ind shift = Ok (ind', description) →
  match description with
  | None => ind' = ind
  | Some x =>
      ∃ op cur new,
        op ∈ take 2 (_find_critical_operations s ind) ∧
        operation_sequence ind !! cur = Some (Z.of_nat op) ∧
        (3 < cur)%nat ∧ new = Z.to_nat (Z.max 0 (Z.of_nat cur - shift)) ∧
        (new < cur)%nat ∧
        operation_sequence ind' !! new = Some (Z.of_nat op) ∧
        (∀ i, (i < new)%nat → operation_sequence ind' !! i = operation_sequence ind !! i) ∧
        (∀ i, (new <= i < cur)%nat →
              operation_sequence ind' !! S i = operation_sequence ind !! i) ∧
        (∀ i, (cur < i)%nat → operation_sequence ind' !! i = operation_sequence ind !! i) ∧
        machine_assignment ind' = machine_assignment ind ∧
        x = "reschedule_critical_op" +:+ pretty op +:+ "_from_" +:+ pretty cur
            +:+ "_to_" +:+ pretty new
  end.
Proof.
  intros Hshift H. unfold _advanced_sequence_optimization in H. cbn zeta in H.
  case_bool_decide; [|by simplify_eq].
  apply reschedule_loop_spec in H. destruct description as [x|]; [|done].
  destruct H as (op & cur & seq' & Hop & Hcur & Hpos & Hpop & -> & ->).
  exists op, cur, (Z.to_nat (Z.max 0 (Z.of_nat cur - shift))).
  assert (Z.to_nat (Z.max 0 (Z.of_nat cur - shift)) < cur)%nat as Hlt by lia.
  destruct (pop_insert_earlier _ _ _ _ _ Hcur (Nat.lt_le_incl _ _ Hlt) Hpop)
    as (H1 & _ & H2 & H3 & H4).
  cbn. done.
Qed.

Lemma advanced_sequence_optimization_spec_witness :
  _advanced_sequence_optimization two_units parallel_evaluated 2
  = Ok (with_operation_sequence parallel_evaluated [0; 1; 2; 5; 3; 4; 6; 7; 8; 9; 10; 11],
        Some "reschedule_critical_op5_from_5_to_3") ∧
  ∃ op cur new,
    op ∈ take 2 (_find_critical_operations two_units parallel_evaluated) ∧
    operation_sequence parallel_evaluated !! cur = Some (Z.of_nat op) ∧
    (3 < cur)%nat ∧ new = Z.to_nat (Z.max 0 (Z.of_nat cur - 2)) ∧ (new < cur)%nat.
Proof.
  assert (_advanced_sequence_optimization two_units parallel_evaluated 2
          = Ok (with_operation_sequence parallel_evaluated
                  [0; 1; 2; 5; 3; 4; 6; 7; 8; 9; 10; 11],
                Some "reschedule_critical_op5_from_5_to_3")) as H
    by (vm_compute; reflexivity).
  split; [exact H|].
  destruct (advanced_sequence_optimization_spec two_units parallel_evaluated _ 2 _
              ltac:(lia) H)
    as (op & cur & new & H1 & H2 & H3 & H4 & H5 & _).
  exists op, cur, new. exact (conj H1 (conj H2 (conj H3 (conj H4 H5)))).
Defined.

(** ** Seeding: the opposition individual *)

Lemma mapM_Ok_Forall2 {A B : Type} (f : A → result B) (l : list A) (r : list B) :
  mapM f l = Ok r ↔ Forall2 (fun x y => f x = Ok y) l r.
Proof.
  revert r. induction l as [|x l IH]; intros r.
  - cbn. split; [by intros [= <-]|by intros ->%Forall2_nil_inv_l].
  - cbn [mapM]. split.
    + intros H. inv_bind H. inv_bind H. cbn in H. injection H as <-.
      constructor; [done|]. by apply IH.
    + intros H. apply Forall2_cons_inv_l in H as (y & r' & Hy & Hr & ->).
      rewrite Hy. cbn [mbind result_bind]. apply IH in Hr. by rewrite Hr.
Qed.

Lemma mapM_Raise {A B : Type} (f : A → result B) (l : list A) (e : exn) :
  mapM f l = Raise e → ∃ x, x ∈ l ∧ f x = Raise e.
Proof.
  induction l as [|x l IH]; [done|]. cbn [mapM]. intros H.
  apply bind_Raise in H as [H|(y & _ & H)]; [exists x; split; [by left|done]|].
  apply bind_Raise in H as [H|(r & _ & H)]; [|done].
  destruct (IH H) as (x' & Hx' & Hf). exists x'. split; [by right|done].
Qed.

Lemma opposition_machine_listed (s : Scheduler) (base : Individual) (choice : nat → Z)
    (op_id : nat) (m : Z) :
  opposition_machine s base choice op_id = Ok m →
  ∃ idxs, operation_to_machines s !! op_id = Some idxs ∧ (m ∈ idxs ∨ m = choice op_id).
Proof.
  unfold opposition_machine. intros H.
  inv_bind H. rename a into idxs, Ha into Hidxs. apply of_option_Ok in Hidxs.
  inv_bind H. exists idxs. split; [done|].
  case_bool_decide.
  - unfold try_except in H.
    destruct (seq_index a idxs ≫= _) as [m'|e] eqn:Htry; simplify_eq; [|by right].
    left. inv_bind Htry. by apply py_index_elem_of in Htry.
  - left. by apply py_index_elem_of in H.
Qed.

(** X19. When [create_opposition_individual] returns, the new individual
    has one machine gene per operation, each listed in
    [operation_to_machines] for its operation whenever the values drawn by
    [random.choice] are, whatever the base individual assigns; and its
    sequence is the base sequence reversed, so a permutation of the task
    indices whenever the base sequence is one. *)
Theorem create_opposition_individual_valid (s : Scheduler) (base opp : Individual)
    (choice : nat → Z) :
  create_opposition_individual s base choice = Ok opp →
  length (machine_assignment opp) = length (all_operations s) ∧
  ((∀ k idxs, operation_to_machines s !! k = Some idxs → (1 < length idxs)%nat →
              choice k ∈ idxs) →
   machines_eligible s (machine_assignment opp)) ∧
  operation_sequence opp = reverse (operation_sequence base) ∧
  (∀ n, is_permutation_of_range n (operation_sequence base) →
        is_permutation_of_range n (operation_sequence opp)).
Proof.
  unfold create_opposition_individual. intros H. inv_bind H. simplify_eq. cbn.
  apply mapM_Ok_Forall2 in Ha.
  split; [by rewrite <- (Forall2_length _ _ _ Ha), length_seq|].
  split; [|split; [done|]].
  - intros Hchoice k m Hm.
    destruct (Forall2_lookup_r _ _ _ _ _ Ha Hm) as (op & Hop & Hf).
    apply lookup_seq in Hop as [-> _]. cbn in Hf.
    pose proof Hf as Hf'.
    apply opposition_machine_listed in Hf as (idxs & Hidxs & [Hin| ->]);
      exists idxs; (split; [done|]); [done|].
    unfold opposition_machine in Hf'. rewrite Hidxs in Hf'. cbn in Hf'.
    inv_bind Hf'. case_bool_decide as Hlen; [by apply Hchoice|].
    apply py_index_elem_of in Hf'. done.
  - intros n Hperm. unfold is_permutation_of_range in *.
    by rewrite reverse_Permutation.
Qed.

Lemma create_opposition_individual_valid_witness :
  create_opposition_individual sample sample_individual (fun _ => 0)
  = Ok (new_individual [0; 5; 7; 9; 12; 15] [5; 4; 3; 2; 1; 0]) ∧
  length (machine_assignment (new_individual [0; 5; 7; 9; 12; 15] [5; 4; 3; 2; 1; 0]))
  = length (all_operations sample).
Proof.
  assert (create_opposition_individual sample sample_individual (fun _ => 0)
          = Ok (new_individual [0; 5; 7; 9; 12; 15] [5; 4; 3; 2; 1; 0])) as H
    by (vm_compute; reflexivity).
  split; [exact H|].
  exact (proj1 (create_opposition_individual_valid sample sample_individual _ _ H)).
Defined.

Lemma seq_index_elem (x : Z) (l : list Z) :
  x ∈ l → ∃ i, seq_index x l = Ok i.
Proof.
  induction l as [|y l IH]; intros Hx; [by apply elem_of_nil in Hx|].
  cbn [seq_index]. case_bool_decide as Hxy; [by exists 0%nat|].
  apply elem_of_cons in Hx as [?|Hx]; [done|].
  destruct (IH Hx) as [i ->]. by exists (S i).
Qed.

Lemma mapM_is_Ok {A B : Type} (f : A → result B) (l : list A) :
  (∀ x, x ∈ l → ∃ y, f x = Ok y) → ∃ r, mapM f l = Ok r.
Proof.
  induction l as [|x l IH]; intros Hf; [by exists []|].
  destruct (Hf x ltac:(by left)) as [y Hy].
  destruct IH as [r Hr]; [intros x' Hx'; apply Hf; by right|].
  exists (y :: r). cbn [mapM]. by rewrite Hy, Hr.
Qed.

Lemma opposition_machine_twice (s : Scheduler) (base : Individual)
    (choice choice' : nat → Z) (k : nat) (idxs : list Z) (bm : Z) :
  operation_to_machines s !! k = Some idxs → NoDup idxs →
  machine_assignment base !! k = Some bm → bm ∈ idxs →
  ∃ m, opposition_machine s base choice k = Ok m ∧
       ∀ opp, machine_assignment opp !! k = Some m →
              opposition_machine s opp choice' k = Ok bm.
Proof.
  intros Hidxs Hnd Hbm Hin. unfold opposition_machine.
  rewrite Hidxs, py_index_nat, Hbm. cbn [of_option mbind result_bind].
  case_bool_decide as Hlen.
  - destruct (seq_index_elem bm idxs Hin) as [i Hi]. rewrite Hi.
    cbn [mbind result_bind]. apply seq_index_Some in Hi.
    pose proof (lookup_lt_Some _ _ _ Hi) as Hlt.
    replace (Z.of_nat (length idxs) - 1 - Z.of_nat i)
      with (Z.of_nat (length idxs - 1 - i)) by lia.
    rewrite py_index_nat.
    destruct (lookup_lt_is_Some_2 idxs (length idxs - 1 - i) ltac:(lia)) as [m Hm].
    rewrite Hm. exists m. split; [done|].
    intros opp Hopp. rewrite py_index_nat, Hopp. cbn [of_option mbind result_bind].
    destruct (seq_index_elem m idxs ltac:(by eapply list_elem_of_lookup_2)) as [j Hj].
    rewrite Hj. cbn [mbind result_bind]. apply seq_index_Some in Hj.
    assert (j = (length idxs - 1 - i)%nat) as -> by (by eapply NoDup_lookup).
    replace (Z.of_nat (length idxs) - 1 - Z.of_nat (length idxs - 1 - i))
      with (Z.of_nat i) by lia.
    by rewrite py_index_nat, Hi.
  - destruct idxs as [|m0 [|m1 idxs]]; [by apply elem_of_nil in Hin| |cbn in Hlen; lia].
    apply list_elem_of_singleton in Hin as ->.
    exists m0. split; [done|]. intros opp Hopp.
    by rewrite py_index_nat, Hopp.
Qed.

(** X20. Opposition is an involution on eligible chromosomes: when every
    operation has an entry in [operation_to_machines] that lists no
    machine twice, and the base individual has one listed machine gene per
    operation, then [create_opposition_individual] returns, and applying
    it to its own result gives back the machine assignment and the
    sequence of the base individual. No random choice is used. *)
Theorem create_opposition_individual_involution (s : Scheduler) (base : Individual)
    (choice choice' : nat → Z) :
  machines_listed s →
  (∀ k idxs, operation_to_machines s !! k = Some idxs → NoDup idxs) →
  machines_eligible s (machine_assignment base) →
  length (machine_assignment base) = length (all_operations s) →
  ∃ opp,
    create_opposition_individual s base choice = Ok opp ∧
    create_opposition_individual s opp choice'
    = Ok (new_individual (machine_assignment base) (operation_sequence base)).
Proof.
  intros Hlisted Hnd Hel Hlen.
  assert (∀ k, (k < length (all_operations s))%nat →
            ∃ m, opposition_machine s base choice k = Ok m ∧
                 ∀ opp, machine_assignment opp !! k = Some m →
                        opposition_machine s opp choice' k
                        = of_option IndexError (machine_assignment base !! k)) as Hop.
  { intros k Hk. destruct (Hlisted k Hk) as [idxs Hidxs].
    destruct (lookup_lt_is_Some_2 (machine_assignment base) k ltac:(lia)) as [bm Hbm].
    destruct (Hel k bm Hbm) as (idxs' & Hidxs' & Hin).
    rewrite Hidxs in Hidxs'. injection Hidxs' as <-.
    destruct (opposition_machine_twice s base choice choice' k idxs bm
                Hidxs (Hnd _ _ Hidxs) Hbm Hin) as (m & Hm & Hback).
    exists m. split; [done|]. intros opp Hopp. rewrite Hbm. by apply Hback. }
  destruct (mapM_is_Ok (opposition_machine s base choice)
              (seq 0 (length (all_operations s)))) as [l1 Hl1].
  { intros k Hk. apply elem_of_seq in Hk.
    destruct (Hop k ltac:(lia)) as (m & Hm & _). by exists m. }
  exists (new_individual l1 (reverse (operation_sequence base))).
  unfold create_opposition_individual. rewrite Hl1. cbn [mbind result_bind].
  split; [done|]. cbn [machine_assignment operation_sequence new_individual].
  rewrite reverse_involutive.
  apply mapM_Ok_Forall2 in Hl1.
  assert (mapM (opposition_machine s (new_individual l1 (reverse (operation_sequence base)))
                  choice')
               (seq 0 (length (all_operations s)))
          = Ok (machine_assignment base)) as ->; [|done].
  apply mapM_Ok_Forall2. apply Forall2_same_length_lookup_2.
  { by rewrite length_seq. }
  intros i k bm Hk Hbm. apply lookup_seq in Hk as [-> Hi]. cbn.
  destruct (Hop i Hi) as (m & Hm & Hback).
  destruct (Forall2_lookup_l _ _ _ i i Hl1) as (m' & Hm' & Hf).
  { by apply lookup_seq. }
  cbn in Hf. rewrite Hm in Hf. injection Hf as <-.
  rewrite (Hback (new_individual l1 (reverse (operation_sequence base))) Hm').
  by rewrite Hbm.
Qed.

Lemma create_opposition_individual_involution_witness :
  ∃ opp,
    create_opposition_individual sample sample_individual (fun _ => 0) = Ok opp ∧
    create_opposition_individual sample opp (fun _ => 0)
    = Ok (new_individual (machine_assignment sample_individual)
            (operation_sequence sample_individual)).
Proof.
  apply (create_opposition_individual_involution sample sample_individual).
  - intros k Hk.
    assert (length (all_operations sample) = 6%nat) as Hn by (vm_compute; reflexivity).
    rewrite Hn in Hk.
    do 6 (destruct k as [|k]; [vm_compute; by eexists|]). lia.
  - intros k idxs Hk.
    assert (map_Forall (fun _ idxs => NoDup idxs) (operation_to_machines sample)) as Hall.
    { apply (bool_decide_unpack _). vm_compute. reflexivity. }
    exact (Hall k idxs Hk).
  - exact sample_machines_eligible.
  - vm_compute. reflexivity.
Defined.

(** ** Seeding: the greedy individual *)

Lemma best_machine_loop_first (s : Scheduler) (op_id : Z) (missing m0 : Z)
    (rest : list Z) :
  best_machine_loop s op_id (fun _ => false) missing (m0 :: rest) (Some m0) Inf
  = best_machine_loop s op_id (fun _ => false) missing (m0 :: rest) None Inf.
Proof. cbn. by destruct (machine_time s op_id missing m0). Qed.

Lemma best_machine_loop_total (s : Scheduler) (op_id : Z) (skip : Z → bool)
    (missing : Z) (available : list Z) :
  (∀ m, m ∈ available → is_ok (machine_time s op_id missing m) = true) →
  ∀ best min_time,
    ∃ st, best_machine_loop s op_id skip missing available best min_time = Ok st.
Proof.
  induction available as [|m rest IH]; intros Hok best min_time; [by eexists|].
  cbn [best_machine_loop].
  assert (∀ m', m' ∈ rest → is_ok (machine_time s op_id missing m') = true) as Hrest
    by (intros m' Hm'; apply Hok; by right).
  destruct (skip m); [by apply IH|].
  destruct (machine_time s op_id missing m) as [t|e] eqn:Ht.
  - cbn [mbind result_bind]. destruct (fit_ltb (Fin t) min_time); by apply IH.
  - specialize (Hok m ltac:(by left)). by rewrite Ht in Hok.
Qed.

Lemma machine_time_in_range (s : Scheduler) (k : nat) (missing m : Z) :
  (k < length (all_operations s))%nat → 0 <= m < Z.of_nat (length (machines s)) →
  is_ok (machine_time s (Z.of_nat k) missing m) = true.
Proof.
  intros Hk Hm. unfold machine_time.
  destruct (py_index_in_range (machines s) m Hm) as (mid & -> & _).
  destruct (py_index_in_range (all_operations s) (Z.of_nat k) ltac:(lia)) as (op & -> & _).
  done.
Qed.

Lemma greedy_machine_spec (s : Scheduler) (k : nat) (m : Z) :
  greedy_machine s k = Ok m →
  ∃ idxs t, operation_to_machines s !! k = Some idxs ∧ m ∈ idxs ∧
            machine_time s (Z.of_nat k) 999 m = Ok t ∧
            ∀ m' t', m' ∈ idxs → machine_time s (Z.of_nat k) 999 m' = Ok t' → t <= t'.
Proof.
  unfold greedy_machine. intros H.
  inv_bind H. rename a into idxs, Ha into Hidxs. apply of_option_Ok in Hidxs.
  inv_bind H. clear Ha. inv_bind H. rename a0 into m0, Ha into Hm0.
  inv_bind H. destruct a0 as [best min_time]. rename Ha into Hloop. simplify_eq.
  destruct idxs as [|m1 rest]; [done|].
  assert (m0 = m1) as ->.
  { change 0 with (Z.of_nat 0) in Hm0. rewrite py_index_nat in Hm0. cbn in Hm0.
    by simplify_eq. }
  rewrite best_machine_loop_first in Hloop.
  pose proof (best_machine_loop_inv s (Z.of_nat k) (fun _ => false) 999 (m1 :: rest)
                [] None Inf (best, min_time)
                ltac:(split; [done|by intros m ?%elem_of_nil]) Hloop) as Hbest.
  cbn [app] in Hbest. destruct best as [b|]; cbn in Hbest.
  - destruct Hbest as (t & _ & Hb & _ & Ht & Hmin). exists (m1 :: rest), t. cbn.
    split; [done|]. split; [done|]. split; [done|].
    intros m' t' Hm' Ht'. by apply (Hmin m' t').
  - destruct Hbest as [_ Hall]. by specialize (Hall m1 ltac:(by left)).
Qed.

Lemma greedy_machine_total (s : Scheduler) (k : nat) :
  machines_usable s → (k < length (all_operations s))%nat →
  ∃ m, greedy_machine s k = Ok m.
Proof.
  intros Hus Hk. destruct (Hus k Hk) as (idxs & Hidxs & Hne & Hrange).
  unfold greedy_machine. rewrite Hidxs. cbn [of_option mbind result_bind].
  destruct (py_index_in_range (all_operations s) (Z.of_nat k) ltac:(lia)) as (op & -> & _).
  cbn [mbind result_bind]. destruct idxs as [|m0 rest]; [done|].
  change 0 with (Z.of_nat 0) at 1. rewrite py_index_nat.
  cbn [lookup list_lookup of_option mbind result_bind].
  destruct (best_machine_loop_total s (Z.of_nat k) (fun _ => false) 999 (m0 :: rest))
    with (best := Some m0) (min_time := Inf) as [[best mt] ->].
  { intros m Hm. apply machine_time_in_range; [done|].
    by apply (proj1 (Forall_forall _ _) Hrange). }
  cbn. by eexists.
Qed.

Lemma seed_unit_key_ok (t : Task) : is_ok (seed_unit_key t) = is_ok (unit_key t).
Proof.
  unfold seed_unit_key, unit_key.
  destruct (py_index (split "_unit" (task_id t)) 1); [|done]. cbn.
  by destruct (py_index (split "_" a) 0).
Qed.

Lemma seed_key_known (s : Scheduler) (k : nat) :
  tasks_well_formed s → (k < length (all_operations s))%nat →
  ∃ op u, py_index (all_operations s) (Z.of_nat k) = Ok op ∧
          all_operations s !! k = Some op ∧
          seed_unit_key (op_task op) = Ok u.
Proof.
  intros Hwf Hk.
  destruct (lookup_lt_is_Some_2 (all_operations s) k Hk) as [op Hop].
  pose proof (proj1 (Forall_forall _ _) Hwf op ltac:(by eapply list_elem_of_lookup_2)) as Hu.
  cbn in Hu. rewrite <- seed_unit_key_ok in Hu. apply is_ok_true in Hu as [u Hu].
  exists op, u. by rewrite py_index_nat, Hop.
Qed.

Lemma collect_candidates_spec (s : Scheduler) (job_progress : gmap string nat)
    (ops : list nat) :
  tasks_well_formed s → (∀ k, k ∈ ops → (k < length (all_operations s))%nat) →
  ∃ c, collect_candidates s job_progress ops = Ok c ∧ ∀ k, k ∈ c → k ∈ ops.
Proof.
  intros Hwf. induction ops as [|k ops IH]; intros Hops.
  - exists []. split; [done|]. by intros k ?%elem_of_nil.
  - destruct IH as (c & Hc & Hsub); [intros k' Hk'; apply Hops; by right|].
    destruct (seed_key_known s k Hwf (Hops k ltac:(by left))) as (op & u & Hop & _ & Hu).
    cbn [collect_candidates]. rewrite Hop. cbn [mbind result_bind].
    rewrite Hu. cbn [mbind result_bind]. rewrite Hc. cbn [mbind result_bind].
    eexists. split; [done|]. intros k'. case_bool_decide.
    + intros [->|Hk']%elem_of_cons; [by left|right; by apply Hsub].
    + intros Hk'. right. by apply Hsub.
Qed.

Lemma py_min_by_elem {A K : Type} (ltb : K → K → bool) (key : A → K) (l : list A) :
  l ≠ [] → ∃ w, py_min_by ltb key l = Ok w ∧ w ∈ l.
Proof.
  destruct l as [|x l]; [done|]. intros _. cbn [py_min_by]. eexists. split; [done|].
  revert x. induction l as [|y l IH]; intros x; cbn [foldl]; [by left|].
  specialize (IH (if ltb (key y) (key x) then y else x)).
  apply elem_of_cons in IH as [->|IH]; [|by do 2 right].
  destruct (ltb (key y) (key x)); [right; by left|by left].
Qed.

Lemma greedy_sequence_loop_spec (s : Scheduler) (order : gset nat → list nat) :
  tasks_well_formed s → iterates_elements order →
  ∀ fuel remaining job_progress sequence,
    (size remaining <= fuel)%nat →
    (∀ k, k ∈ remaining → (k < length (all_operations s))%nat) →
    ∃ sequence',
      greedy_sequence_loop fuel s order remaining job_progress sequence
      = Ok (sequence', ∅) ∧
      sequence' ≡ₚ sequence ++ (Z.of_nat <$> elements remaining).
Proof.
  intros Hwf Horder. induction fuel as [|fuel IH];
    intros remaining job_progress sequence Hsize Hrange.
  - assert (remaining = ∅) as -> by (apply leibniz_equiv, size_empty_iff; lia).
    exists sequence. cbn. split; [done|]. by rewrite elements_empty, app_nil_r.
  - cbn [greedy_sequence_loop]. case_bool_decide as Hempty.
    { subst. exists sequence. split; [done|]. by rewrite elements_empty, app_nil_r. }
    destruct (collect_candidates_spec s job_progress (order remaining) Hwf)
      as (c & -> & Hsub).
    { intros k Hk. apply Hrange. by apply Horder. }
    cbn [mbind result_bind].
    assert (∃ chosen,
              match c with
              | [] => of_option IndexError (order remaining !! 0%nat)
              | _ :: _ => py_min_by Z.ltb (candidate_key s) c
              end = Ok chosen ∧ chosen ∈ remaining) as (chosen & -> & Hchosen).
    { destruct c as [|c0 c].
      - apply set_choose_L in Hempty as [x Hx]. apply Horder in Hx.
        destruct (order remaining) as [|x0 l] eqn:Hl; [by apply elem_of_nil in Hx|].
        exists x0. split; [done|]. apply Horder. rewrite Hl. by left.
      - destruct (py_min_by_elem Z.ltb (candidate_key s) (c0 :: c)) as (w & Hw & Hin);
          [done|].
        exists w. split; [done|]. apply Horder. by apply Hsub. }
    cbn [mbind result_bind].
    destruct (seed_key_known s chosen Hwf (Hrange chosen Hchosen))
      as (op & u & -> & _ & Hu).
    cbn [mbind result_bind]. rewrite Hu. cbn [mbind result_bind].
    destruct (IH (remaining ∖ {[chosen]})
                (<[u := S (default 0%nat (job_progress !! u))]> job_progress)
                (sequence ++ [Z.of_nat chosen])) as (sequence' & -> & Hperm).
    { assert (size remaining = S (size (remaining ∖ {[chosen]}))) as Hs.
      { rewrite (union_difference_singleton_L chosen remaining Hchosen) at 1.
        rewrite size_union, size_singleton; [done|].
        apply elem_of_disjoint. intros x Hx1 [_ Hx2]%elem_of_difference. done. }
      lia. }
    { intros k [Hk _]%elem_of_difference. by apply Hrange. }
    exists sequence'. split; [done|]. rewrite Hperm, <- app_assoc. f_equiv.
    rewrite (union_difference_singleton_L chosen remaining Hchosen) at 2.
    rewrite elements_union_singleton; [done|].
    intros [_ Hx]%elem_of_difference. apply Hx. by apply elem_of_singleton.
Qed.

Lemma elements_set_seq_perm (n : nat) :
  Z.of_nat <$> elements (set_seq 0 n : gset nat) ≡ₚ seqZ 0 (Z.of_nat n).
Proof.
  assert (elements (set_seq 0 n : gset nat) ≡ₚ seq 0 n) as ->.
  { apply NoDup_Permutation; [apply NoDup_elements|apply NoDup_seq|].
    intros x. rewrite elem_of_elements, elem_of_set_seq, elem_of_seq. done. }
  unfold seqZ. rewrite Nat2Z.id.
  assert (Z.of_nat <$> seq 0 n = (fun i => Z.of_nat i + 0) <$> seq 0 n) as ->; [|done].
  apply list_fmap_ext. intros i x _. lia.
Qed.

(** X21. On a prepared problem in which every operation lists at least one
    machine, [create_greedy_individual] returns a structurally valid
    chromosome, whatever the order in which the set of remaining
    operations is iterated: one machine gene per operation, each an index
    of a machine and listed for its operation, with a processing time no
    listed machine undercuts (999 standing for a missing one), and a
    sequence that is a permutation of the task indices. The sequence loop
    ends within [num_operations] passes. *)
Theorem create_greedy_individual_valid (s : Scheduler) (order : gset nat → list nat) :
  tasks_well_formed s → machines_usable s → iterates_elements order →
  ∃ ind,
    create_greedy_individual s order = Ok ind ∧
    valid_chromosome s ind ∧
    machines_eligible s (machine_assignment ind) ∧
    (∀ k m, machine_assignment ind !! k = Some m →
       ∃ idxs t, operation_to_machines s !! k = Some idxs ∧
                 machine_time s (Z.of_nat k) 999 m = Ok t ∧
                 ∀ m' t', m' ∈ idxs →
                          machine_time s (Z.of_nat k) 999 m' = Ok t' → t <= t') ∧
    greedy_sequence_loop (length (all_operations s)) s order
      (set_seq 0 (length (all_operations s))) ∅ []
    = Ok (operation_sequence ind, ∅).
Proof.
  intros Hwf Hus Horder. unfold create_greedy_individual. cbn zeta.
  destruct (mapM_is_Ok (greedy_machine s) (seq 0 (length (all_operations s))))
    as [ma Hma].
  { intros k Hk. apply elem_of_seq in Hk. apply greedy_machine_total; [done|lia]. }
  rewrite Hma. cbn [mbind result_bind]. apply mapM_Ok_Forall2 in Hma.
  destruct (greedy_sequence_loop_spec s order Hwf Horder (length (all_operations s))
              (set_seq 0 (length (all_operations s))) ∅ []) as (sequence & Hloop & Hperm).
  { by rewrite size_set_seq. }
  { intros k Hk. apply elem_of_set_seq in Hk. lia. }
  rewrite Hloop. cbn [mbind result_bind].
  exists (new_individual ma sequence). split; [done|].
  assert (∀ k m, ma !! k = Some m → greedy_machine s k = Ok m) as Hgene.
  { intros k m Hm. destruct (Forall2_lookup_r _ _ _ _ _ Hma Hm) as (k' & Hk' & Hf).
    by apply lookup_seq in Hk' as [-> _]. }
  unfold valid_chromosome.
  cbn [machine_assignment operation_sequence new_individual].
  split; [|split; [|split; [|done]]].
  - split; [by rewrite <- (Forall2_length _ _ _ Hma), length_seq|]. split.
    + apply Forall_forall. intros m Hm. apply list_elem_of_lookup in Hm as [k Hk].
      pose proof (lookup_lt_Some _ _ _ Hk) as Hlt.
      rewrite <- (Forall2_length _ _ _ Hma), length_seq in Hlt.
      destruct (greedy_machine_spec s k m (Hgene k m Hk)) as (idxs & t & Hidxs & Hin & _).
      destruct (Hus k Hlt) as (idxs' & Hidxs' & _ & Hrange).
      rewrite Hidxs in Hidxs'. injection Hidxs' as <-.
      by apply (proj1 (Forall_forall _ _) Hrange).
    + unfold is_permutation_of_range. cbn [app] in Hperm.
      by rewrite Hperm, elements_set_seq_perm.
  - intros k m Hm.
    destruct (greedy_machine_spec s k m (Hgene k m Hm)) as (idxs & t & Hidxs & Hin & _).
    by exists idxs.
  - intros k m Hm.
    destruct (greedy_machine_spec s k m (Hgene k m Hm)) as (idxs & t & Hidxs & _ & Ht & Hmin).
    by exists idxs, t.
Qed.

Lemma best_machine_loop_raises (s : Scheduler) (op_id : Z) (skip : Z → bool)
    (missing : Z) (available : list Z) (e : exn) :
  ∀ best min_time,
    best_machine_loop s op_id skip missing available best min_time = Raise e →
    e = IndexError.
Proof.
  induction available as [|m rest IH]; intros best mt H; [done|].
  cbn [best_machine_loop] in H. destruct (skip m); [exact (IH _ _ H)|].
  apply bind_Raise in H as [H|(t & _ & H)].
  - unfold machine_time in H.
    apply bind_Raise in H as [H|(mid & _ & H)]; [by apply py_index_raises in H|].
    apply bind_Raise in H as [H|(op' & _ & H)]; [by apply py_index_raises in H|done].
  - destruct (fit_ltb (Fin t) mt); exact (IH _ _ H).
Qed.

Lemma greedy_machine_raises (s : Scheduler) (k : nat) (e : exn) :
  is_Some (operation_to_machines s !! k) → greedy_machine s k = Raise e →
  e = IndexError.
Proof.
  intros [idxs Hidxs]. unfold greedy_machine. rewrite Hidxs.
  cbn [of_option mbind result_bind]. intros H.
  apply bind_Raise in H as [H|(op & _ & H)]; [by apply py_index_raises in H|].
  apply bind_Raise in H as [H|(m0 & _ & H)]; [by apply py_index_raises in H|].
  apply bind_Raise in H as [H|([best mt] & _ & H)]; [|done].
  by apply best_machine_loop_raises in H.
Qed.

(** X22. A problem in which some operation lists no machine at all (its
    table of durations names none of its machines) is accepted by
    [prepare_problem_data], but [create_greedy_individual], the first
    seed of the population, then raises [IndexError]. *)
Theorem create_greedy_individual_no_machine (s : Scheduler)
    (order : gset nat → list nat) (k : nat) :
  machines_listed s → (k < length (all_operations s))%nat →
  operation_to_machines s !! k = Some [] →
  create_greedy_individual s order = Raise IndexError.
Proof.
  intros Hlisted Hk Hempty. unfold create_greedy_individual. cbn zeta.
  destruct (mapM (greedy_machine s) (seq 0 (length (all_operations s))))
    as [ma|e] eqn:Hma.
  - apply mapM_Ok_Forall2 in Hma.
    destruct (Forall2_lookup_l _ _ _ k k Hma) as (m & _ & Hm); [by apply lookup_seq|].
    apply greedy_machine_spec in Hm as (idxs & _ & Hidxs & Hin & _).
    rewrite Hempty in Hidxs. injection Hidxs as <-. by apply elem_of_nil in Hin.
  - cbn. apply mapM_Raise in Hma as (k' & Hk' & Hraise).
    apply elem_of_seq in Hk'.
    by rewrite (greedy_machine_raises s k' e (Hlisted k' ltac:(lia)) Hraise).
Qed.

Lemma sample_machines_usable : machines_usable sample.
Proof.
  intros k Hk. destruct sample_sizes as [Hn Hm]. rewrite Hn in Hk. rewrite Hm.
  assert (operation_to_machines sample
          = list_to_map [(0%nat, [0; 1; 2; 3]); (1%nat, [4; 5]); (2%nat, [6; 7]);
                         (3%nat, [8; 9; 10]); (4%nat, [11; 12; 13; 14]);
                         (5%nat, [15; 16; 17])]) as -> by (vm_compute; reflexivity).
  do 6 (destruct k as [|k];
        [eexists; split; [reflexivity|];
         split; [done|]; repeat constructor; lia|]).
  lia.
Qed.

Lemma create_greedy_individual_valid_witness :
  ∃ ind, create_greedy_individual sample elements = Ok ind ∧ valid_chromosome sample ind.
Proof.
  destruct (create_greedy_individual_valid sample elements) as (ind & Hind & Hvalid & _).
  - exact sample_tasks_well_formed.
  - exact sample_machines_usable.
  - intros X x. apply elem_of_elements.
  - exists ind. exact (conj Hind Hvalid).
Defined.

Lemma create_greedy_individual_no_machine_witness :
  operation_to_machines starved !! 1%nat = Some [] ∧
  create_greedy_individual starved elements = Raise IndexError.
Proof.
  assert (operation_to_machines starved
          = list_to_map [(0%nat, [0]); (1%nat, []); (2%nat, []); (3%nat, []);
                         (4%nat, []); (5%nat, [])]) as Ho2m by (vm_compute; reflexivity).
  assert (length (all_operations starved) = 6%nat) as Hn by (vm_compute; reflexivity).
  split; [by rewrite Ho2m|].
  apply (create_greedy_individual_no_machine starved elements 1).
  - intros k Hk. rewrite Hn in Hk. rewrite Ho2m.
    do 6 (destruct k as [|k]; [by eexists|]). lia.
  - rewrite Hn. lia.
  - by rewrite Ho2m.
Defined.

(** ** The order report *)

Lemma order_completion_times_snoc (sched : list ScheduledTask) (t : ScheduledTask) :
  order_completion_times (sched ++ [t])
  = <[order_id (task t) :=
        Z.max (default 0 (order_completion_times sched !! order_id (task t)))
              (end_time t)]> (order_completion_times sched).
Proof. unfold order_completion_times. by rewrite foldl_app. Qed.

Lemma order_completion_times_spec (sched : list ScheduledTask) (oid : string) :
  latest_end sched oid (default 0 (order_completion_times sched !! oid)).
Proof.
  induction sched as [|t sched IH] using rev_ind.
  - cbn. split; [done|]. split; [by intros t ?%elem_of_nil|by left].
  - rewrite order_completion_times_snoc.
    destruct IH as (H0 & Hub & Hatt).
    destruct (decide (order_id (task t) = oid)) as [Heq|Hne].
    + rewrite Heq, lookup_insert_eq. cbn.
      set (c := default 0 (order_completion_times sched !! oid)) in *.
      split; [lia|]. split.
      * intros t' [Ht'|Ht']%elem_of_app Hid; [specialize (Hub t' Ht' Hid); lia|].
        apply list_elem_of_singleton in Ht' as ->. lia.
      * destruct (Z.max_spec c (end_time t)) as [[_ ->]|[_ ->]].
        -- right. exists t. split; [apply elem_of_app; right; by left|done].
        -- destruct Hatt as [?|(t' & Ht' & Hid & He)]; [by left|].
           right. exists t'. split; [apply elem_of_app; by left|done].
    + rewrite lookup_insert_ne by done. split; [done|]. split.
      * intros t' [Ht'|Ht']%elem_of_app Hid; [by apply Hub|].
        apply list_elem_of_singleton in Ht' as ->. done.
      * destruct Hatt as [?|(t' & Ht' & Hid & He)]; [by left|].
        right. exists t'. split; [apply elem_of_app; by left|done].
Qed.

Lemma insert_by_completion_perm (x : OrderInfo) (l : list OrderInfo) :
  insert_by_completion x l ≡ₚ x :: l.
Proof.
  induction l as [|y l IH]; [done|]. cbn. case_bool_decide; [done|].
  by rewrite IH, Permutation_swap.
Qed.

Lemma sort_by_completion_perm (l : list OrderInfo) : sort_by_completion l ≡ₚ l.
Proof.
  induction l as [|x l IH]; [done|]. cbn.
  by rewrite insert_by_completion_perm, IH.
Qed.

Lemma insert_by_completion_sorted (x : OrderInfo) (l : list OrderInfo) :
  StronglySorted (fun a b => oi_completion_time a <= oi_completion_time b) l →
  StronglySorted (fun a b => oi_completion_time a <= oi_completion_time b)
    (insert_by_completion x l).
Proof.
  induction 1 as [|y l Hs IH Hy]; cbn; [by repeat constructor|].
  case_bool_decide as Hxy.
  - constructor; [by constructor|]. constructor; [done|].
    eapply Forall_impl; [exact Hy|]. cbn. intros z Hz. lia.
  - constructor; [done|]. rewrite insert_by_completion_perm.
    constructor; [lia|done].
Qed.

Lemma sort_by_completion_sorted (l : list OrderInfo) :
  StronglySorted (fun a b => oi_completion_time a <= oi_completion_time b)
    (sort_by_completion l).
Proof.
  induction l as [|x l IH]; [constructor|]. by apply insert_by_completion_sorted.
Qed.

Lemma order_info_Ok (completion : gmap string Z) (o : Order) :
  ∃ info, order_info completion o = Ok info ∧
          oi_order_id info = o_order_id o ∧ oi_quantity info = quantity o ∧
          oi_job_name info = o_job_name o ∧
          oi_completion_time info = default 0 (completion !! o_order_id o).
Proof.
  unfold order_info.
  destruct (split_aux_nonempty "_" (o_order_id o) 0 "") as (x & rest & Hsplit).
  assert (∃ p, py_index (split "_" (o_order_id o)) (-1) = Ok p) as [p ->].
  { unfold split. rewrite Hsplit. unfold py_index.
    rewrite bool_decide_eq_false_2 by lia.
    rewrite bool_decide_eq_true_2 by (cbn [length]; lia).
    destruct (lookup_lt_is_Some_2 (x :: rest)
                (Z.to_nat (Z.of_nat (length (x :: rest)) + -1))) as [p ->];
      [cbn [length]; lia|by exists p]. }
  cbn. by eexists.
Qed.

(** X23. The order report of [get_schedule_data] always builds: it has one
    entry per order, sorted by completion time, and the completion time
    of an entry is the latest end among the scheduled tasks that carry the
    order's identifier (0 when there is none), so it never exceeds the
    largest end time of the schedule. *)
Theorem order_completion_list_spec (s : Scheduler) (best_individual : Individual) :
  ∃ l,
    order_completion_list s best_individual = Ok l ∧
    length l = length (orders s) ∧
    StronglySorted (fun a b => oi_completion_time a <= oi_completion_time b) l ∧
    ∀ info, info ∈ l →
      (∃ o, o ∈ orders s ∧ oi_order_id info = o_order_id o ∧
            oi_quantity info = quantity o ∧ oi_job_name info = o_job_name o) ∧
      latest_end (schedule best_individual) (oi_order_id info)
        (oi_completion_time info) ∧
      oi_completion_time info <= Z.max 0 (makespan_of (schedule best_individual)).
Proof.
  unfold order_completion_list.
  destruct (mapM_is_Ok (order_info (order_completion_times (schedule best_individual)))
              (orders s)) as [infos Hinfos].
  { intros o _. destruct (order_info_Ok (order_completion_times (schedule best_individual)) o)
      as (info & -> & _). by eexists. }
  rewrite Hinfos. cbn [mbind result_bind]. eexists. split; [done|].
  apply mapM_Ok_Forall2 in Hinfos.
  split; [by rewrite sort_by_completion_perm, <- (Forall2_length _ _ _ Hinfos)|].
  split; [apply sort_by_completion_sorted|].
  intros info Hinfo. rewrite sort_by_completion_perm in Hinfo.
  apply list_elem_of_lookup in Hinfo as [k Hk].
  destruct (Forall2_lookup_r _ _ _ _ _ Hinfos Hk) as (o & Ho & Hf).
  destruct (order_info_Ok (order_completion_times (schedule best_individual)) o)
    as (info' & Hinfo' & Hid & Hq & Hj & Hc).
  rewrite Hf in Hinfo'. injection Hinfo' as <-.
  pose proof (order_completion_times_spec (schedule best_individual) (o_order_id o))
    as Hlatest.
  rewrite <- Hc, <- Hid in Hlatest.
  split; [exists o; split; [by eapply list_elem_of_lookup_2|done]|].
  split; [done|].
  destruct Hlatest as (_ & _ & [->|(t & Ht & _ & <-)]); [lia|].
  pose proof (makespan_of_upper_bound _ t Ht). lia.
Qed.

Lemma foldr_min_elem (t : Z) (ts : list Z) : foldr Z.min t ts ∈ t :: ts.
Proof.
  induction ts as [|x ts IH]; [by left|]. cbn [foldr].
  destruct (Z.min_spec x (foldr Z.min t ts)) as [[_ ->]|[_ ->]].
  - right. by left.
  - apply elem_of_cons in IH as [->|IH]; [by left|]. by do 2 right.
Qed.

Lemma foldr_min_le (t : Z) (ts : list Z) (x : Z) : x ∈ t :: ts → foldr Z.min t ts <= x.
Proof.
  induction ts as [|y ts IH]; intros Hx.
  - apply list_elem_of_singleton in Hx as ->. cbn. lia.
  - cbn [foldr]. apply elem_of_cons in Hx as [->|Hx].
    + assert (foldr Z.min t ts <= t) by (apply IH; by left). lia.
    + apply elem_of_cons in Hx as [->|Hx]; [lia|].
      assert (foldr Z.min t ts <= x) by (apply IH; by right). lia.
Qed.

(** X24. [completion_stats] always builds and counts the entries of the
    report; for a non-empty report the fastest, the median and the
    slowest completion time are completion times of listed orders, every
    listed completion time lies between the fastest and the slowest, and
    so does the median. *)
Theorem completion_stats_spec (l : list OrderInfo) :
  ∃ st,
    completion_stats l = Ok st ∧ total_orders st = length l ∧
    (l = [] → fastest st = 0 ∧ slowest st = 0 ∧ median st = 0) ∧
    (l ≠ [] →
     fastest st ∈ oi_completion_time <$> l ∧ slowest st ∈ oi_completion_time <$> l ∧
     median st ∈ oi_completion_time <$> l ∧
     fastest st <= median st <= slowest st ∧
     ∀ info, info ∈ l → fastest st <= oi_completion_time info <= slowest st).
Proof.
  unfold completion_stats. destruct (oi_completion_time <$> l) as [|t ts] eqn:Hl.
  - apply fmap_nil_inv in Hl as ->. eexists. split; [done|]. cbn. done.
  - assert (length (t :: ts) = length l) as Hlen by (by rewrite <- Hl, length_fmap).
    cbn zeta.
    destruct (py_index_in_range (merge_sort Z.le (t :: ts))
                (Z.of_nat (length (t :: ts)) `div` 2)) as (m & -> & Hm).
    { rewrite merge_sort_Permutation. cbn [length].
      split; [apply Z.div_pos; lia|]. apply Z.div_lt_upper_bound; lia. }
    cbn [mbind result_bind]. eexists. split; [done|]. cbn.
    split; [exact Hlen|]. split; [by intros ->|]. intros _.
    apply list_elem_of_lookup_2 in Hm. rewrite merge_sort_Permutation in Hm.
    pose proof (foldr_min_elem t ts) as Hmin. pose proof (foldr_max_elem t ts) as Hmax.
    split; [done|]. split; [done|]. split; [done|].
    split; [split; [by apply foldr_min_le|by apply foldr_max_ge]|].
    intros info Hinfo.
    assert (oi_completion_time info ∈ t :: ts) as Hin.
    { rewrite <- Hl. apply list_elem_of_fmap. by exists info. }
    split; [by apply foldr_min_le|by apply foldr_max_ge].
Qed.

(** ** The greedy scheduler *)

Lemma best_completion_fold (machines : gmap string MachineState) (times : gmap string Z)
    (l : list string) :
  ∀ seen best, earliest_so_far machines times seen best →
    earliest_so_far machines times (seen ++ l)
      (foldl (best_completion_step machines times) best l).
Proof.
  induction l as [|m l IH]; intros seen best Hinv; [by rewrite app_nil_r|].
  cbn [foldl]. replace (seen ++ m :: l) with ((seen ++ [m]) ++ l)
    by (by rewrite <- app_assoc).
  apply IH. unfold best_completion_step, earliest_so_far in *.
  destruct best as [[bm bct] bpt]. cbn [fst snd] in *.
  destruct (times !! m) as [p|] eqn:Hp, (machines !! m) as [ms|] eqn:Hms;
    cbn [fst snd].
  - destruct (fit_ltb (Fin (available_time ms + p)) bct) eqn:Hlt; cbn [fst snd].
    + split; [apply elem_of_app; right; by left|]. split; [done|].
      exists ms. split; [done|]. split; [done|].
      intros m' p' ms' [Hm'|Hm']%elem_of_app Hp' Hms'.
      * destruct bm as [b|].
        -- destruct Hinv as (_ & _ & ms0 & _ & -> & Hmin).
           cbn in Hlt. apply bool_decide_eq_true in Hlt.
           pose proof (Hmin m' p' ms' Hm' Hp' Hms'). lia.
        -- destruct Hinv as (_ & _ & Hnone).
           destruct (Hnone m' Hm') as [?|?]; congruence.
      * apply list_elem_of_singleton in Hm' as ->. simplify_eq. lia.
    + destruct bm as [b|].
      * destruct Hinv as (Hb & Hbt & ms0 & Hms0 & -> & Hmin).
        split; [apply elem_of_app; by left|]. split; [done|].
        exists ms0. split; [done|]. split; [done|].
        intros m' p' ms' [Hm'|Hm']%elem_of_app Hp' Hms'; [by eapply Hmin|].
        apply list_elem_of_singleton in Hm' as ->. simplify_eq.
        cbn in Hlt. apply bool_decide_eq_false in Hlt. lia.
      * destruct Hinv as (-> & _ & _). done.
  - destruct bm as [b|].
    + destruct Hinv as (Hb & Hbt & ms0 & Hms0 & Hct & Hmin).
      split; [apply elem_of_app; by left|]. split; [done|].
      exists ms0. split; [done|]. split; [done|].
      intros m' p' ms' [Hm'|Hm']%elem_of_app Hp' Hms'; [by eapply Hmin|].
      apply list_elem_of_singleton in Hm' as ->. congruence.
    + destruct Hinv as (Hct & Hpt & Hnone). split; [done|]. split; [done|].
      intros m' [Hm'|Hm']%elem_of_app; [by apply Hnone|].
      apply list_elem_of_singleton in Hm' as ->. by right.
  - destruct bm as [b|].
    + destruct Hinv as (Hb & Hbt & ms0 & Hms0 & Hct & Hmin).
      split; [apply elem_of_app; by left|]. split; [done|].
      exists ms0. split; [done|]. split; [done|].
      intros m' p' ms' [Hm'|Hm']%elem_of_app Hp' Hms'; [by eapply Hmin|].
      apply list_elem_of_singleton in Hm' as ->. congruence.
    + destruct Hinv as (Hct & Hpt & Hnone). split; [done|]. split; [done|].
      intros m' [Hm'|Hm']%elem_of_app; [by apply Hnone|].
      apply list_elem_of_singleton in Hm' as ->. by left.
  - destruct bm as [b|].
    + destruct Hinv as (Hb & Hbt & ms0 & Hms0 & Hct & Hmin).
      split; [apply elem_of_app; by left|]. split; [done|].
      exists ms0. split; [done|]. split; [done|].
      intros m' p' ms' [Hm'|Hm']%elem_of_app Hp' Hms'; [by eapply Hmin|].
      apply list_elem_of_singleton in Hm' as ->. congruence.
    + destruct Hinv as (Hct & Hpt & Hnone). split; [done|]. split; [done|].
      intros m' [Hm'|Hm']%elem_of_app; [by apply Hnone|].
      apply list_elem_of_singleton in Hm' as ->. by left.
Qed.

Lemma get_best_machine_for_task_earliest (machines : gmap string MachineState)
    (operation : Operation) :
  match get_best_machine_for_task machines operation with
  | (None, processing_time) =>
      processing_time = 0 ∧
      ∀ m, m ∈ op_def_machines operation →
           processing_times operation !! m = None ∨ machines !! m = None
  | (Some b, processing_time) =>
      b ∈ op_def_machines operation ∧
      processing_times operation !! b = Some processing_time ∧
      ∃ ms, machines !! b = Some ms ∧
            ∀ m p ms', m ∈ op_def_machines operation →
                       processing_times operation !! m = Some p →
                       machines !! m = Some ms' →
                       available_time ms + processing_time <= available_time ms' + p
  end.
Proof.
  unfold get_best_machine_for_task. cbn zeta.
  pose proof (best_completion_fold machines (processing_times operation)
                (op_def_machines operation) [] (None, Inf, 0)
                ltac:(split; [done|]; split; [done|]; by intros m ?%elem_of_nil)) as H.
  cbn [app] in H. unfold earliest_so_far in H.
  destruct (foldl _ _ _) as [[bm bct] bpt]. cbn [fst snd] in *.
  destruct bm as [b|].
  - destruct H as (Hb & Hbt & ms & Hms & _ & Hmin). split; [done|]. split; [done|].
    by exists ms.
  - by destruct H as (_ & -> & Hnone).
Qed.

(** X25. [get_best_machine_for_task] of the greedy scheduler returns no
    machine (and a processing time of 0) exactly when none of the
    operation's machines has both a duration and a machine record;
    otherwise it returns one of the operation's machines that has both,
    with its duration, such that no such machine would complete the task
    earlier. *)
Theorem get_best_machine_for_task_spec (machines : gmap string MachineState)
    (operation : Operation) :
  match get_best_machine_for_task machines operation with
  | (None, processing_time) =>
      processing_time = 0 ∧
      ∀ m, m ∈ op_def_machines operation →
           processing_times operation !! m = None ∨ machines !! m = None
  | (Some b, processing_time) =>
      b ∈ op_def_machines operation ∧
      processing_times operation !! b = Some processing_time ∧
      ∃ ms, machines !! b = Some ms ∧
            ∀ m p ms', m ∈ op_def_machines operation →
                       processing_times operation !! m = Some p →
                       machines !! m = Some ms' →
                       available_time ms + processing_time <= available_time ms' + p
  end.
Proof. apply get_best_machine_for_task_earliest. Qed.

Lemma heappush_perm (h : list (Z * nat * Task)) (x : Z * nat * Task) :
  heappush h x ≡ₚ x :: h.
Proof.
  induction h as [|y h IH]; [done|]. cbn. destruct (heap_le x y); [done|].
  by rewrite IH, Permutation_swap.
Qed.

Lemma schedule_step_Ok (js : gmap string Job) (all_tasks : list Task)
    (preds : gmap string string) (st st' : GreedyState) (cur : Task) :
  schedule_step js all_tasks preds st cur = Ok st' →
  st' = st ∨
  ∃ job operation b pt ms start,
    (task_id cur ∉ scheduled_task_ids st) ∧
    js !! job_name cur = Some job ∧
    operations job !! operation_idx cur = Some operation ∧
    b ∈ op_def_machines operation ∧ processing_times operation !! b = Some pt ∧
    g_machines st !! b = Some ms ∧ available_time ms <= start ∧
    let t := mkScheduledTask cur (ms_machine_id ms) start (start + pt) pt in
    (g_machines st'
     = <[b := mkMachineState (ms_machine_id ms) (start + pt) (scheduled_tasks ms ++ [t])]>
         (g_machines st)) ∧
    g_scheduled_tasks st' = g_scheduled_tasks st ++ [t] ∧
    scheduled_task_ids st' = {[task_id cur]} ∪ scheduled_task_ids st ∧
    (ready_tasks st' = ready_tasks st ∨
     ∃ next, next ∈ all_tasks ∧
             ready_tasks st' = heappush (ready_tasks st) (start + pt, task_counter st, next)) ∧
    task_completion_times st' = <[task_id cur := start + pt]> (task_completion_times st) ∧
    ∀ p c, preds !! task_id cur = Some p → task_completion_times st !! p = Some c →
           c <= start.
Proof.
  unfold schedule_step. intros H.
  case_bool_decide as Hid; [left; by simplify_eq|].
  inv_bind H. rename a into job, Ha into Hjob. apply of_option_Ok in Hjob.
  inv_bind H. rename a into operation, Ha into Hop. apply of_option_Ok in Hop.
  pose proof (get_best_machine_for_task_earliest (g_machines st) operation) as Hbest.
  destruct (get_best_machine_for_task (g_machines st) operation) as [[b|] pt];
    [|left; by simplify_eq].
  destruct Hbest as (Hb & Hpt & ms & Hms & _).
  rewrite Hms in H. cbn [of_option mbind result_bind] in H.
  set (start0 := match preds !! task_id cur with
                 | Some predecessor_id =>
                     match task_completion_times st !! predecessor_id with
                     | Some completion => Z.max (available_time ms) completion
                     | None => available_time ms
                     end
                 | None => available_time ms
                 end) in *.
  assert (available_time ms <= start0) as Hstart.
  { subst start0. destruct (preds !! task_id cur) as [pid|]; [|lia].
    destruct (task_completion_times st !! pid); lia. }
  unfold schedule_task in H. cbn zeta in H.
  replace (Z.max start0 (available_time ms)) with start0 in H by lia.
  assert (∀ p c, preds !! task_id cur = Some p →
                 task_completion_times st !! p = Some c → c <= start0) as Hpred.
  { intros p c Hp Hc. subst start0. rewrite Hp, Hc. lia. }
  right. exists job, operation, b, pt, ms, start0.
  do 7 (split; [done|]). cbn zeta.
  case_bool_decide as Hnext.
  - destruct (list_find _ all_tasks) as [[i next]|] eqn:Hfind.
    + injection H as <-. cbn. do 3 (split; [done|]). split; [|done]. right. exists next.
      split; [|done]. apply list_find_Some in Hfind as (Hi & _).
      by eapply list_elem_of_lookup_2.
    + injection H as <-. cbn. do 3 (split; [done|]). split; [by left|done].
  - injection H as <-. cbn. do 3 (split; [done|]). split; [by left|done].
Qed.

Lemma size_difference_step (A S : gset string) (x : string) :
  x ∈ A → x ∉ S → size (A ∖ S) = Datatypes.S (size (A ∖ ({[x]} ∪ S))).
Proof.
  intros HA HS.
  assert (A ∖ S = {[x]} ∪ A ∖ ({[x]} ∪ S)) as ->.
  { apply set_eq. intros y.
    rewrite elem_of_union, !elem_of_difference, elem_of_union, elem_of_singleton.
    destruct (decide (y = x)) as [->|Hne]; [tauto|]. tauto. }
  rewrite size_union, size_singleton; [done|].
  apply elem_of_disjoint. intros y Hy [_ Hn]%elem_of_difference.
  apply Hn, elem_of_union. by left.
Qed.

Lemma schedule_step_inv (js : gmap string Job) (all_tasks : list Task)
    (preds : gmap string string) (st st' : GreedyState) (cur : Task) :
  nonneg_durations js → greedy_inv js all_tasks st → cur ∈ all_tasks →
  schedule_step js all_tasks preds st cur = Ok st' →
  greedy_inv js all_tasks st' ∧
  (passes_left all_tasks st' <= passes_left all_tasks st)%nat.
Proof.
  intros Hnn (Hkey & Htasks & Hexcl & Hnd & Hids & Hready) Hcur H.
  apply schedule_step_Ok in H
    as [->|(job & operation & b & pt & ms & start & Hid & Hjob & Hop & Hb & Hpt & Hms
            & Hstart & Hm' & Hs' & Hi' & Hr' & _ & _)]; [by split|].
  cbn zeta in Hm', Hs'.
  assert (0 <= pt) as Hpos.
  { eapply (Hnn (job_name cur) job operation b pt); [done| |done].
    by eapply list_elem_of_lookup_2. }
  pose proof (Hkey b ms Hms) as Hbkey.
  split.
  - split; [|split; [|split; [|split; [|split]]]].
    + intros m ms'. rewrite Hm'. destruct (decide (b = m)) as [<-|Hne].
      * rewrite lookup_insert_eq. by intros [= <-].
      * rewrite lookup_insert_ne by done. apply Hkey.
    + intros t. rewrite Hs', Hi', Hm'. intros [Ht|Ht]%elem_of_app.
      * destruct (Htasks t Ht) as (H1 & H2 & H3 & (ms_t & Hms_t & Hle) & H5).
        split; [done|]. split; [apply elem_of_union; by right|]. split; [done|].
        split; [|done].
        destruct (decide (b = machine_id t)) as [Heq|Hne].
        -- rewrite <- Heq, lookup_insert_eq. eexists. split; [done|]. cbn.
           rewrite <- Heq, Hms in Hms_t. injection Hms_t as <-. lia.
        -- rewrite lookup_insert_ne by done. by exists ms_t.
      * apply list_elem_of_singleton in Ht as ->. cbn.
        split; [done|]. split; [apply elem_of_union; left; by apply elem_of_singleton|].
        split; [done|]. rewrite Hbkey. split.
        -- rewrite lookup_insert_eq. eexists. split; [done|]. cbn. lia.
        -- by exists job, operation.
    + rewrite Hs'. intros i j x y Hij Hx Hy Hmach.
      apply lookup_app_Some in Hy as [Hy|[Hge Hy]].
      * apply (Hexcl i j x y Hij); [|done|done].
        rewrite lookup_app_l in Hx; [done|]. apply lookup_lt_Some in Hy. lia.
      * apply list_lookup_singleton_Some in Hy as [Hz <-]. cbn in Hmach |- *.
        rewrite lookup_app_l in Hx by lia.
        destruct (Htasks x ltac:(by eapply list_elem_of_lookup_2))
          as (_ & _ & _ & (ms_x & Hms_x & Hle) & _).
        rewrite Hmach, Hbkey, Hms in Hms_x. injection Hms_x as <-. lia.
    + rewrite Hs', fmap_app. apply NoDup_app. split; [done|]. split.
      * intros x Hx [= ->]%list_elem_of_singleton. cbn in Hx.
        apply list_elem_of_fmap in Hx as (t & Hx & Ht). cbn in Hx.
        destruct (Htasks t Ht) as (_ & Hin & _). rewrite <- Hx in Hin. done.
      * apply NoDup_singleton.
    + intros x. rewrite Hi'. intros [Hx|Hx]%elem_of_union; [|by apply Hids].
      apply elem_of_singleton in Hx as ->. apply list_elem_of_fmap. by exists cur.
    + intros x Hx. destruct Hr' as [Hr'|(next & Hnext & Hr')]; rewrite Hr' in Hx.
      * by apply Hready.
      * rewrite heappush_perm in Hx. apply elem_of_cons in Hx as [->|Hx]; [done|].
        by apply Hready.
  - unfold passes_left. rewrite Hi'.
    rewrite (size_difference_step _ (scheduled_task_ids st) (task_id cur));
      [| |done].
    + destruct Hr' as [->|(next & _ & ->)]; [lia|].
      rewrite heappush_perm. cbn [length]. lia.
    + apply elem_of_list_to_set. apply list_elem_of_fmap. by exists cur.
Qed.

Lemma schedule_loop_inv (js : gmap string Job) (all_tasks : list Task)
    (preds : gmap string string) (fuel : nat) :
  nonneg_durations js →
  ∀ st st', greedy_inv js all_tasks st → (passes_left all_tasks st <= fuel)%nat →
    schedule_loop fuel js all_tasks preds st = Ok st' →
    greedy_inv js all_tasks st' ∧ ready_tasks st' = [].
Proof.
  intros Hnn. induction fuel as [|fuel IH]; intros st st' Hinv Hfuel H.
  - cbn in H. injection H as <-. split; [done|].
    unfold passes_left in Hfuel. destruct (ready_tasks st); [done|cbn in Hfuel; lia].
  - cbn [schedule_loop] in H.
    destruct (ready_tasks st) as [|[[prio cnt] cur] rest] eqn:Hr.
    { injection H as <-. by split. }
    inv_bind H. rename a into st1, Ha into Hstep.
    destruct Hinv as (Hkey & Htasks & Hexcl & Hnd & Hids & Hready).
    assert (greedy_inv js all_tasks
              (mkGreedyState (g_machines st) (g_scheduled_tasks st) rest
                 (scheduled_task_ids st) (task_completion_times st) (task_counter st)))
      as Hpopped.
    { split; [done|]. split; [done|]. split; [done|]. split; [done|]. split; [done|].
      cbn. intros x Hx. apply Hready. rewrite Hr. by right. }
    assert (cur ∈ all_tasks) as Hcur.
    { apply (Hready (prio, cnt, cur)). rewrite Hr. by left. }
    destruct (schedule_step_inv js all_tasks preds _ st1 cur Hnn Hpopped Hcur Hstep)
      as [Hinv1 Hpass].
    apply (IH st1 st' Hinv1); [|done].
    unfold passes_left in *. rewrite Hr in Hfuel. cbn in Hfuel, Hpass. lia.
Qed.

Lemma heappush_length (h : list (Z * nat * Task)) (x : Z * nat * Task) :
  length (heappush h x) = S (length h).
Proof. by rewrite heappush_perm. Qed.

Lemma initial_ready_fold (all_tasks l : list Task) :
  ∀ acc : list (Z * nat * Task) * nat,
    (∀ x, x ∈ acc.1 → x.2 ∈ all_tasks) → (∀ t, t ∈ l → t ∈ all_tasks) →
    let r := foldl (fun acc task =>
                      if bool_decide (operation_idx task = 0%nat)
                      then (heappush acc.1 (0, acc.2, task), S acc.2)
                      else acc) acc l in
    (∀ x, x ∈ r.1 → x.2 ∈ all_tasks) ∧ (length r.1 <= length acc.1 + length l)%nat.
Proof.
  induction l as [|t l IH]; intros acc Hacc Hl; cbn [foldl].
  - cbn zeta. split; [done|]. lia.
  - assert (∀ t', t' ∈ l → t' ∈ all_tasks) as Hl' by (intros t' Ht'; apply Hl; by right).
    case_bool_decide.
    + destruct (IH (heappush acc.1 (0, acc.2, t), S acc.2)) as [H1 H2]; [|done|].
      { cbn. intros x Hx. rewrite heappush_perm in Hx.
        apply elem_of_cons in Hx as [->|Hx]; [apply Hl; by left|by apply Hacc]. }
      cbn zeta in *. split; [done|]. cbn [fst] in H2.
      rewrite heappush_length in H2. cbn [length] in *. lia.
    + destruct (IH acc Hacc Hl') as [H1 H2]. cbn zeta in *. split; [done|].
      cbn [length]. lia.
Qed.

Lemma size_list_to_set_le (l : list string) :
  (size (list_to_set l : gset string) <= length l)%nat.
Proof.
  induction l as [|x l IH]; [by rewrite list_to_set_nil, size_empty|].
  rewrite list_to_set_cons, size_union_alt, size_singleton. cbn [length].
  pose proof (subseteq_size (list_to_set l ∖ {[x]} : gset string) (list_to_set l)
                ltac:(apply subseteq_difference_l; done)).
  lia.
Qed.

(** X26. When [schedule_orders] of the greedy scheduler returns (on
    durations that are not negative and machine records stored under
    their own identifier), its loop has emptied the queue within the
    passes allowed, and the schedule it leaves is conflict-free: tasks on
    one machine do not overlap, no task identifier is scheduled twice, and
    every scheduled task is one of the created tasks, placed on a machine
    that its operation lists and for which the operation has a duration,
    which is the processing time the task got. *)
Theorem schedule_orders_conflict_free (js : gmap string Job) (os : list Order)
    (machines : gmap string MachineState) (st : GreedyState) :
  nonneg_durations js →
  (∀ m ms, machines !! m = Some ms → ms_machine_id ms = m) →
  schedule_orders js os machines = Ok st →
  ∃ created,
    create_tasks js os = Ok created ∧
    ready_tasks st = [] ∧
    non_overlapping (g_scheduled_tasks st) ∧
    NoDup (task_id ∘ task <$> g_scheduled_tasks st) ∧
    ∀ t, t ∈ g_scheduled_tasks st →
      task t ∈ created.*1 ∧
      end_time t = start_time t + processing_time t ∧
      ∃ job operation,
        js !! job_name (task t) = Some job ∧
        operations job !! operation_idx (task t) = Some operation ∧
        machine_id t ∈ op_def_machines operation ∧
        processing_times operation !! machine_id t = Some (processing_time t).
Proof.
  intros Hnn Hkey H. unfold schedule_orders in H.
  inv_bind H. rename a into created, Ha into Hcreated. exists created.
  split; [done|]. cbn zeta in H.
  pose proof (initial_ready_fold created.*1 created.*1 ([], 0%nat)
                ltac:(by intros x ?%elem_of_nil) ltac:(done)) as Hinit.
  fold (initial_ready created.*1) in Hinit. cbn zeta in Hinit.
  destruct (initial_ready created.*1) as [ready counter].
  destruct Hinit as [Hmem Hlen]. cbn [fst length] in Hmem, Hlen.
  assert (greedy_inv js created.*1 (mkGreedyState machines [] ready ∅ ∅ counter))
    as Hinv.
  { split; [exact Hkey|]. split; [by intros t ?%elem_of_nil|].
    split; [by intros i j a b _ ?|]. split; [constructor|].
    split; [by intros x ?%elem_of_empty|exact Hmem]. }
  assert (passes_left created.*1 (mkGreedyState machines [] ready ∅ ∅ counter)
          <= 2 * length created.*1)%nat as Hfuel.
  { unfold passes_left. cbn [ready_tasks scheduled_task_ids].
    pose proof (size_list_to_set_le (task_id <$> created.*1)) as Hsz.
    rewrite length_fmap in Hsz.
    pose proof (subseteq_size
                  ((list_to_set (task_id <$> created.*1) : gset string) ∖ ∅)
                  (list_to_set (task_id <$> created.*1))
                  ltac:(apply subseteq_difference_l; done)).
    lia. }
  destruct (schedule_loop_inv js created.*1 (predecessors_of created)
              (2 * length created.*1) Hnn _ st Hinv Hfuel H)
    as ((_ & Htasks & Hexcl & Hnd & _) & Hempty).
  split; [done|]. split; [by apply ordered_exclusive_non_overlapping|].
  split; [done|]. intros t Ht.
  destruct (Htasks t Ht) as (H1 & _ & H3 & _ & H5). done.
Qed.

Lemma sample_nonneg_durations : nonneg_durations (jobs sample).
Proof.
  assert (map_Forall (fun _ job =>
                        Forall (fun operation =>
                                  map_Forall (fun _ p => 0 <= p)
                                    (processing_times operation))
                               (operations job))
                     (jobs sample)) as Hall.
  { apply (bool_decide_unpack _). vm_compute. reflexivity. }
  intros j job operation m p Hj Hop Hp.
  exact (proj1 (Forall_forall _ _) (Hall j job Hj) operation Hop m p Hp).
Qed.

Lemma schedule_orders_conflict_free_witness :
  schedule_orders (jobs sample) (orders sample) (reset_machine_states (machines sample))
  = Ok sample_greedy ∧
  ready_tasks sample_greedy = [] ∧ non_overlapping (g_scheduled_tasks sample_greedy).
Proof.
  assert (schedule_orders (jobs sample) (orders sample)
            (reset_machine_states (machines sample)) = Ok sample_greedy) as H
    by (vm_compute; reflexivity).
  split; [exact H|].
  destruct (schedule_orders_conflict_free (jobs sample) (orders sample)
              (reset_machine_states (machines sample)) sample_greedy)
    as (created & _ & Hready & Hno & _).
  - exact sample_nonneg_durations.
  - intros m ms. rewrite reset_machine_states_lookup. case_bool_decide; [|done].
    by intros [= <-].
  - exact H.
  - exact (conj Hready Hno).
Defined.

Lemma schedule_step_precedence (js : gmap string Job) (all_tasks : list Task)
    (preds : gmap string string) (st st' : GreedyState) (cur : Task) :
  precedence_recorded_inv preds st →
  schedule_step js all_tasks preds st cur = Ok st' →
  precedence_recorded_inv preds st'.
Proof.
  intros [Hrec Hprec] H.
  apply schedule_step_Ok in H
    as [->|(job & operation & b & pt & ms & start & Hid & _ & _ & _ & _ & _
            & _ & _ & Hs' & Hi' & _ & Hc' & Hpred)]; [by split|].
  cbn zeta in Hs'. split.
  - intros t. rewrite Hs', Hi', Hc'. intros [Ht|Ht]%elem_of_app.
    + destruct (Hrec t Ht) as [Hin Hc]. split; [apply elem_of_union; by right|].
      rewrite lookup_insert_ne; [done|]. intros Heq. by rewrite Heq in Hid.
    + apply list_elem_of_singleton in Ht as ->. cbn.
      split; [apply elem_of_union; left; by apply elem_of_singleton|].
      by rewrite lookup_insert_eq.
  - rewrite Hs'. intros i j x y Hij Hx Hy Hp.
    apply lookup_app_Some in Hy as [Hy|[Hge Hy]].
    + apply (Hprec i j x y Hij); [|done|done].
      rewrite lookup_app_l in Hx; [done|]. apply lookup_lt_Some in Hy. lia.
    + apply list_lookup_singleton_Some in Hy as [Hz <-]. cbn in Hp |- *.
      rewrite lookup_app_l in Hx by lia.
      destruct (Hrec x ltac:(by eapply list_elem_of_lookup_2)) as [_ Hc].
      exact (Hpred _ _ Hp Hc).
Qed.

Lemma schedule_loop_precedence (js : gmap string Job) (all_tasks : list Task)
    (preds : gmap string string) (fuel : nat) :
  ∀ st st', precedence_recorded_inv preds st →
    schedule_loop fuel js all_tasks preds st = Ok st' →
    precedence_recorded_inv preds st'.
Proof.
  induction fuel as [|fuel IH]; intros st st' Hinv H.
  - cbn in H. by injection H as <-.
  - cbn [schedule_loop] in H.
    destruct (ready_tasks st) as [|[[prio cnt] cur] rest] eqn:Hr.
    { by injection H as <-. }
    inv_bind H. rename a into st1, Ha into Hstep.
    apply (IH st1 st'); [|done].
    eapply schedule_step_precedence; [|exact Hstep].
    exact Hinv.
Qed.

(** X27. In the schedule of the greedy scheduler, a task never starts
    before the end of the task scheduled ahead of it that
    [task_predecessors] names as its predecessor (the previous operation
    of the same unit): the start is raised to the predecessor's recorded
    completion. *)
Theorem schedule_orders_precedence (js : gmap string Job) (os : list Order)
    (machines : gmap string MachineState) (st : GreedyState) :
  schedule_orders js os machines = Ok st →
  ∃ created,
    create_tasks js os = Ok created ∧
    recorded_precedence (predecessors_of created) (g_scheduled_tasks st) ∧
    ∀ t, t ∈ g_scheduled_tasks st →
         task_completion_times st !! task_id (task t) = Some (end_time t).
Proof.
  intros H. unfold schedule_orders in H.
  inv_bind H. rename a into created, Ha into Hcreated. exists created.
  split; [done|]. cbn zeta in H.
  destruct (initial_ready created.*1) as [ready counter].
  apply schedule_loop_precedence in H as [Hrec Hprec].
  - split; [done|]. intros t Ht. by destruct (Hrec t Ht).
  - split; [by intros t ?%elem_of_nil|]. by intros i j a b _ ?.
Qed.

Lemma schedule_orders_precedence_witness :
  ∃ created,
    create_tasks (jobs sample) (orders sample) = Ok created ∧
    recorded_precedence (predecessors_of created) (g_scheduled_tasks sample_greedy).
Proof.
  assert (schedule_orders (jobs sample) (orders sample)
            (reset_machine_states (machines sample)) = Ok sample_greedy) as H
    by (vm_compute; reflexivity).
  destruct (schedule_orders_precedence (jobs sample) (orders sample)
              (reset_machine_states (machines sample)) sample_greedy H)
    as (created & Hc & Hp & _).
  exists created. exact (conj Hc Hp).
Defined.

Lemma py_min_bounds (a b lo : Q) :
  (lo <= a)%Q → (lo <= b)%Q → (lo <= py_min a b)%Q ∧ (py_min a b <= a)%Q.
Proof.
  intros Ha Hb. unfold py_min.
  destruct (Qle_bool a b) eqn:Hle; cbn.
  - split; [done|apply Qle_refl].
  - split; [done|]. apply Qlt_le_weak, Qnot_le_lt. intros Hab.
    apply Qle_bool_iff in Hab. congruence.
Qed.

Lemma py_max_bounds (a b hi : Q) :
  (a <= hi)%Q → (b <= hi)%Q → (a <= py_max a b)%Q ∧ (py_max a b <= hi)%Q.
Proof.
  intros Ha Hb. unfold py_max.
  destruct (Qle_bool b a) eqn:Hle; cbn.
  - split; [apply Qle_refl|done].
  - split; [|done]. apply Qlt_le_weak, Qnot_le_lt. intros Hab.
    apply Qle_bool_iff in Hab. congruence.
Qed.

Lemma scale_up_ge (x lo : Q) (n d : positive) :
  (d <= n)%positive → (0 <= lo)%Q → (lo <= x)%Q → (lo <= x * (Z.pos n # d))%Q.
Proof.
  intros Hnd Hlo Hx. apply Qle_trans with x; [done|].
  assert (0 <= x)%Q as H0 by by apply Qle_trans with lo.
  unfold Qle, Qmult in *. cbn in *. nia.
Qed.

Lemma scale_down_le (x hi : Q) (n d : positive) :
  (n <= d)%positive → (0 <= x)%Q → (x <= hi)%Q → (x * (Z.pos n # d) <= hi)%Q.
Proof.
  intros Hnd H0 Hx. apply Qle_trans with x; [|done].
  unfold Qle, Qmult in *. cbn in *. nia.
Qed.

(** X28. [_adjust_parameters_dynamically] keeps the parameters within
    their ranges, whether it returns or raises: a crossover rate between 0
    and 0.95, a mutation rate between 0.05 and 0.25 and between 3 and 12
    search iterations stay so; and with fewer than five entries in the
    fitness history nothing changes. *)
Theorem adjust_parameters_keeps_ranges (s : Scheduler) (r : Rates)
    (generation : nat) (fitness_history : list Fitness) :
  rates_in_range r →
  rates_in_range (_adjust_parameters_dynamically s r generation fitness_history).1 ∧
  ((length fitness_history < 5)%nat →
   _adjust_parameters_dynamically s r generation fitness_history = (r, None)).
Proof.
  intros (Hc0 & Hc & Hm0 & Hm & Hv). split; [|by intros ?; unfold _adjust_parameters_dynamically; rewrite bool_decide_eq_true_2].
  unfold _adjust_parameters_dynamically.
  case_bool_decide; [done|].
  destruct (py_index fitness_history (-1)) as [last|]; [|done].
  destruct (py_index fitness_history (-5)) as [fifth|]; [|done].
  cbn zeta.
  set (stagnating := match recent_improvement last fifth with
                     | Some q => negb (Qle_bool (1 # 100) q) | None => false end).
  set (r1 := if stagnating then _ else _).
  assert (rates_in_range r1) as (Hc0' & Hc' & Hm0' & Hm' & Hv').
  { subst r1. destruct stagnating; unfold rates_in_range; cbn.
    - destruct (py_min_bounds (25 # 100) (mutation_rate r * (11 # 10)) (5 # 100))
        as [Hlo Hhi]; [done|by apply scale_up_ge|].
      repeat split; try done; lia.
    - destruct (py_max_bounds (5 # 100) (mutation_rate r * (95 # 100)) (25 # 100))
        as [Hlo Hhi]; [done|apply scale_down_le; [done| |done]|].
      { by apply Qle_trans with (5 # 100)%Q. }
      repeat split; try done; lia. }
  destruct (py_div _ (generations s)) as [ratio|]; [|done].
  destruct (negb (Qle_bool ratio (7 # 10))); [|done].
  unfold rates_in_range; cbn.
  destruct (py_min_bounds (95 # 100) (crossover_rate r1 * (105 # 100)) 0)
    as [Hlo Hhi]; [done|by apply scale_up_ge|].
  done.
Qed.

Lemma adjust_parameters_keeps_ranges_witness :
  rates_in_range initial_rates ∧
  rates_in_range
    (_adjust_parameters_dynamically sample initial_rates 40
       [Fin 90; Fin 88; Fin 88; Fin 88; Fin 88; Fin 88]).1.
Proof.
  assert (rates_in_range initial_rates) as H.
  { unfold rates_in_range, initial_rates, Qle; cbn. lia. }
  split; [exact H|].
  exact (proj1 (adjust_parameters_keeps_ranges sample initial_rates 40
                  [Fin 90; Fin 88; Fin 88; Fin 88; Fin 88; Fin 88] H)).
Defined.
